(** * Search_Method.py: route search over a city graph

    A shallow embedding of [Search_Method.py] and the properties its
    specification states about it.

    Modelling conventions.
    - A Python [dict] is a [gmap]; a Python [list] is a [list]; city names
      are [string]s compared by [==], i.e. Leibniz equality.
    - Numbers.  The program computes with [float]s, and with the [int] 0
      that starts a sum.  The development is parametric in that
      arithmetic: a type [num] with the zero, the addition and the
      comparisons [<] and [==] that the program uses (class [Number]).
      Two instances are given: [PrimFloat.float], the IEEE 754 binary64
      numbers that Python's floats are, with their rounding, their
      infinities and NaN; and the rationals [Q], an arithmetic without
      rounding.  A result that depends on the arithmetic assumes the
      laws [NumberLaws], each of which is a law of binary64 arithmetic.
    - [haversine] calls [sin], [cos], [sqrt] and [atan2] of the C library,
      which raise [ValueError] ("math domain error") on an infinite
      coordinate and when rounding takes the argument of a square root
      below zero.  It enters the development as a section variable
      [haversine : coord num -> coord num -> option num], [None] being
      that [ValueError].
    - A call either returns, raises, or (for the [while] loops, which are
      run on fuel) has not finished yet: type [outcome].
    - [heapq.heappop] is modelled on the bag of the heap's elements: it
      takes the least one out.  This is what [heapq] does when [<] orders
      the entries totally; entries with a NaN key are outside that
      contract, and the results that depend on the order of the heap
      assume numbers that are not NaN.
    - Files are read outside the model: [load_cities] takes the rows that
      [csv.reader] yields, [load_adjacency] the lines of the file.  A
      string is a sequence of characters with code points below 256;
      [strip] and [split] know the whitespace among them. *)

From Stdlib Require Import PrimFloat.
From Stdlib Require Import QArith Qabs Lqa.
From stdpp Require Import gmap strings list fin_maps.

(** ** Outcomes *)

Inductive exn : Type :=
| KeyError (key : string)
| ValueError.

Inductive outcome (A : Type) : Type :=
| Returned (a : A)
| Raised (e : exn)
| OutOfFuel.
Arguments Returned {A} a.
Arguments Raised {A} e.
Arguments OutOfFuel {A}.

Definition outcome_bind {A B : Type} (f : A → outcome B) (m : outcome A) : outcome B :=
  match m with
  | Returned a => f a
  | Raised e => Raised e
  | OutOfFuel => OutOfFuel
  end.

#[global] Instance outcome_mbind : MBind outcome := @outcome_bind.
#[global] Instance outcome_mret : MRet outcome := @Returned.

(** [for x in items: s = body(s, x)], stopping at the first exception. *)
Fixpoint for_each {A S : Type} (body : S → A → outcome S) (items : list A) (s : S)
  : outcome S :=
  match items with
  | [] => Returned s
  | x :: items' =>
      match body s x with
      | Returned s' => for_each body items' s'
      | Raised e => Raised e
      | OutOfFuel => OutOfFuel
      end
  end.

(** ** Numbers *)

(** The arithmetic that the program uses: [0], [x + y], [x < y] and
    [x == y]. *)
Class Number (num : Type) : Type := {
  num_zero : num;
  num_add : num → num → num;
  num_lt : num → num → bool;
  num_eq : num → num → bool;
}.

(** [x <= y], that is [x < y or x == y]. *)
Definition num_le {num : Type} {N : Number num} (x y : num) : bool :=
  num_lt x y || num_eq x y.

Notation "x ≼ y" := (num_le x y = true) (at level 70).

(** Python's floats: IEEE 754 binary64. *)
#[global] Instance float_number : Number PrimFloat.float := {
  num_zero := 0%float;
  num_add := PrimFloat.add;
  num_lt := PrimFloat.ltb;
  num_eq := PrimFloat.eqb;
}.

(** [x < y] on rationals. *)
Definition Qltb (x y : Q) : bool :=
  match Qcompare x y with Lt => true | _ => false end.

(** Arithmetic without rounding. *)
#[global] Instance Q_number : Number Q := {
  num_zero := 0%Q;
  num_add := Qplus;
  num_lt := Qltb;
  num_eq := Qeq_bool;
}.

(** Laws of the order and of sums of non-negative numbers.  They hold of
    the binary64 numbers: a NaN is in no relation [<=], not even with
    itself; the numbers that are not NaN are totally ordered, equal ones
    not being below one another; the rounded sum of two non-negative
    numbers is not below the first of them; and adding the same
    non-negative number to both sides keeps [<=], rounding being
    monotone. *)
Class NumberLaws (num : Type) {N : Number num} : Prop := {
  num_le_trans (x y z : num) : x ≼ y → y ≼ z → x ≼ z;
  num_le_refl_l (x y : num) : x ≼ y → x ≼ x;
  num_le_refl_r (x y : num) : x ≼ y → y ≼ y;
  num_le_not_lt (x y : num) : x ≼ y → num_lt y x = false;
  num_not_lt_le (x y : num) : x ≼ x → y ≼ y → num_lt y x = false → x ≼ y;
  num_eq_not_lt (x y : num) : num_eq x y = true → num_lt x y = false;
  num_zero_le : num_zero ≼ num_zero;
  num_add_le (x d : num) : num_zero ≼ x → num_zero ≼ d → x ≼ num_add x d;
  num_add_mono (x y d : num) :
    num_zero ≼ x → x ≼ y → num_zero ≼ d → num_add x d ≼ num_add y d;
}.

(** A latitude/longitude pair, as stored by [load_cities]. *)
Definition coord (num : Type) : Type := (num * num)%type.

(** [d[key]]: the value, or [KeyError]. *)
Definition getitem {V : Type} (d : gmap string V) (key : string) : outcome V :=
  match d !! key with
  | Some v => Returned v
  | None => Raised (KeyError key)
  end.

(** [d.get(key, [])]. *)
Definition get_or_empty (d : gmap string (list string)) (key : string) : list string :=
  default [] (d !! key).

(** ** String helpers used by [load_adjacency] *)

(** [str.isspace] on the characters below U+0100: TAB, LF, VT, FF, CR, FS,
    GS, RS, US, the space, NEL (U+0085) and the no-break space (U+00A0). *)
Definition isspace (c : Ascii.ascii) : bool :=
  let n := Ascii.N_of_ascii c in
  (((9 <=? n) && (n <=? 13)) || ((28 <=? n) && (n <=? 32))
   || (n =? 133) || (n =? 160))%N.

Fixpoint lstrip (s : string) : string :=
  match s with
  | EmptyString => EmptyString
  | String c s' => if isspace c then lstrip s' else s
  end.

Definition rstrip (s : string) : string := String.rev (lstrip (String.rev s)).

(** [s.strip()] *)
Definition strip (s : string) : string := rstrip (lstrip s).

(** [split_from word s]: the fields of [s], [word] being the field read so
    far. *)
Fixpoint split_from (word : string) (s : string) : list string :=
  match s with
  | EmptyString => if decide (word = EmptyString) then [] else [word]
  | String c s' =>
      if isspace c then
        if decide (word = EmptyString) then split_from EmptyString s'
        else word :: split_from EmptyString s'
      else split_from (word +:+ String c EmptyString) s'
  end.

(** [s.split()]: maximal runs of non-whitespace characters. *)
Definition split (s : string) : list string := split_from EmptyString s.

(** ** The loaders *)

Section Loaders.

Context {num : Type}.

(** Python's [float(s)]: the number read, or [None] for [ValueError]. *)
Variable float : string → option num.

Definition py_float (s : string) : outcome num :=
  match float s with
  | Some x => Returned x
  | None => Raised ValueError
  end.

(** The body of the [for row in reader] loop of [load_cities]. *)
Definition load_cities_row (cities : gmap string (coord num)) (row : list string)
  : outcome (gmap string (coord num)) :=
  if (length row <? 3)%nat then Returned cities
  else
    match row with
    | [name; lat; lon] =>
        lat' ← py_float lat;
        lon' ← py_float lon;
        Returned (<[name := (lat', lon')]> cities)
    | _ => Raised ValueError
    end.

(** [load_cities], on the rows that [csv.reader] yields for the file. *)
Definition load_cities (rows : list (list string)) : outcome (gmap string (coord num)) :=
  for_each load_cities_row rows ∅.

(** [adjacency_list.setdefault(key, []).append(value)] *)
Definition setdefault_append (key value : string) (adjacency_list : gmap string (list string))
  : gmap string (list string) :=
  <[key := get_or_empty adjacency_list key ++ [value]]> adjacency_list.

(** The body of the [for line in file] loop of [load_adjacency]. *)
Definition load_adjacency_line (adjacency_list : gmap string (list string)) (line : string)
  : outcome (gmap string (list string)) :=
  let parts := split (strip line) in
  if (length parts <? 2)%nat then Returned adjacency_list
  else
    match parts with
    | [city1; city2] =>
        Returned (setdefault_append city2 city1
                    (setdefault_append city1 city2 adjacency_list))
    | _ => Raised ValueError
    end.

(** [load_adjacency], on the lines of the file. *)
Definition load_adjacency (lines : list string) : outcome (gmap string (list string)) :=
  for_each load_adjacency_line lines ∅.

(** *** What the loaders are expected to produce *)

(** A well-formed location row: three fields, the last two numeric. *)
Definition well_formed_row (row : list string) : option (string * coord num) :=
  match row with
  | [name; lat; lon] =>
      match float lat, float lon with
      | Some lat', Some lon' => Some (name, (lat', lon'))
      | _, _ => None
      end
  | _ => None
  end.

(** The coordinates of the last well-formed row called [name]. *)
Fixpoint last_coordinates (name : string) (rows : list (list string))
  : option (coord num) :=
  match rows with
  | [] => None
  | row :: rows' =>
      match last_coordinates name rows' with
      | Some c => Some c
      | None =>
          match well_formed_row row with
          | Some (n, c) => if decide (n = name) then Some c else None
          | None => None
          end
      end
  end.

(** A well-formed adjacency line: exactly two fields. *)
Definition well_formed_line (line : string) : option (string * string) :=
  match split (strip line) with
  | [city1; city2] => Some (city1, city2)
  | _ => None
  end.

(** The neighbours that the lines give to [name], in file order. *)
Fixpoint neighbours_in_file_order (name : string) (lines : list string) : list string :=
  match lines with
  | [] => []
  | line :: lines' =>
      match well_formed_line line with
      | Some (city1, city2) =>
          (if decide (city1 = name) then [city2] else [])
            ++ (if decide (city2 = name) then [city1] else [])
      | None => []
      end ++ neighbours_in_file_order name lines'
  end.

End Loaders.

(** ** Frontier containers *)

(** [stack.pop()]: the last element and the list without it. *)
Fixpoint list_pop {A : Type} (l : list A) : option (A * list A) :=
  match l with
  | [] => None
  | x :: l' =>
      match list_pop l' with
      | None => Some (x, [])
      | Some (y, rest) => Some (y, x :: rest)
      end
  end.

(** [queue.popleft()]: the first element and the list without it. *)
Definition popleft {A : Type} (l : list A) : option (A * list A) :=
  match l with
  | [] => None
  | x :: l' => Some (x, l')
  end.

(** [heapq.heappop]: the least element under [<] and the heap without it.
    The heap is kept as the bag of its elements, [heapq.heappush] adding
    one at the end.  When no key is a NaN the tuples that the searches
    push are totally ordered by [<] up to [==], and the element popped
    does not depend on the layout of the heap array. *)
Fixpoint heappop {A : Type} (lt : A → A → bool) (heap : list A) : option (A * list A) :=
  match heap with
  | [] => None
  | x :: heap' =>
      match heappop lt heap' with
      | None => Some (x, [])
      | Some (m, rest) => if lt m x then Some (m, x :: rest) else Some (x, heap')
      end
  end.

(** Python's [<] on lists of strings. *)
Fixpoint list_compare (l1 l2 : list string) : comparison :=
  match l1, l2 with
  | [], [] => Eq
  | [], _ :: _ => Lt
  | _ :: _, [] => Gt
  | x1 :: l1', x2 :: l2' =>
      match String.compare x1 x2 with
      | Eq => list_compare l1' l2'
      | c => c
      end
  end.

(** Python's [<] on the tuples [(h, city, path)] of [best_first_search]:
    the first components that are not [==] decide. *)
Definition best_first_lt {num : Type} {N : Number num}
    (a b : num * string * list string) : bool :=
  let '(h1, city1, path1) := a in
  let '(h2, city2, path2) := b in
  if num_eq h1 h2 then
    match String.compare city1 city2 with
    | Lt => true
    | Gt => false
    | Eq => match list_compare path1 path2 with Lt => true | _ => false end
    end
  else num_lt h1 h2.

(** Python's [<] on the tuples [(f, city, path, g)] of [a_star_search]. *)
Definition a_star_lt {num : Type} {N : Number num}
    (a b : num * string * list string * num) : bool :=
  let '(f1, city1, path1, g1) := a in
  let '(f2, city2, path2, g2) := b in
  if num_eq f1 f2 then
    match String.compare city1 city2 with
    | Lt => true
    | Gt => false
    | Eq =>
        match list_compare path1 path2 with
        | Lt => true
        | Gt => false
        | Eq => if num_eq g1 g2 then false else num_lt g1 g2
        end
    end
  else num_lt f1 f2.

(** ** The five searches *)

Section Search.

Context {num : Type} {N : Number num}.

(** The great-circle distance in km between two coordinates, or [None]
    when the computation raises [ValueError]. *)
Variable haversine : coord num → coord num → option num.

(** A call [haversine(a, b)]. *)
Definition call_haversine (a b : coord num) : outcome num :=
  match haversine a b with
  | Some d => Returned d
  | None => Raised ValueError
  end.

Fixpoint brute_force_loop (fuel : nat) (goal : string)
    (adjacency_list : gmap string (list string))
    (stack : list (string * list string)) : outcome (option (list string)) :=
  match fuel with
  | O => OutOfFuel
  | S fuel' =>
      match list_pop stack with
      | None => Returned None
      | Some ((city, path), stack) =>
          if decide (city = goal) then Returned (Some path)
          else
            brute_force_loop fuel' goal adjacency_list
              (fold_left
                 (fun stack neighbor =>
                    if decide (neighbor ∈ path) then stack
                    else stack ++ [(neighbor, path ++ [neighbor])])
                 (get_or_empty adjacency_list city) stack)
      end
  end.

Definition brute_force_search (fuel : nat) (start goal : string)
    (adjacency_list : gmap string (list string)) (cities : gmap string (coord num))
  : outcome (option (list string)) :=
  brute_force_loop fuel goal adjacency_list [(start, [start])].

Fixpoint bfs_loop (fuel : nat) (goal : string)
    (adjacency_list : gmap string (list string))
    (queue : list (string * list string)) : outcome (option (list string)) :=
  match fuel with
  | O => OutOfFuel
  | S fuel' =>
      match popleft queue with
      | None => Returned None
      | Some ((city, path), queue) =>
          if decide (city = goal) then Returned (Some path)
          else
            bfs_loop fuel' goal adjacency_list
              (fold_left
                 (fun queue neighbor =>
                    if decide (neighbor ∈ path) then queue
                    else queue ++ [(neighbor, path ++ [neighbor])])
                 (get_or_empty adjacency_list city) queue)
      end
  end.

Definition bfs (fuel : nat) (start goal : string)
    (adjacency_list : gmap string (list string)) : outcome (option (list string)) :=
  bfs_loop fuel goal adjacency_list [(start, [start])].

Fixpoint dfs_loop (fuel : nat) (goal : string)
    (adjacency_list : gmap string (list string))
    (stack : list (string * list string)) : outcome (option (list string)) :=
  match fuel with
  | O => OutOfFuel
  | S fuel' =>
      match list_pop stack with
      | None => Returned None
      | Some ((city, path), stack) =>
          if decide (city = goal) then Returned (Some path)
          else
            dfs_loop fuel' goal adjacency_list
              (fold_left
                 (fun stack neighbor =>
                    if decide (neighbor ∈ path) then stack
                    else stack ++ [(neighbor, path ++ [neighbor])])
                 (get_or_empty adjacency_list city) stack)
      end
  end.

Definition dfs (fuel : nat) (start goal : string)
    (adjacency_list : gmap string (list string)) : outcome (option (list string)) :=
  dfs_loop fuel goal adjacency_list [(start, [start])].

(** The body of the [for neighbor] loop of [best_first_search]. *)
Definition best_first_visit (goal : string) (cities : gmap string (coord num))
    (path : list string) (pq : list (num * string * list string)) (neighbor : string)
  : outcome (list (num * string * list string)) :=
  if decide (neighbor ∈ path) then Returned pq
  else
    c ← getitem cities neighbor;
    c_goal ← getitem cities goal;
    h ← call_haversine c c_goal;
    Returned (pq ++ [(h, neighbor, path ++ [neighbor])]).

Fixpoint best_first_loop (fuel : nat) (goal : string)
    (adjacency_list : gmap string (list string)) (cities : gmap string (coord num))
    (pq : list (num * string * list string)) : outcome (option (list string)) :=
  match fuel with
  | O => OutOfFuel
  | S fuel' =>
      match heappop best_first_lt pq with
      | None => Returned None
      | Some ((_, city, path), pq) =>
          if decide (city = goal) then Returned (Some path)
          else
            pq ← for_each (best_first_visit goal cities path)
                   (get_or_empty adjacency_list city) pq;
            best_first_loop fuel' goal adjacency_list cities pq
      end
  end.

Definition best_first_search (fuel : nat) (start goal : string)
    (adjacency_list : gmap string (list string)) (cities : gmap string (coord num))
  : outcome (option (list string)) :=
  c_start ← getitem cities start;
  c_goal ← getitem cities goal;
  h ← call_haversine c_start c_goal;
  best_first_loop fuel goal adjacency_list cities [(h, start, [start])].

(** The body of the [for neighbor] loop of [a_star_search]; the state is
    the heap and the [visited] dictionary. *)
Definition a_star_visit (goal : string) (cities : gmap string (coord num))
    (city : string) (path : list string) (g : num)
    (state : list (num * string * list string * num) * gmap string num)
    (neighbor : string)
  : outcome (list (num * string * list string * num) * gmap string num) :=
  let '(pq, visited) := state in
  c_city ← getitem cities city;
  c ← getitem cities neighbor;
  d ← call_haversine c_city c;
  let new_g := num_add g d in
  c ← getitem cities neighbor;
  c_goal ← getitem cities goal;
  h ← call_haversine c c_goal;
  let new_f := num_add new_g h in
  if match visited !! neighbor with
     | None => true
     | Some best => num_lt new_g best
     end
  then Returned (pq ++ [(new_f, neighbor, path ++ [neighbor], new_g)],
                 <[neighbor := new_g]> visited)
  else Returned (pq, visited).

Fixpoint a_star_loop (fuel : nat) (goal : string)
    (adjacency_list : gmap string (list string)) (cities : gmap string (coord num))
    (pq : list (num * string * list string * num)) (visited : gmap string num)
  : outcome (option (list string)) :=
  match fuel with
  | O => OutOfFuel
  | S fuel' =>
      match heappop a_star_lt pq with
      | None => Returned None
      | Some ((f, city, path, g), pq) =>
          if decide (city = goal) then Returned (Some path)
          else
            state ← for_each (a_star_visit goal cities city path g)
                      (get_or_empty adjacency_list city) (pq, visited);
            a_star_loop fuel' goal adjacency_list cities state.1 state.2
      end
  end.

Definition a_star_search (fuel : nat) (start goal : string)
    (adjacency_list : gmap string (list string)) (cities : gmap string (coord num))
  : outcome (option (list string)) :=
  a_star_loop fuel goal adjacency_list cities [(num_zero, start, [start], num_zero)] ∅.

(** The [search_methods] table of [main]. *)
Inductive method : Type := BruteForce | BreadthFirst | DepthFirst | BestFirst | AStar.

Definition search_methods (choice : method) (fuel : nat) (start goal : string)
    (adjacency_list : gmap string (list string)) (cities : gmap string (coord num))
  : outcome (option (list string)) :=
  match choice with
  | BruteForce => brute_force_search fuel start goal adjacency_list cities
  | BreadthFirst => bfs fuel start goal adjacency_list
  | DepthFirst => dfs fuel start goal adjacency_list
  | BestFirst => best_first_search fuel start goal adjacency_list cities
  | AStar => a_star_search fuel start goal adjacency_list cities
  end.

(** [sum(haversine(cities[route[i]], cities[route[i+1]]) for i in
    range(len(route)-1))], the running sum being [acc]: the legs are
    added from left to right, starting from 0, one [+] of the arithmetic
    for each, as [sum] does up to CPython 3.11 (from 3.12 on [sum] carries
    a compensation term along a run of floats). *)
Fixpoint sum_legs (cities : gmap string (coord num)) (acc : num) (route : list string)
  : outcome num :=
  match route with
  | a :: (b :: _) as rest =>
      c_a ← getitem cities a;
      c_b ← getitem cities b;
      d ← call_haversine c_a c_b;
      sum_legs cities (num_add acc d) rest
  | _ => Returned acc
  end.

Definition total_distance (cities : gmap string (coord num)) (route : list string)
  : outcome num :=
  sum_legs cities num_zero route.

End Search.

(** ** Routes in the adjacency map *)

(** Consecutive cities of [p] are connected: each one is in the neighbour
    list of the one before it. *)
Fixpoint is_walk (adjacency_list : gmap string (list string)) (p : list string) : Prop :=
  match p with
  | u :: (v :: _) as p' => v ∈ get_or_empty adjacency_list u ∧ is_walk adjacency_list p'
  | _ => True
  end.

Definition route_from_to (adjacency_list : gmap string (list string))
    (start goal : string) (p : list string) : Prop :=
  head p = Some start ∧ last p = Some goal ∧ is_walk adjacency_list p.

Definition simple_route (adjacency_list : gmap string (list string))
    (start goal : string) (p : list string) : Prop :=
  route_from_to adjacency_list start goal p ∧ NoDup p.

(** [goal] can be reached from [start] along edges of the adjacency map. *)
Definition reachable (adjacency_list : gmap string (list string))
    (start goal : string) : Prop :=
  ∃ p, route_from_to adjacency_list start goal p.

Definition edge_count (p : list string) : nat := length p - 1.

(** Every name that a search may look up has coordinates: the goal and
    each city that can be reached from the start. *)
Definition coordinates_known {num : Type} (adjacency_list : gmap string (list string))
    (cities : gmap string (coord num)) (start goal : string) : Prop :=
  is_Some (cities !! goal) ∧
  ∀ city, reachable adjacency_list start city → is_Some (cities !! city).

(** [haversine] returns the distance to the goal of every city that can
    be reached from the start. *)
Definition goal_distances_known {num : Type}
    (haversine : coord num → coord num → option num)
    (adjacency_list : gmap string (list string))
    (cities : gmap string (coord num)) (start goal : string) : Prop :=
  ∀ u c_u c_goal,
    reachable adjacency_list start u →
    cities !! u = Some c_u → cities !! goal = Some c_goal →
    is_Some (haversine c_u c_goal).

(** [haversine] returns the distance between every city that can be
    reached from the start and each of its neighbours. *)
Definition edge_distances_known {num : Type}
    (haversine : coord num → coord num → option num)
    (adjacency_list : gmap string (list string))
    (cities : gmap string (coord num)) (start : string) : Prop :=
  ∀ u v c_u c_v,
    reachable adjacency_list start u → v ∈ get_or_empty adjacency_list u →
    cities !! u = Some c_u → cities !! v = Some c_v →
    is_Some (haversine c_u c_v).

(** The numbers that [haversine] returns on the locations of the map are
    not negative (and not NaN). *)
Definition haversine_nonneg {num : Type} {N : Number num}
    (haversine : coord num → coord num → option num)
    (cities : gmap string (coord num)) : Prop :=
  ∀ u v c_u c_v d,
    cities !! u = Some c_u → cities !! v = Some c_v →
    haversine c_u c_v = Some d → num_zero ≼ d.

(** The searches that read coordinates. *)
Definition uses_coordinates (choice : method) : bool :=
  match choice with
  | BestFirst | AStar => true
  | _ => false
  end.

(** What the search chosen needs to run without an exception and to
    finish: for [best_first_search] the coordinates and the distances to
    the goal; for [a_star_search] also the distances of the edges, and,
    its loop ending because costs grow along a path, that the distances
    are not negative. *)
Definition search_ready {num : Type} {N : Number num}
    (haversine : coord num → coord num → option num) (choice : method)
    (adjacency_list : gmap string (list string))
    (cities : gmap string (coord num)) (start goal : string) : Prop :=
  match choice with
  | BestFirst =>
      coordinates_known adjacency_list cities start goal ∧
      goal_distances_known haversine adjacency_list cities start goal
  | AStar =>
      coordinates_known adjacency_list cities start goal ∧
      goal_distances_known haversine adjacency_list cities start goal ∧
      edge_distances_known haversine adjacency_list cities start ∧
      haversine_nonneg haversine cities
  | _ => True
  end.

(** The exception [e] comes from a lookup of coordinates or from a call
    of [haversine] that a search makes: a [KeyError] for the goal or a
    city that can be reached from the start, or the [ValueError] of
    [haversine] on such a city paired with the goal or with one of its
    neighbours. *)
Definition search_failure {num : Type}
    (haversine : coord num → coord num → option num)
    (adjacency_list : gmap string (list string))
    (cities : gmap string (coord num)) (start goal : string) (e : exn) : Prop :=
  (∃ key, e = KeyError key ∧ cities !! key = None ∧
          (key = goal ∨ reachable adjacency_list start key)) ∨
  (e = ValueError ∧
   ∃ u v c_u c_v,
     reachable adjacency_list start u ∧
     (v = goal ∨ v ∈ get_or_empty adjacency_list u) ∧
     cities !! u = Some c_u ∧ cities !! v = Some c_v ∧ haversine c_u c_v = None).

(** A sample distance for running the searches in exact arithmetic: the
    taxicab distance on the coordinate plane. *)
Definition taxicab_value (a b : coord Q) : Q :=
  (Qabs (a.1 - b.1) + Qabs (a.2 - b.2))%Q.

Definition taxicab (a b : coord Q) : option Q := Some (taxicab_value a b).


(** ** Exploration of simple paths *)

(** The entries that expanding [path] adds to the frontier: one for each
    neighbour that is not yet on the path, in the order of the neighbour
    list. *)
Definition children (path : list string) (neighbors : list string)
  : list (string * list string) :=
  (λ neighbor, (neighbor, path ++ [neighbor])) <$> filter (λ neighbor, neighbor ∉ path) neighbors.

(** What the four searches with the per-path membership test have in
    common: they take some entry off the frontier, stop when its city is
    the goal, and add its children otherwise.  They differ in which entry
    they take. *)
Inductive explores (adjacency_list : gmap string (list string)) (goal : string)
  : list (string * list string) → option (list string) → Prop :=
| explores_empty : explores adjacency_list goal [] None
| explores_found frontier path rest :
    frontier ≡ₚ (goal, path) :: rest →
    explores adjacency_list goal frontier (Some path)
| explores_step frontier city path rest result :
    frontier ≡ₚ (city, path) :: rest →
    city ≠ goal →
    explores adjacency_list goal
      (rest ++ children path (get_or_empty adjacency_list city)) result →
    explores adjacency_list goal frontier result.

(** The frontier entry [(city, path)] is sound: [path] is a simple route
    from [start] to [city]. *)
Definition sound_entry (adjacency_list : gmap string (list string)) (start : string)
    (entry : string * list string) : Prop :=
  simple_route adjacency_list start entry.1 entry.2.

(** The [(city, path)] part of the heap entries. *)
Definition best_first_entry {num : Type} (e : num * string * list string)
  : string * list string :=
  (e.1.2, e.2).

Definition a_star_entry {num : Type} (e : num * string * list string * num)
  : string * list string :=
  (e.1.1.2, e.1.2).

(** ** Fuel *)

(** Every city that can occur on a path from [start]. *)
Definition universe (adjacency_list : gmap string (list string)) (start : string)
  : list string :=
  start :: concat ((map_to_list adjacency_list).*2).

(** The number of loop iterations that a frontier entry with this path
    can still cause, when paths have at most [bound] cities and an
    expansion adds at most [bound] entries. *)
Definition weight (bound : nat) (path : list string) : nat :=
  S bound ^ (bound - length path).

Fixpoint frontier_weight (bound : nat) (frontier : list (string * list string)) : nat :=
  match frontier with
  | [] => 0
  | entry :: frontier' => weight bound entry.2 + frontier_weight bound frontier'
  end.

(** Fuel on which each search finishes. *)
Definition enough_fuel (adjacency_list : gmap string (list string)) (start : string)
  : nat :=
  let bound := S (length (universe adjacency_list start)) in
  S (weight bound [start]).

(** ** The queue of [bfs] *)

(** The queue holds paths of [n] cities followed by paths of [S n]
    cities. *)
Definition level_ordered (n : nat) (queue : list (string * list string)) : Prop :=
  ∃ q1 q2, queue = q1 ++ q2 ∧
           Forall (λ entry, length entry.2 = n) q1 ∧
           Forall (λ entry, length entry.2 = S n) q2.

(** ** The state of [a_star_search] *)

Section AStarState.

Context {num : Type} {N : Number num}.
Variable haversine : coord num → coord num → option num.
Variable adjacency_list : gmap string (list string).
Variable cities : gmap string (coord num).
Variables start goal : string.

(** The distance between two named cities; 0 when one of them has no
    coordinates or [haversine] fails on them. *)
Definition name_distance (u v : string) : num :=
  match cities !! u, cities !! v with
  | Some a, Some b => default num_zero (haversine a b)
  | _, _ => num_zero
  end.

(** [haversine(cities[u], cities[v])] returns. *)
Definition distance_defined (u v : string) : Prop :=
  ∃ a b d, cities !! u = Some a ∧ cities !! v = Some b ∧ haversine a b = Some d.

(** [haversine] returns on every leg of the route. *)
Fixpoint legs_defined (route : list string) : Prop :=
  match route with
  | a :: (b :: _) as rest => distance_defined a b ∧ legs_defined rest
  | _ => True
  end.

(** The length of a route, summed from its first leg on. *)
Fixpoint route_length (acc : num) (route : list string) : num :=
  match route with
  | a :: (b :: _) as rest => route_length (num_add acc (name_distance a b)) rest
  | _ => acc
  end.

(** The heap entry that expanding [(city, path, g)] makes for the
    neighbour [w]. *)
Definition a_star_child (city : string) (path : list string) (g : num) (w : string)
  : num * string * list string * num :=
  (num_add (num_add g (name_distance city w)) (name_distance w goal), w, path ++ [w],
   num_add g (name_distance city w)).

(** The best known costs are numbers that are not negative. *)
Definition visited_valid (visited : gmap string num) : Prop :=
  ∀ v best, visited !! v = Some best → num_zero ≼ best.

(** Best known costs only go down. *)
Definition visited_le (visited visited' : gmap string num) : Prop :=
  ∀ v best, visited !! v = Some best →
            ∃ best', visited' !! v = Some best' ∧ best' ≼ best.

(** What one run of the [for neighbor] loop does to the heap and to
    [visited]: it pushes the children of some of the neighbours, [ws]. *)
Definition a_star_expansion (city : string) (path : list string) (g : num)
    (neighbors : list string)
    (pq : list (num * string * list string * num)) (visited : gmap string num)
    (pq' : list (num * string * list string * num)) (visited' : gmap string num) : Prop :=
  ∃ ws,
    pq' = pq ++ (a_star_child city path g <$> ws) ∧
    length ws ≤ length neighbors ∧
    (∀ w, w ∈ ws → w ∈ neighbors ∧
                   ∀ best, visited !! w = Some best →
                           num_lt (num_add g (name_distance city w)) best = true) ∧
    visited_valid visited' ∧
    visited_le visited visited' ∧
    (∀ w, w ∈ neighbors →
          distance_defined city w ∧ distance_defined w goal ∧
          ∃ best, visited' !! w = Some best ∧ best ≼ num_add g (name_distance city w)) ∧
    (∀ v best, visited' !! v = Some best →
               visited !! v = Some best ∨
               (v ∈ ws ∧ best = num_add g (name_distance city v))).

(** A heap entry is a route from [start] and its [g] is the sum of the
    legs of the route, as [main] computes it. *)
Definition a_star_entry_route (e : num * string * list string * num) : Prop :=
  let '(f, city, path, g) := e in
  route_from_to adjacency_list start city path ∧
  sum_legs haversine cities num_zero path = Returned g.

(** A heap entry is a route from [start], its [g] is the length of the
    route, a number that is not negative, and its [f] is not below
    [g]. *)
Definition a_star_entry_ok (e : num * string * list string * num) : Prop :=
  let '(f, city, path, g) := e in
  route_from_to adjacency_list start city path ∧
  sum_legs haversine cities num_zero path = Returned g ∧
  num_zero ≼ g ∧ g ≼ f.

(** After the first iteration: the path of an entry repeats no city,
    except that it may end by coming back to [start]; and every other
    city on it is known to [visited] at a cost no more than [g]. *)
Definition a_star_entry_closed (visited : gmap string num)
    (e : num * string * list string * num) : Prop :=
  let '(f, city, path, g) := e in
  (∃ pre, path = pre ++ [city] ∧ NoDup pre ∧ (city ∈ pre → city = start)) ∧
  (∀ v, v ∈ path → v ≠ start →
        ∃ best, visited !! v = Some best ∧ best ≼ g).

(** After the first iteration, the neighbours of [start] are known at
    a cost no more than their distance from [start]. *)
Definition start_closed (visited : gmap string num) : Prop :=
  start ≠ goal ∧
  ∀ w, w ∈ get_or_empty adjacency_list start →
       ∃ best, visited !! w = Some best ∧
               best ≼ num_add num_zero (name_distance start w).

Definition a_star_invariant (pq : list (num * string * list string * num))
    (visited : gmap string num) : Prop :=
  Forall a_star_entry_ok pq ∧
  visited_valid visited ∧
  ((pq = [(num_zero, start, [start], num_zero)] ∧ visited = ∅) ∨
   (start_closed visited ∧ Forall (a_star_entry_closed visited) pq)).

(** *** The state, for the length of the route returned *)

(** The [f] of a heap entry is at most its [g] plus the distance from
    its city to the goal. *)
Definition a_star_entry_bound (e : num * string * list string * num) : Prop :=
  let '(f, city, path, g) := e in
  distance_defined city goal → f ≼ num_add g (name_distance city goal).

(** A city known to [visited] at cost [best] either still has a heap
    entry that cheap, or has been expanded from one: then its neighbours
    are known, each at the cost of going through it. *)
Definition visited_closed (pq : list (num * string * list string * num))
    (visited : gmap string num) : Prop :=
  ∀ v best, visited !! v = Some best →
    (∃ e, e ∈ pq ∧ e.1.1.2 = v ∧ e.2 ≼ best) ∨
    (v ≠ goal ∧
     ∀ w, w ∈ get_or_empty adjacency_list v →
          ∃ best_w, visited !! w = Some best_w ∧
                    best_w ≼ num_add best (name_distance v w)).

Definition shortest_invariant (pq : list (num * string * list string * num))
    (visited : gmap string num) : Prop :=
  a_star_invariant pq visited ∧ visited_closed pq visited ∧
  Forall a_star_entry_bound pq.

(** Some beginning of the route [p] has a heap entry that is no longer
    than it. *)
Definition route_on_heap (p : list string) (pq : list (num * string * list string * num))
  : Prop :=
  ∃ p1 e, p1 `prefix_of` p ∧ e ∈ pq ∧ last p1 = Some e.1.1.2 ∧
          e.2 ≼ route_length num_zero p1.

(** The straight-line distance to the goal is consistent with the
    distances of the edges, in the arithmetic of the program: going to a
    neighbour does not lower [g + h], whatever the cost [g] so far, and at
    the goal [h] adds nothing. *)
Definition heuristic_consistent : Prop :=
  (∀ u w g,
     w ∈ get_or_empty adjacency_list u →
     distance_defined u goal → distance_defined u w → distance_defined w goal →
     num_zero ≼ g →
     num_add g (name_distance u goal)
     ≼ num_add (num_add g (name_distance u w)) (name_distance w goal)) ∧
  (∀ g, distance_defined goal goal → num_zero ≼ g →
        num_add g (name_distance goal goal) ≼ g).

End AStarState.

(** ** Sample data *)

(** The example of the specification: three cities on a line, with the
    edges X - Y and Y - Z. *)
Definition sample_cities : gmap string (coord Q) :=
  <["X" := (0, 0)%Q]> (<["Y" := (0, 1)%Q]> (<["Z" := (0, 2)%Q]> ∅)).

Definition sample_adjacency : gmap string (list string) :=
  <["X" := ["Y"]]> (<["Y" := ["X"; "Z"]]> (<["Z" := ["Y"]]> ∅)).

(** A city with coordinates and no road. *)
Definition island_cities : gmap string (coord Q) := <["W" := (5, 5)%Q]> sample_cities.

(** A reader of unsigned decimal integers, to stand for [float]. *)
Fixpoint digits_value (acc : N) (s : string) : option N :=
  match s with
  | EmptyString => Some acc
  | String c s' =>
      let n := Ascii.N_of_ascii c in
      if ((48 <=? n) && (n <=? 57))%N then digits_value (10 * acc + (n - 48))%N s'
      else None
  end.

Definition sample_float (s : string) : option Q :=
  match s with
  | EmptyString => None
  | _ => (λ n, inject_Z (Z.of_N n)) <$> digits_value 0%N s
  end.

(** A map on which the location of Y is missing. *)
Definition partial_cities : gmap string (coord Q) :=
  <["X" := (0, 0)%Q]> (<["W" := (5, 5)%Q]> ∅).

(** Three cities joined pairwise, as read from the lines "X Z", "X Y",
    "Y Z". *)
Definition triangle_adjacency : gmap string (list string) :=
  <["X" := ["Z"; "Y"]]> (<["Z" := ["X"; "Y"]]> (<["Y" := ["X"; "Z"]]> ∅)).

(** Two routes from S to G: through A, which lies nearer to G but off the
    line, and through B, which lies on the line. *)
Definition detour_cities : gmap string (coord Q) :=
  <["S" := (0, 0)%Q]> (<["G" := (10, 0)%Q]> (<["A" := (8, 5)%Q]> (<["B" := (2, 0)%Q]> ∅))).

Definition detour_adjacency : gmap string (list string) :=
  <["S" := ["A"; "B"]]> (<["A" := ["S"; "G"]]>
    (<["B" := ["S"; "G"]]> (<["G" := ["A"; "B"]]> ∅))).

(** ** Names read from the adjacency file *)

(** No character of [s] is whitespace. *)
Fixpoint no_space (s : string) : bool :=
  match s with
  | EmptyString => true
  | String c s' => negb (isspace c) && no_space s'
  end.

(** A field as [split] yields them: not empty and free of whitespace. *)
Definition is_field (s : string) : Prop := s ≠ EmptyString ∧ no_space s = true.

(** A row that [load_cities] gets past: too short to be read, or
    well-formed. *)
Definition passable_row {num : Type} (float : string → option num) (row : list string)
  : Prop :=
  length row < 3 ∨ is_Some (well_formed_row float row).

(** ** One request of [main] *)

(** What [main] prints for a start, a goal and a search method. *)
Inductive answer (num : Type) : Type :=
| InvalidCityNames
| RouteFound (route : list string) (total : num)
| NoRouteFound.
Arguments InvalidCityNames {num}.
Arguments RouteFound {num} route total.
Arguments NoRouteFound {num}.

Section Request.

Context {num : Type} {N : Number num}.
Variable haversine : coord num → coord num → option num.

(** The body of the loops of [main] without its prompts and its clock,
    for a start that is not the word "list" and a choice among the five
    of the menu: the check of the two names, the call of the search
    chosen, and the report of the route with its total distance. *)
Definition request (choice : method) (fuel : nat) (start goal : string)
    (adjacency_list : gmap string (list string)) (cities : gmap string (coord num))
  : outcome (answer num) :=
  if decide (cities !! start = None ∨ cities !! goal = None) then Returned InvalidCityNames
  else
    route ← search_methods haversine choice fuel start goal adjacency_list cities;
    match route with
    | Some (city :: route') =>
        total ← total_distance haversine cities (city :: route');
        Returned (RouteFound (city :: route') total)
    | _ => Returned NoRouteFound
    end.

End Request.

(** The sample map with the location of Y missing. *)
Definition endpoint_cities : gmap string (coord Q) :=
  <["X" := (0, 0)%Q]> (<["Z" := (0, 2)%Q]> ∅).

(** ** Sample data in binary64 arithmetic *)

(** A stand-in for [haversine] on a few points: the table gives, for a
    pair of coordinates, what [haversine] computes on it in binary64
    arithmetic, [None] being [ValueError]. *)
Fixpoint tabulated (table : list (coord float * coord float * option float))
    (a b : coord float) : option float :=
  match table with
  | [] => None
  | (a', b', d) :: table' =>
      if (PrimFloat.eqb a'.1 a.1 && PrimFloat.eqb a'.2 a.2
          && PrimFloat.eqb b'.1 b.1 && PrimFloat.eqb b'.2 b.2)%bool
      then d
      else tabulated table' a b
  end.

(** Five cities on the equator, at 0, 1, 2, 3 and 17 degrees east, with
    the roads S - D - G and S - B - E - G. *)
Definition equator_cities : gmap string (coord float) :=
  <["S" := (0, 0)%float]> (<["D" := (0, 1)%float]> (<["B" := (0, 2)%float]>
    (<["E" := (0, 3)%float]> (<["G" := (0, 17)%float]> ∅)))).

Definition equator_adjacency : gmap string (list string) :=
  <["S" := ["D"; "B"]]> (<["D" := ["S"; "G"]]> (<["G" := ["D"; "E"]]>
    (<["B" := ["S"; "E"]]> (<["E" := ["B"; "G"]]> ∅)))).

(** The distance in km between the points of the equator at [lon1] and
    [lon2] degrees east, as [haversine] computes it. *)
Definition equator_distances : list (coord float * coord float * option float) :=
  (λ row : float * float * float, ((0%float, row.1.1), (0%float, row.1.2), Some row.2)) <$>
  [ (0, 0, 0); (1, 1, 0); (2, 2, 0); (3, 3, 0); (17, 17, 0);
    (0, 1, 0x1.bcc79ad9adfecp+6); (1, 0, 0x1.bcc79ad9adfecp+6);
    (0, 2, 0x1.bcc79ad9adfecp+7); (2, 0, 0x1.bcc79ad9adfecp+7);
    (0, 3, 0x1.4d95b423427f1p+8); (3, 0, 0x1.4d95b423427f1p+8);
    (0, 17, 0x1.d894148748decp+10); (17, 0, 0x1.d894148748decp+10);
    (1, 2, 0x1.bcc79ad9adfecp+6); (2, 1, 0x1.bcc79ad9adfecp+6);
    (1, 3, 0x1.bcc79ad9adfeep+7); (3, 1, 0x1.bcc79ad9adfeep+7);
    (1, 17, 0x1.bcc79ad9adfecp+10); (17, 1, 0x1.bcc79ad9adfecp+10);
    (2, 3, 0x1.bcc79ad9adfeep+6); (3, 2, 0x1.bcc79ad9adfeep+6);
    (2, 17, 0x1.a0fb212c131eep+10); (17, 2, 0x1.a0fb212c131eep+10);
    (3, 17, 0x1.852ea77e783eep+10); (17, 3, 0x1.852ea77e783eep+10) ]%float.

(** Two cities that lie opposite each other on the globe, P at 82 degrees
    north, 0 degrees east and Q at 82 degrees south, 180 degrees east,
    and a third, O, at 0 degrees north, 0 degrees east.  Between P and Q
    rounding takes [a] to 1.0000000000000002, and [sqrt(1 - a)] raises
    [ValueError]. *)
Definition antipodal_cities : gmap string (coord float) :=
  <["P" := (82, 0)%float]> (<["Q" := (-82, 180)%float]> (<["O" := (0, 0)%float]> ∅)).

(** The adjacency map read from the line "P Q". *)
Definition antipodal_adjacency : gmap string (list string) :=
  <["P" := ["Q"]]> (<["Q" := ["P"]]> ∅).

Definition antipodal_distances : list (coord float * coord float * option float) :=
  [ ((82, 0), (82, 0), Some 0); ((-82, 180), (-82, 180), Some 0);
    ((0, 0), (0, 0), Some 0);
    ((82, 0), (-82, 180), None); ((-82, 180), (82, 0), None);
    ((82, 0), (0, 0), Some 0x1.1cefdf3373773p+13);
    ((0, 0), (82, 0), Some 0x1.1cefdf3373773p+13);
    ((-82, 180), (0, 0), Some 0x1.5488d28ea9371p+13);
    ((0, 0), (-82, 180), Some 0x1.5488d28ea9371p+13) ]%float.

(** A city whose latitude was read from the text "inf": [cos] raises
    [ValueError] on it. *)
Definition infinite_cities : gmap string (coord float) :=
  <["A" := (infinity, 0%float)]> ∅.

Definition infinite_distances : list (coord float * coord float * option float) :=
  [ ((infinity, 0%float), (infinity, 0%float), None) ].
(** * Properties of the loaders *)

Section LoaderProperties.

Context {num : Type}.
Variable float : string → option num.

Lemma load_cities_row_returned cities row cities' :
  load_cities_row float cities row = Returned cities' →
  match well_formed_row float row with
  | Some (name, c) => cities' = <[name := c]> cities
  | None => cities' = cities
  end.
Proof.
  unfold load_cities_row, well_formed_row, py_float.
  destruct row as [|name [|lat [|lon [|extra row]]]]; simpl; try congruence.
  unfold mbind, outcome_mbind; simpl.
  destruct (float lat); simpl; [|discriminate].
  destruct (float lon); simpl; [|discriminate].
  by intros [= <-].
Qed.

Lemma load_cities_from cities0 rows cities name :
  for_each (load_cities_row float) rows cities0 = Returned cities →
  cities !! name =
    match last_coordinates float name rows with
    | Some c => Some c
    | None => cities0 !! name
    end.
Proof.
  revert cities0. induction rows as [|row rows IH]; intros cities0 Hrun; simpl in *.
  - congruence.
  - destruct (load_cities_row float cities0 row) as [cities1| |] eqn:Hrow; try discriminate.
    apply load_cities_row_returned in Hrow.
    rewrite (IH _ Hrun).
    destruct (last_coordinates float name rows); [reflexivity|].
    destruct (well_formed_row float row) as [[n c]|]; subst cities1; [|reflexivity].
    destruct (decide (n = name)) as [->|Hne].
    + by rewrite lookup_insert_eq.
    + by rewrite lookup_insert_ne.
Qed.

Lemma last_coordinates_Some name rows :
  is_Some (last_coordinates float name rows) ↔
  ∃ row c, row ∈ rows ∧ well_formed_row float row = Some (name, c).
Proof.
  induction rows as [|row rows IH]; simpl.
  - split; [intros [c Hc]; discriminate|].
    intros (row & c & Hin & _). by apply not_elem_of_nil in Hin.
  - split.
    + destruct (last_coordinates float name rows) as [c|] eqn:Hlast.
      * intros _. destruct (proj1 IH) as (row' & c' & Hin & Hwf); [eauto|].
        exists row', c'. split; [by apply list_elem_of_further | done].
      * destruct (well_formed_row float row) as [[n c]|] eqn:Hwf;
          [|intros [? ?]; discriminate].
        destruct (decide (n = name)) as [->|]; [|intros [? ?]; discriminate].
        intros _. exists row, c. split; [apply list_elem_of_here | done].
    + intros (row' & c' & Hin & Hwf).
      destruct (last_coordinates float name rows) as [c|] eqn:Hlast; [eauto|].
      apply elem_of_cons in Hin as [->|Hin].
      * rewrite Hwf. rewrite decide_True by done. eauto.
      * destruct (proj2 IH) as [c Hc]; [eauto | discriminate].
Qed.

(** C10: when several well-formed rows carry the same name,
    [load_cities] binds the name to the coordinates of the last of them,
    and the names of the returned map are exactly the names of the
    well-formed rows. *)
Theorem load_cities_last_row_wins rows cities :
  load_cities float rows = Returned cities →
  (∀ name, cities !! name = last_coordinates float name rows) ∧
  (∀ name, is_Some (cities !! name) ↔
           ∃ row c, row ∈ rows ∧ well_formed_row float row = Some (name, c)).
Proof.
  intros Hrun.
  assert (Hall : ∀ name, cities !! name = last_coordinates float name rows).
  { intros name. rewrite (load_cities_from _ _ _ name Hrun).
    rewrite lookup_empty. by destruct (last_coordinates float name rows). }
  split; [exact Hall|].
  intros name. rewrite Hall. apply last_coordinates_Some.
Qed.

Lemma load_adjacency_line_returned adjacency_list line adjacency_list' :
  load_adjacency_line adjacency_list line = Returned adjacency_list' →
  match well_formed_line line with
  | Some (city1, city2) =>
      adjacency_list' =
        setdefault_append city2 city1 (setdefault_append city1 city2 adjacency_list)
  | None => adjacency_list' = adjacency_list
  end.
Proof.
  unfold load_adjacency_line, well_formed_line.
  destruct (split (strip line)) as [|city1 [|city2 [|extra parts]]]; simpl; congruence.
Qed.

Lemma get_setdefault_append key value adjacency_list name :
  get_or_empty (setdefault_append key value adjacency_list) name =
    get_or_empty adjacency_list name ++ (if decide (key = name) then [value] else []).
Proof.
  unfold setdefault_append, get_or_empty.
  destruct (decide (key = name)) as [->|Hne].
  - by rewrite lookup_insert_eq.
  - rewrite lookup_insert_ne by done. by rewrite app_nil_r.
Qed.

Lemma load_adjacency_from adjacency_list0 lines adjacency_list name :
  for_each load_adjacency_line lines adjacency_list0 = Returned adjacency_list →
  get_or_empty adjacency_list name =
    get_or_empty adjacency_list0 name ++ neighbours_in_file_order name lines.
Proof.
  revert adjacency_list0.
  induction lines as [|line lines IH]; intros adjacency_list0 Hrun; simpl in *.
  - injection Hrun as <-. by rewrite app_nil_r.
  - destruct (load_adjacency_line adjacency_list0 line) as [adjacency_list1| |] eqn:Hline;
      try discriminate.
    apply load_adjacency_line_returned in Hline.
    rewrite (IH _ Hrun).
    destruct (well_formed_line line) as [[city1 city2]|]; subst adjacency_list1.
    + rewrite !get_setdefault_append. by rewrite <- !app_assoc.
    + reflexivity.
Qed.

Lemma neighbours_in_file_order_elem name lines line city1 city2 :
  line ∈ lines → well_formed_line line = Some (city1, city2) →
  (city1 = name → city2 ∈ neighbours_in_file_order name lines) ∧
  (city2 = name → city1 ∈ neighbours_in_file_order name lines).
Proof.
  intros Hin Hwf. induction lines as [|line' lines IH]; [by apply not_elem_of_nil in Hin|].
  simpl. apply elem_of_cons in Hin as [<-|Hin].
  - rewrite Hwf. split; intros ->.
    + rewrite decide_True by done.
      apply elem_of_app; left. apply elem_of_app; left. apply list_elem_of_here.
    + rewrite (decide_True (P := name = name)) by done.
      apply elem_of_app; left. apply elem_of_app; right. apply list_elem_of_here.
  - destruct (IH Hin) as [IH1 IH2].
    split; intros Heq; apply elem_of_app; right; auto.
Qed.

(** C8: in the map that [load_adjacency] returns, the neighbour list of
    every name is made of the partners that the two-field lines give it,
    in file order; so a line "A B" puts B in the list of A and A in the
    list of B. *)
Theorem load_adjacency_both_directions lines adjacency_list :
  load_adjacency lines = Returned adjacency_list →
  (∀ name, get_or_empty adjacency_list name = neighbours_in_file_order name lines) ∧
  (∀ line city1 city2,
      line ∈ lines → split (strip line) = [city1; city2] →
      city2 ∈ get_or_empty adjacency_list city1 ∧
      city1 ∈ get_or_empty adjacency_list city2).
Proof.
  intros Hrun.
  assert (Hall : ∀ name,
             get_or_empty adjacency_list name = neighbours_in_file_order name lines).
  { intros name. rewrite (load_adjacency_from _ _ _ name Hrun).
    unfold get_or_empty at 1. by rewrite lookup_empty. }
  split; [exact Hall|].
  intros line city1 city2 Hin Hparts.
  assert (Hwf : well_formed_line line = Some (city1, city2)).
  { unfold well_formed_line. by rewrite Hparts. }
  rewrite !Hall. split.
  - by apply (neighbours_in_file_order_elem city1 lines line city1 city2).
  - by apply (neighbours_in_file_order_elem city2 lines line city1 city2).
Qed.

(** A location row whose latitude is not a number is not dropped
    either: [float] raises [ValueError]. *)
Lemma load_cities_not_a_number (name lat lon : string) :
  float lat = None → load_cities float [[name; lat; lon]] = Raised ValueError.
Proof.
  intros Hlat. unfold load_cities; simpl.
  unfold load_cities_row, py_float; simpl. by rewrite Hlat.
Qed.

(** C5: a record with a field too many is not dropped: unpacking it
    raises [ValueError], in [load_cities] and in [load_adjacency]. *)
Theorem malformed_records_raise :
  load_cities float [["A"; "1"; "2"; "3"]] = Raised ValueError ∧
  load_adjacency ["A B C"] = Raised ValueError.
Proof.
  split; reflexivity.
Qed.

End LoaderProperties.

(** * Properties of the frontier containers *)

Lemma list_pop_snoc {A : Type} (l : list A) (x : A) : list_pop (l ++ [x]) = Some (x, l).
Proof.
  induction l as [|y l IH]; simpl; [reflexivity|]. by rewrite IH.
Qed.

Lemma list_pop_Some {A : Type} (l rest : list A) (x : A) :
  list_pop l = Some (x, rest) → l = rest ++ [x].
Proof.
  revert rest. induction l as [|y l IH]; intros rest; simpl; [discriminate|].
  destruct (list_pop l) as [[z rest']|] eqn:Hpop.
  - intros [= -> <-]. simpl. f_equal. by apply IH.
  - intros [= -> <-]. destruct l as [|y' l]; [reflexivity|].
    simpl in Hpop. destruct (list_pop l) as [[? ?]|]; discriminate.
Qed.

Lemma list_pop_None {A : Type} (l : list A) : list_pop l = None → l = [].
Proof.
  destruct l as [|y l]; simpl; [done|]. destruct (list_pop l) as [[? ?]|]; discriminate.
Qed.

Lemma heappop_None {A : Type} (lt : A → A → bool) (heap : list A) :
  heappop lt heap = None → heap = [].
Proof.
  destruct heap as [|x heap]; simpl; [done|].
  destruct (heappop lt heap) as [[m rest]|]; [destruct (lt m x)|]; discriminate.
Qed.

Lemma heappop_Permutation {A : Type} (lt : A → A → bool) (heap rest : list A) (m : A) :
  heappop lt heap = Some (m, rest) → heap ≡ₚ m :: rest.
Proof.
  revert m rest. induction heap as [|x heap IH]; intros m rest; simpl; [discriminate|].
  destruct (heappop lt heap) as [[m' rest']|] eqn:Hpop.
  - destruct (lt m' x); intros [= <- <-]; [|reflexivity].
    rewrite (IH _ _ eq_refl). apply Permutation_swap.
  - intros [= <- <-]. apply heappop_None in Hpop. by subst heap.
Qed.

(** The element popped is least for any key that [lt] refines on the
    elements of the heap. *)
Lemma heappop_least {A K : Type} (lt : A → A → bool) (key : A → K) (le : K → K → Prop)
    (heap rest : list A) (m : A) :
  (∀ x y z, le x y → le y z → le x z) →
  (∀ a b, a ∈ heap → b ∈ heap →
          if lt a b then le (key a) (key b) else le (key b) (key a)) →
  heappop lt heap = Some (m, rest) →
  ∀ a, a ∈ rest → le (key m) (key a).
Proof.
  intros Htrans. revert m rest.
  induction heap as [|x heap IH]; intros m rest Hlt; simpl; [discriminate|].
  destruct (heappop lt heap) as [[m' rest']|] eqn:Hpop.
  - assert (IH' : ∀ a, a ∈ rest' → le (key m') (key a)).
    { apply IH; [|done]. intros a b Ha Hb.
      apply Hlt; by apply list_elem_of_further. }
    apply heappop_Permutation in Hpop.
    assert (Hm' : m' ∈ x :: heap).
    { apply list_elem_of_further. rewrite Hpop. apply list_elem_of_here. }
    pose proof (Hlt m' x Hm' (list_elem_of_here _ _)) as Hcmp.
    destruct (lt m' x); intros [= <- <-] a Ha.
    + apply elem_of_cons in Ha as [->|Ha]; [done | by apply IH'].
    + rewrite Hpop in Ha.
      apply elem_of_cons in Ha as [->|Ha]; [done|].
      eapply Htrans; [exact Hcmp | by apply IH'].
  - intros [= <- <-] a Ha. by apply not_elem_of_nil in Ha.
Qed.

(** * Routes *)

Section Routes.

Variable adjacency_list : gmap string (list string).

Lemma is_walk_snoc (p : list string) (u v : string) :
  is_walk adjacency_list p → last p = Some u → v ∈ get_or_empty adjacency_list u →
  is_walk adjacency_list (p ++ [v]).
Proof.
  induction p as [|a [|b p] IH]; simpl; intros Hwalk Hlast Hadj.
  - discriminate.
  - injection Hlast as ->. done.
  - destruct Hwalk as [Hab Hwalk]. split; [done|]. by apply IH.
Qed.

Lemma is_walk_app_l (p q : list string) :
  is_walk adjacency_list (p ++ q) → is_walk adjacency_list p.
Proof.
  induction p as [|a [|b p] IH]; simpl; [done..|].
  intros [Hab Hwalk]. split; [done|]. by apply IH.
Qed.

Lemma is_walk_app_r (p q : list string) :
  is_walk adjacency_list (p ++ q) → is_walk adjacency_list q.
Proof.
  induction p as [|a [|b p] IH]; simpl; [done| |].
  - destruct q; [done|]. by intros [_ ?].
  - intros [_ Hwalk]. by apply IH.
Qed.

Lemma is_walk_link (p q : list string) (u v : string) :
  is_walk adjacency_list (p ++ u :: v :: q) → v ∈ get_or_empty adjacency_list u.
Proof.
  intros Hwalk. apply is_walk_app_r in Hwalk. by destruct Hwalk.
Qed.

Lemma neighbor_in_universe (start u v : string) :
  v ∈ get_or_empty adjacency_list u → v ∈ universe adjacency_list start.
Proof.
  unfold get_or_empty, universe. intros Huv. apply list_elem_of_further.
  destruct (adjacency_list !! u) as [neighbors|] eqn:Hlookup;
    [|by apply not_elem_of_nil in Huv].
  apply elem_of_map_to_list in Hlookup.
  induction (map_to_list adjacency_list) as [|[k l] m IHm];
    [by apply not_elem_of_nil in Hlookup|].
  simpl. apply elem_of_app.
  apply elem_of_cons in Hlookup as [[= <- <-]|Hin]; [by left | right; auto].
Qed.

Lemma is_walk_elem (p : list string) (start x : string) :
  head p = Some start → is_walk adjacency_list p → x ∈ p →
  x ∈ universe adjacency_list start.
Proof.
  intros Hhead Hwalk Hx.
  destruct p as [|a p]; [discriminate|]. injection Hhead as ->.
  apply elem_of_cons in Hx as [->|Hx]; [apply list_elem_of_here|].
  revert start Hwalk. induction p as [|b p IH]; intros a Hwalk;
    [by apply not_elem_of_nil in Hx|].
  destruct Hwalk as [Hab Hwalk].
  apply elem_of_cons in Hx as [->|Hx].
  - by apply (neighbor_in_universe a a).
  - pose proof (IH Hx b Hwalk) as Hin. unfold universe in Hin.
    apply elem_of_cons in Hin as [->|Hin].
    + by apply (neighbor_in_universe a a).
    + by apply list_elem_of_further.
Qed.

Lemma neighbors_length (city : string) (start : string) :
  length (get_or_empty adjacency_list city) ≤ length (universe adjacency_list start).
Proof.
  unfold get_or_empty, universe.
  destruct (adjacency_list !! city) as [neighbors|] eqn:Hlookup; simpl; [|lia].
  apply elem_of_map_to_list in Hlookup.
  apply (list_elem_of_fmap_2 snd) in Hlookup. simpl in Hlookup.
  apply Nat.le_le_succ_r.
  induction ((map_to_list adjacency_list).*2) as [|l ls IH];
    [by apply not_elem_of_nil in Hlookup|].
  simpl. rewrite length_app.
  apply elem_of_cons in Hlookup as [<-|Hin]; [lia|].
  specialize (IH Hin). lia.
Qed.

Lemma reachable_refl (start : string) : reachable adjacency_list start start.
Proof. by exists [start]. Qed.

Lemma reachable_step (start city w : string) (path : list string) :
  route_from_to adjacency_list start city path →
  w ∈ get_or_empty adjacency_list city →
  reachable adjacency_list start w.
Proof.
  intros (Hhead & Hlast & Hwalk) Hw. exists (path ++ [w]). repeat split.
  - destruct path; [discriminate | done].
  - apply last_snoc.
  - by apply (is_walk_snoc path city w).
Qed.

(** A set of cities that contains the neighbours of its members
    cannot be left. *)
Lemma closed_set_unreachable (cs : list string) (start goal : string) :
  Forall (λ u, Forall (λ v, v ∈ cs) (get_or_empty adjacency_list u)) cs →
  start ∈ cs → goal ∉ cs → ¬ reachable adjacency_list start goal.
Proof.
  intros Hclosed Hstart Hgoal (p & Hhead & Hlast & Hwalk). apply Hgoal. clear Hgoal.
  rewrite Forall_forall in Hclosed.
  revert start Hstart Hhead. induction p as [|a [|b p] IH]; intros start Hstart Hhead.
  - discriminate.
  - simpl in *. congruence.
  - injection Hhead as ->. destruct Hwalk as [Hab Hwalk].
    rewrite last_cons_cons in Hlast. apply (IH Hlast Hwalk b); [|done].
    specialize (Hclosed _ Hstart). rewrite Forall_forall in Hclosed. by apply Hclosed.
Qed.

(** A route that visits a city twice can be cut short. *)
Lemma route_shortcut (n : nat) (start goal : string) (p : list string) :
  length p ≤ n → route_from_to adjacency_list start goal p →
  ∃ q, simple_route adjacency_list start goal q ∧ q ⊆ p.
Proof.
  revert start p. induction n as [|n IH]; intros start p Hlen (Hhead & Hlast & Hwalk).
  - destruct p; [discriminate | simpl in Hlen; lia].
  - destruct p as [|a p]; [discriminate|]. injection Hhead as ->.
    destruct p as [|b p].
    + exists [start]. repeat split; try done. apply NoDup_singleton.
    + destruct (decide (start ∈ b :: p)) as [Hin|Hnotin].
      * apply list_elem_of_split in Hin as (l1 & l2 & Heq).
        destruct (IH start (start :: l2)) as (q & Hq & Hsub).
        { pose proof (f_equal length Heq) as Hl. rewrite length_app in Hl.
          simpl in *. lia. }
        { rewrite Heq in Hlast, Hwalk. split; [done|]. split.
          - by rewrite app_comm_cons, last_app_cons in Hlast.
          - by apply (is_walk_app_r (start :: l1) (start :: l2)). }
        exists q. split; [done|]. rewrite Heq. intros x Hx.
        apply Hsub in Hx. apply elem_of_cons in Hx as [->|Hx]; [apply list_elem_of_here|].
        apply list_elem_of_further, elem_of_app. right. by apply list_elem_of_further.
      * destruct (IH b (b :: p)) as (q & ((Hqh & Hql & Hqw) & Hqnd) & Hsub).
        { simpl in *. lia. }
        { repeat split; [by rewrite last_cons_cons in Hlast | by destruct Hwalk]. }
        exists (start :: q). repeat split.
        -- destruct q as [|c q]; [discriminate|]. by rewrite last_cons_cons.
        -- destruct q as [|c q]; [discriminate|]. injection Hqh as ->.
           split; [by destruct Hwalk | done].
        -- apply NoDup_cons. split; [|done]. intros Hin. apply Hnotin, Hsub, Hin.
        -- intros x Hx. apply elem_of_cons in Hx as [->|Hx]; [apply list_elem_of_here|].
           apply list_elem_of_further, Hsub, Hx.
Qed.

Lemma reachable_simple (start goal : string) :
  reachable adjacency_list start goal →
  ∃ q, simple_route adjacency_list start goal q.
Proof.
  intros [p Hp]. destruct (route_shortcut (length p) start goal p) as (q & Hq & _); eauto.
Qed.

End Routes.

(** * Exploration of simple paths *)

Section Exploration.

Variable adjacency_list : gmap string (list string).
Variables start goal : string.

(** The [for neighbor] loop of [brute_force_search], [bfs] and [dfs]. *)
Lemma expand_children (path neighbors : list string)
    (frontier : list (string * list string)) :
  fold_left
    (fun frontier neighbor =>
       if decide (neighbor ∈ path) then frontier
       else frontier ++ [(neighbor, path ++ [neighbor])])
    neighbors frontier
  = frontier ++ children path neighbors.
Proof.
  unfold children. revert frontier.
  induction neighbors as [|w neighbors IH]; intros frontier; simpl.
  - by rewrite app_nil_r.
  - rewrite IH, filter_cons. destruct (decide (w ∈ path)) as [Hin|Hnotin].
    + rewrite decide_False; [done|]. intros Hn. exact (Hn Hin).
    + rewrite decide_True by done. by rewrite fmap_cons, <- app_assoc.
Qed.

Lemma elem_of_children (path neighbors : list string) (entry : string * list string) :
  entry ∈ children path neighbors ↔
  ∃ w, entry = (w, path ++ [w]) ∧ (w ∉ path) ∧ w ∈ neighbors.
Proof.
  unfold children. rewrite list_elem_of_fmap. setoid_rewrite list_elem_of_filter.
  naive_solver.
Qed.

Lemma children_sound (city : string) (path : list string) :
  sound_entry adjacency_list start (city, path) →
  Forall (sound_entry adjacency_list start)
    (children path (get_or_empty adjacency_list city)).
Proof.
  intros ((Hhead & Hlast & Hwalk) & Hnodup). simpl in *.
  apply Forall_forall. intros entry Hentry.
  apply elem_of_children in Hentry as (w & -> & Hnotin & Hin).
  repeat split; simpl.
  - destruct path; [discriminate | done].
  - apply last_snoc.
  - by apply (is_walk_snoc adjacency_list path city w).
  - apply NoDup_app. repeat split; [done | | apply NoDup_singleton].
    intros x Hx Hxw. apply list_elem_of_singleton in Hxw. by subst x.
Qed.

(** Whatever entry a search takes next, it can only return a simple
    route from [start] to [goal]. *)
Lemma explores_sound (frontier : list (string * list string))
    (result : option (list string)) :
  explores adjacency_list goal frontier result →
  Forall (sound_entry adjacency_list start) frontier →
  ∀ path, result = Some path → simple_route adjacency_list start goal path.
Proof.
  induction 1 as [|frontier path rest Hperm
                  |frontier city path rest result Hperm Hne Hexp IH];
    intros Hsound p Hres.
  - discriminate.
  - injection Hres as <-. rewrite Hperm in Hsound.
    by apply Forall_cons_1 in Hsound as [Hentry _].
  - rewrite Hperm in Hsound. apply Forall_cons_1 in Hsound as [Hentry Hrest].
    apply IH; [|done]. apply Forall_app. split; [done|]. by apply children_sound.
Qed.

(** ** The fuel that a frontier needs *)

Lemma weight_pos (bound : nat) (path : list string) : 0 < weight bound path.
Proof.
  unfold weight. generalize (bound - length path). intros k.
  induction k as [|k IH]; simpl; lia.
Qed.

Lemma frontier_weight_app (bound : nat) (f1 f2 : list (string * list string)) :
  frontier_weight bound (f1 ++ f2) = frontier_weight bound f1 + frontier_weight bound f2.
Proof.
  induction f1 as [|entry f1 IH]; simpl; lia.
Qed.

Lemma frontier_weight_Permutation (bound : nat) (f1 f2 : list (string * list string)) :
  f1 ≡ₚ f2 → frontier_weight bound f1 = frontier_weight bound f2.
Proof.
  induction 1; simpl; lia.
Qed.

Lemma children_weight (bound : nat) (path neighbors : list string) :
  length neighbors ≤ bound →
  (∀ w, w ∈ neighbors → w ∉ path → length path < bound) →
  frontier_weight bound (children path neighbors) < weight bound path.
Proof.
  intros Hcount Hroom.
  destruct (decide (length path < bound)) as [Hlt|Hge].
  - assert (Hsum : frontier_weight bound (children path neighbors)
                   ≤ length neighbors * S bound ^ (bound - S (length path))).
    { clear. unfold children.
      induction neighbors as [|w neighbors IH]; [simpl; lia|].
      rewrite filter_cons. cbn [length Nat.mul].
      destruct (decide (w ∉ path)); [|lia].
      rewrite fmap_cons. cbn [frontier_weight snd].
      unfold weight at 1. rewrite length_app. cbn [length].
      replace (length path + 1) with (S (length path)) by lia. lia. }
    unfold weight.
    replace (bound - length path) with (S (bound - S (length path))) by lia.
    simpl. pose proof (weight_pos bound (start :: path)) as Hpos.
    unfold weight in Hpos. simpl in Hpos. nia.
  - assert (Hnil : children path neighbors = []).
    { unfold children. induction neighbors as [|w neighbors IH]; [done|].
      rewrite filter_cons. destruct (decide (w ∉ path)) as [Hnotin|_].
      - exfalso. apply Hge, (Hroom w); [apply list_elem_of_here | done].
      - apply IH; [simpl in Hcount; lia|].
        intros w' Hw'. apply Hroom. by apply list_elem_of_further. }
    rewrite Hnil. apply weight_pos.
Qed.

Lemma sound_entry_length (entry : string * list string) :
  sound_entry adjacency_list start entry →
  length entry.2 ≤ length (universe adjacency_list start).
Proof.
  intros ((Hhead & _ & Hwalk) & Hnodup).
  apply submseteq_length, NoDup_submseteq; [done|].
  intros x Hx. by apply (is_walk_elem adjacency_list entry.2).
Qed.

Lemma step_sound (city : string) (path : list string)
    (rest : list (string * list string)) :
  Forall (sound_entry adjacency_list start) ((city, path) :: rest) →
  Forall (sound_entry adjacency_list start)
    (rest ++ children path (get_or_empty adjacency_list city)).
Proof.
  intros [Hentry Hrest]%Forall_cons_1.
  apply Forall_app. split; [done|]. by apply children_sound.
Qed.

Lemma step_weight (bound : nat) (city : string) (path : list string)
    (rest : list (string * list string)) :
  length (universe adjacency_list start) ≤ bound →
  sound_entry adjacency_list start (city, path) →
  frontier_weight bound (rest ++ children path (get_or_empty adjacency_list city))
  < frontier_weight bound ((city, path) :: rest).
Proof.
  intros Hbound Hentry. rewrite frontier_weight_app. simpl.
  enough (frontier_weight bound (children path (get_or_empty adjacency_list city))
          < weight bound path) by lia.
  apply children_weight.
  - pose proof (neighbors_length adjacency_list city start). lia.
  - intros w Hin Hnotin.
    pose proof (children_sound city path Hentry) as Hch.
    rewrite Forall_forall in Hch.
    assert (Hw : sound_entry adjacency_list start (w, path ++ [w])).
    { apply Hch, elem_of_children. eauto. }
    apply sound_entry_length in Hw. cbn [snd] in Hw. rewrite length_app in Hw.
    cbn [length] in Hw. lia.
Qed.

End Exploration.

(** * The searches with the per-path membership test *)

Section UninformedSearches.

Variable adjacency_list : gmap string (list string).
Variables start goal : string.

Lemma dfs_loop_brute_force_loop (fuel : nat) (stack : list (string * list string)) :
  dfs_loop fuel goal adjacency_list stack = brute_force_loop fuel goal adjacency_list stack.
Proof.
  revert stack. induction fuel as [|fuel IH]; intros stack; simpl; [reflexivity|].
  destruct (list_pop stack) as [[[city path] rest]|]; [|reflexivity].
  destruct (decide (city = goal)); [reflexivity | apply IH].
Qed.

Lemma brute_force_loop_explores (fuel : nat) (stack : list (string * list string)) :
  brute_force_loop fuel goal adjacency_list stack = OutOfFuel ∨
  ∃ result, brute_force_loop fuel goal adjacency_list stack = Returned result ∧
            explores adjacency_list goal stack result.
Proof.
  revert stack. induction fuel as [|fuel IH]; intros stack; simpl; [by left|].
  destruct (list_pop stack) as [[[city path] rest]|] eqn:Hpop.
  - apply list_pop_Some in Hpop.
    assert (Hperm : stack ≡ₚ (city, path) :: rest).
    { rewrite Hpop. symmetry. apply Permutation_cons_append. }
    destruct (decide (city = goal)) as [->|Hne].
    + right. eexists. split; [reflexivity|]. by eapply explores_found.
    + rewrite expand_children.
      destruct (IH (rest ++ children path (get_or_empty adjacency_list city)))
        as [Hout|(result & Hrun & Hexp)]; [by left|].
      right. exists result. split; [done|]. by eapply explores_step.
  - apply list_pop_None in Hpop. subst stack.
    right. eexists. split; [reflexivity | constructor].
Qed.

Lemma brute_force_loop_finishes (bound fuel : nat) (stack : list (string * list string)) :
  length (universe adjacency_list start) ≤ bound →
  Forall (sound_entry adjacency_list start) stack →
  frontier_weight bound stack < fuel →
  brute_force_loop fuel goal adjacency_list stack ≠ OutOfFuel.
Proof.
  intros Hbound. revert stack.
  induction fuel as [|fuel IH]; intros stack Hsound Hfuel; simpl; [lia|].
  destruct (list_pop stack) as [[[city path] rest]|] eqn:Hpop; [|done].
  apply list_pop_Some in Hpop.
  assert (Hperm : stack ≡ₚ (city, path) :: rest).
  { rewrite Hpop. symmetry. apply Permutation_cons_append. }
  destruct (decide (city = goal)) as [->|Hne]; [done|].
  rewrite expand_children. rewrite Hperm in Hsound.
  rewrite (frontier_weight_Permutation bound _ _ Hperm) in Hfuel.
  apply IH; [by apply step_sound|].
  assert (Hentry : sound_entry adjacency_list start (city, path))
    by (by apply Forall_cons_1 in Hsound as [? _]).
  pose proof (step_weight adjacency_list start bound city path rest Hbound Hentry). lia.
Qed.

Lemma bfs_loop_explores (fuel : nat) (queue : list (string * list string)) :
  bfs_loop fuel goal adjacency_list queue = OutOfFuel ∨
  ∃ result, bfs_loop fuel goal adjacency_list queue = Returned result ∧
            explores adjacency_list goal queue result.
Proof.
  revert queue. induction fuel as [|fuel IH]; intros queue; simpl; [by left|].
  destruct queue as [|[city path] rest]; simpl.
  - right. eexists. split; [reflexivity | constructor].
  - destruct (decide (city = goal)) as [->|Hne].
    + right. eexists. split; [reflexivity|]. by eapply explores_found.
    + rewrite expand_children.
      destruct (IH (rest ++ children path (get_or_empty adjacency_list city)))
        as [Hout|(result & Hrun & Hexp)]; [by left|].
      right. exists result. split; [done|]. by eapply explores_step.
Qed.

Lemma bfs_loop_finishes (bound fuel : nat) (queue : list (string * list string)) :
  length (universe adjacency_list start) ≤ bound →
  Forall (sound_entry adjacency_list start) queue →
  frontier_weight bound queue < fuel →
  bfs_loop fuel goal adjacency_list queue ≠ OutOfFuel.
Proof.
  intros Hbound. revert queue.
  induction fuel as [|fuel IH]; intros queue Hsound Hfuel; simpl; [lia|].
  destruct queue as [|[city path] rest]; simpl; [done|].
  destruct (decide (city = goal)) as [->|Hne]; [done|].
  rewrite expand_children.
  apply IH; [by apply step_sound|].
  assert (Hentry : sound_entry adjacency_list start (city, path))
    by (by apply Forall_cons_1 in Hsound as [? _]).
  pose proof (step_weight adjacency_list start bound city path rest Hbound Hentry). lia.
Qed.

Lemma start_sound : Forall (sound_entry adjacency_list start) [(start, [start])].
Proof.
  apply Forall_singleton. repeat split; simpl; try done. apply NoDup_singleton.
Qed.

Lemma universe_bound :
  length (universe adjacency_list start) ≤ S (length (universe adjacency_list start)).
Proof. lia. Qed.

Lemma start_weight (fuel : nat) :
  enough_fuel adjacency_list start ≤ fuel →
  frontier_weight (S (length (universe adjacency_list start))) [(start, [start])] < fuel.
Proof.
  unfold enough_fuel. simpl. lia.
Qed.

End UninformedSearches.

(** * The numbers *)

Lemma num_lt_le {num : Type} {N : Number num} (x y : num) :
  num_lt x y = true → x ≼ y.
Proof. unfold num_le. by intros ->. Qed.

Lemma num_eq_le {num : Type} {N : Number num} (x y : num) :
  num_eq x y = true → x ≼ y.
Proof. unfold num_le. intros ->. apply orb_true_r. Qed.

Section Numbers.

Context {num : Type} {N : Number num} {L : NumberLaws num}.

Lemma num_nonneg_refl (x : num) : num_zero ≼ x → x ≼ x.
Proof. apply num_le_refl_r. Qed.

Lemma num_add_nonneg (x d : num) :
  num_zero ≼ x → num_zero ≼ d → num_zero ≼ num_add x d.
Proof.
  intros Hx Hd. eapply num_le_trans; [exact Hx | by apply num_add_le].
Qed.

Lemma num_lt_le_False (x y : num) : num_lt x y = true → y ≼ x → False.
Proof.
  intros Hlt Hle. apply num_le_not_lt in Hle. congruence.
Qed.

End Numbers.

(** ** Exact arithmetic obeys the laws *)

Lemma Qltb_spec (x y : Q) : if Qltb x y then (x < y)%Q else (y <= x)%Q.
Proof.
  unfold Qltb. destruct (Qcompare_spec x y); lra.
Qed.

Lemma Q_le_spec (x y : Q) : x ≼ y ↔ (x <= y)%Q.
Proof.
  unfold num_le. simpl. pose proof (Qltb_spec x y) as Hlt.
  pose proof (Qeq_bool_iff x y) as Heq.
  destruct (Qltb x y); simpl.
  - split; [lra | done].
  - rewrite Heq. split; [intros ->; lra | lra].
Qed.

#[global] Instance Q_number_laws : NumberLaws Q.
Proof.
  split.
  - intros x y z. rewrite !Q_le_spec. lra.
  - intros x y. rewrite !Q_le_spec. lra.
  - intros x y. rewrite !Q_le_spec. lra.
  - intros x y. rewrite Q_le_spec. simpl. pose proof (Qltb_spec y x).
    destruct (Qltb y x); [lra | done].
  - intros x y _ _. rewrite Q_le_spec. simpl. pose proof (Qltb_spec y x).
    destruct (Qltb y x); [done | lra].
  - intros x y. simpl. rewrite Qeq_bool_iff. pose proof (Qltb_spec x y).
    destruct (Qltb x y); [lra | done].
  - apply Q_le_spec. simpl. lra.
  - intros x d. rewrite !Q_le_spec. simpl. lra.
  - intros x y d. rewrite !Q_le_spec. simpl. lra.
Qed.

(** * Best-first search *)

Section BestFirst.

Context {num : Type} {N : Number num}.
Variable haversine : coord num → coord num → option num.
Variable adjacency_list : gmap string (list string).
Variable cities : gmap string (coord num).
Variables start goal : string.

Local Abbreviation defined := (distance_defined haversine cities).

(** One pass through the body of the [for neighbor] loop. *)
Lemma best_first_visit_returned (path : list string)
    (pq pq' : list (num * string * list string)) (w : string) :
  best_first_visit haversine goal cities path pq w = Returned pq' →
  (w ∈ path ∧ pq' = pq) ∨
  ((w ∉ path) ∧ defined w goal ∧ ∃ h, pq' = pq ++ [(h, w, path ++ [w])]).
Proof.
  unfold best_first_visit, call_haversine, getitem.
  destruct (decide (w ∈ path)) as [Hin|Hnotin]; [intros [= <-]; by left|].
  destruct (cities !! w) as [c|] eqn:Hw; simpl; [|discriminate].
  destruct (cities !! goal) as [c_goal|] eqn:Hgoal; simpl; [|discriminate].
  destruct (haversine c c_goal) as [h|] eqn:Hh; simpl; [|discriminate].
  intros [= <-]. right. split; [done|]. split; [|by exists h].
  by exists c, c_goal, h.
Qed.

(** The [for neighbor] loop of [best_first_search], when no call
    fails. *)
Lemma best_first_visits (path neighbors : list string)
    (pq pq' : list (num * string * list string)) :
  for_each (best_first_visit haversine goal cities path) neighbors pq = Returned pq' →
  best_first_entry <$> pq' = (best_first_entry <$> pq) ++ children path neighbors.
Proof.
  unfold children. revert pq.
  induction neighbors as [|w neighbors IH]; intros pq; simpl.
  - intros [= <-]. by rewrite app_nil_r.
  - destruct (best_first_visit haversine goal cities path pq w) as [pq1| |] eqn:Hvisit;
      try discriminate.
    intros Hrun. rewrite (IH _ Hrun), filter_cons.
    apply best_first_visit_returned in Hvisit as [[Hin ->]|(Hnotin & _ & h & ->)].
    + by rewrite decide_False by (intros Hn; exact (Hn Hin)).
    + rewrite decide_True by done. by rewrite fmap_app, fmap_cons, <- app_assoc.
Qed.

Lemma best_first_visits_known (path neighbors : list string)
    (pq : list (num * string * list string)) :
  (∀ w, w ∈ neighbors → defined w goal) →
  ∃ pq', for_each (best_first_visit haversine goal cities path) neighbors pq = Returned pq'.
Proof.
  revert pq.
  induction neighbors as [|w neighbors IH]; intros pq Hknown; simpl; [eauto|].
  unfold best_first_visit at 1, call_haversine, getitem.
  destruct (Hknown w) as (c & c_goal & h & Hc & Hgoal & Hh); [apply list_elem_of_here|].
  rewrite Hc, Hgoal. simpl. rewrite Hh. simpl.
  destruct (decide (w ∈ path)); apply IH; intros w' Hw';
    apply Hknown; by apply list_elem_of_further.
Qed.

(** The cities on the paths that the loop extends are cities whose
    distance to the goal [haversine] returns. *)
Lemma best_first_visits_located (path neighbors : list string)
    (pq pq' : list (num * string * list string)) :
  for_each (best_first_visit haversine goal cities path) neighbors pq = Returned pq' →
  ∀ w, w ∈ neighbors → w ∉ path → defined w goal.
Proof.
  revert pq. induction neighbors as [|w neighbors IH]; intros pq; simpl.
  - intros _ w Hw. by apply not_elem_of_nil in Hw.
  - destruct (best_first_visit haversine goal cities path pq w) as [pq1| |] eqn:Hvisit;
      try discriminate.
    intros Hrun w' Hw' Hnotin'. apply elem_of_cons in Hw' as [->|Hw'].
    + by apply best_first_visit_returned in Hvisit as [[Hin _]|(_ & Hdef & _)].
    + by apply (IH _ Hrun).
Qed.

Lemma best_first_loop_explores (fuel : nat) (pq : list (num * string * list string))
    (result : option (list string)) :
  best_first_loop haversine fuel goal adjacency_list cities pq = Returned result →
  explores adjacency_list goal (best_first_entry <$> pq) result.
Proof.
  revert pq. induction fuel as [|fuel IH]; intros pq; simpl; [discriminate|].
  destruct (heappop best_first_lt pq) as [[[[h city] path] rest]|] eqn:Hpop.
  - apply heappop_Permutation in Hpop.
    assert (Hperm : best_first_entry <$> pq ≡ₚ (city, path) :: (best_first_entry <$> rest))
      by (by rewrite Hpop).
    destruct (decide (city = goal)) as [->|Hne].
    + intros [= <-]. by eapply explores_found.
    + destruct (for_each (best_first_visit haversine goal cities path)
                  (get_or_empty adjacency_list city) rest) as [pq'| |] eqn:Hvisit;
        simpl; try discriminate.
      intros Hrun. eapply explores_step; [exact Hperm | done |].
      rewrite <- (best_first_visits _ _ _ _ Hvisit). by apply IH.
  - apply heappop_None in Hpop. subst pq. intros [= <-]. constructor.
Qed.

(** The [for neighbor] loop does not run out of fuel: it has none. *)
Lemma best_first_visits_finish (path neighbors : list string)
    (pq : list (num * string * list string)) :
  for_each (best_first_visit haversine goal cities path) neighbors pq ≠ OutOfFuel.
Proof.
  revert pq. induction neighbors as [|w l IHl]; intros pq; simpl; [discriminate|].
  unfold best_first_visit at 1, call_haversine, getitem.
  destruct (decide (w ∈ path)); [apply IHl|].
  destruct (cities !! w); simpl; [|discriminate].
  destruct (cities !! goal); simpl; [|discriminate].
  destruct (haversine _ _); simpl; [apply IHl | discriminate].
Qed.

Lemma best_first_loop_finishes (bound fuel : nat) (pq : list (num * string * list string)) :
  length (universe adjacency_list start) ≤ bound →
  Forall (sound_entry adjacency_list start) (best_first_entry <$> pq) →
  frontier_weight bound (best_first_entry <$> pq) < fuel →
  best_first_loop haversine fuel goal adjacency_list cities pq ≠ OutOfFuel.
Proof.
  intros Hbound. revert pq.
  induction fuel as [|fuel IH]; intros pq Hsound Hfuel; simpl; [lia|].
  destruct (heappop best_first_lt pq) as [[[[h city] path] rest]|] eqn:Hpop; [|done].
  apply heappop_Permutation in Hpop.
  assert (Hperm : best_first_entry <$> pq ≡ₚ (city, path) :: (best_first_entry <$> rest))
    by (by rewrite Hpop).
  destruct (decide (city = goal)) as [->|Hne]; [done|].
  destruct (for_each (best_first_visit haversine goal cities path)
              (get_or_empty adjacency_list city) rest) as [pq'| |] eqn:Hvisit;
    simpl; [|done|].
  - rewrite Hperm in Hsound.
    rewrite (frontier_weight_Permutation bound _ _ Hperm) in Hfuel.
    assert (Hentry : sound_entry adjacency_list start (city, path))
      by (by apply Forall_cons_1 in Hsound as [? _]).
    pose proof (step_weight adjacency_list start bound city path
                  (best_first_entry <$> rest) Hbound Hentry) as Hlt.
    apply IH; rewrite (best_first_visits _ _ _ _ Hvisit);
      [by apply step_sound | lia].
  - by apply best_first_visits_finish in Hvisit.
Qed.

Lemma best_first_loop_no_error (fuel : nat) (pq : list (num * string * list string))
    (e : exn) :
  (∀ city, reachable adjacency_list start city → defined city goal) →
  Forall (sound_entry adjacency_list start) (best_first_entry <$> pq) →
  best_first_loop haversine fuel goal adjacency_list cities pq ≠ Raised e.
Proof.
  intros Hknown. revert pq.
  induction fuel as [|fuel IH]; intros pq Hsound; simpl; [done|].
  destruct (heappop best_first_lt pq) as [[[[h city] path] rest]|] eqn:Hpop; [|done].
  apply heappop_Permutation in Hpop.
  destruct (decide (city = goal)); [done|].
  assert (Hperm : best_first_entry <$> pq ≡ₚ (city, path) :: (best_first_entry <$> rest))
    by (by rewrite Hpop).
  rewrite Hperm in Hsound.
  assert (Hentry : sound_entry adjacency_list start (city, path))
    by (by apply Forall_cons_1 in Hsound as [? _]).
  destruct (best_first_visits_known path (get_or_empty adjacency_list city) rest)
    as [pq' Hvisit].
  { intros w Hw. destruct Hentry as [Hroute _].
    by apply Hknown, (reachable_step adjacency_list start city w path). }
  rewrite Hvisit. simpl. apply IH.
  rewrite (best_first_visits _ _ _ _ Hvisit). by apply step_sound.
Qed.

(** Every city on a path that [best_first_search] returns has
    coordinates, and [haversine] returns its distance to the goal. *)
Lemma best_first_loop_located (fuel : nat) (pq : list (num * string * list string))
    (path : list string) :
  best_first_loop haversine fuel goal adjacency_list cities pq = Returned (Some path) →
  Forall (λ entry, ∀ v, v ∈ entry.2 → defined v goal) pq →
  ∀ v, v ∈ path → defined v goal.
Proof.
  revert pq. induction fuel as [|fuel IH]; intros pq; simpl; [discriminate|].
  destruct (heappop best_first_lt pq) as [[[[h city] p] rest]|] eqn:Hpop; [|discriminate].
  apply heappop_Permutation in Hpop.
  destruct (decide (city = goal)) as [->|Hne].
  - intros [= <-] Hloc. rewrite Hpop in Hloc.
    by apply Forall_cons_1 in Hloc as [Hentry _].
  - destruct (for_each (best_first_visit haversine goal cities p)
                (get_or_empty adjacency_list city) rest) as [pq'| |] eqn:Hvisit;
      simpl; try discriminate.
    intros Hrun Hloc. apply (IH pq' Hrun).
    rewrite Hpop in Hloc. apply Forall_cons_1 in Hloc as [Hentry Hrest].
    pose proof (best_first_visits _ _ _ _ Hvisit) as Hpq'.
    pose proof (best_first_visits_located _ _ _ _ Hvisit) as Hnew.
    apply Forall_forall. intros [[h' c'] p'] Hin v Hv. simpl in Hv.
    assert (Hin' : (c', p') ∈ best_first_entry <$> pq')
      by (apply list_elem_of_fmap; by exists (h', c', p')).
    rewrite Hpq' in Hin'. apply elem_of_app in Hin' as [Hold|Hchild].
    + apply list_elem_of_fmap in Hold as ([[h'' c''] p''] & [= -> ->] & Hold).
      rewrite Forall_forall in Hrest. by apply (Hrest _ Hold).
    + apply elem_of_children in Hchild as (w & [= -> ->] & Hnotin & Hw).
      apply elem_of_app in Hv as [Hv|Hv]; [by apply Hentry|].
      apply list_elem_of_singleton in Hv. subst v. by apply Hnew.
Qed.

End BestFirst.

(** * Breadth-first search finds a shortest route *)

Section BreadthFirst.

Variable adjacency_list : gmap string (list string).
Variables start goal : string.

Lemma level_ordered_head (n : nat) (entry : string * list string)
    (rest : list (string * list string)) :
  level_ordered n (entry :: rest) →
  level_ordered (length entry.2) rest ∧
  ∀ entry', entry' ∈ rest → length entry.2 ≤ length entry'.2.
Proof.
  intros (q1 & q2 & Heq & H1 & H2). destruct q1 as [|e1 q1]; simpl in Heq.
  - subst q2. apply Forall_cons_1 in H2 as [Hentry Hrest]. split.
    + exists rest, []. rewrite app_nil_r, Hentry. by repeat split.
    + intros entry' Hin. rewrite Forall_forall in Hrest.
      rewrite Hentry, (Hrest _ Hin). lia.
  - injection Heq as <- ->. apply Forall_cons_1 in H1 as [Hentry H1]. split.
    + exists q1, q2. rewrite Hentry. by repeat split.
    + intros entry' Hin. rewrite Forall_forall in H1, H2.
      apply elem_of_app in Hin as [Hin|Hin];
        [rewrite (H1 _ Hin) | rewrite (H2 _ Hin)]; lia.
Qed.

Lemma level_ordered_children (path : list string) (neighbors : list string)
    (rest : list (string * list string)) :
  level_ordered (length path) rest →
  level_ordered (length path) (rest ++ children path neighbors).
Proof.
  intros (q1 & q2 & -> & H1 & H2).
  exists q1, (q2 ++ children path neighbors). rewrite app_assoc.
  repeat split; [done|]. apply Forall_app. split; [done|].
  apply Forall_forall. intros entry (w & -> & _ & _)%elem_of_children.
  simpl. rewrite length_app. simpl. lia.
Qed.

(** The queue keeps a beginning of every simple route to the goal until
    the search returns. *)
Lemma prefix_extends (q p : list string) (city : string) :
  simple_route adjacency_list start goal q →
  p `prefix_of` q → last p = Some city → city ≠ goal →
  ∃ w, (w, p ++ [w]) ∈ children p (get_or_empty adjacency_list city) ∧
       (p ++ [w]) `prefix_of` q.
Proof.
  intros ((_ & Hlast & Hwalk) & Hnodup) [k ->] Hp Hne.
  destruct k as [|w k].
  - rewrite app_nil_r in Hlast. congruence.
  - exists w. split.
    + apply elem_of_children. exists w. split; [done|].
      apply last_Some in Hp as [p' ->]. split.
      * apply NoDup_app in Hnodup as (_ & Hdisj & _).
        intros Hin. apply (Hdisj _ Hin), list_elem_of_here.
      * rewrite <- app_assoc in Hwalk. by apply is_walk_link in Hwalk.
    + exists k. by rewrite <- app_assoc.
Qed.

Lemma bfs_loop_shortest (q : list string) (fuel : nat)
    (queue : list (string * list string)) (n : nat) (result : option (list string)) :
  simple_route adjacency_list start goal q →
  Forall (sound_entry adjacency_list start) queue →
  level_ordered n queue →
  (∃ entry, entry ∈ queue ∧ entry.2 `prefix_of` q) →
  bfs_loop fuel goal adjacency_list queue = Returned result →
  ∃ path, result = Some path ∧ length path ≤ length q.
Proof.
  intros Hq. revert queue n.
  induction fuel as [|fuel IH]; intros queue n Hsound Hlevel (entry & Hin & Hprefix);
    simpl; [discriminate|].
  destruct queue as [|[city path] rest]; [by apply not_elem_of_nil in Hin|]. simpl.
  apply level_ordered_head in Hlevel as [Hlevel Hmin]. simpl in Hlevel, Hmin.
  destruct (decide (city = goal)) as [->|Hne].
  - intros [= <-]. exists path. split; [done|].
    apply prefix_length in Hprefix.
    apply elem_of_cons in Hin as [->|Hin]; [done|].
    specialize (Hmin _ Hin). lia.
  - rewrite expand_children. apply (IH _ (length path)).
    + by apply step_sound.
    + by apply level_ordered_children.
    + apply elem_of_cons in Hin as [->|Hin].
      * apply Forall_cons_1 in Hsound as [((_ & Hlast & _) & _) _]. simpl in *.
        destruct (prefix_extends q path city Hq Hprefix Hlast Hne) as (w & Hw & Hpre).
        exists (w, path ++ [w]). split; [|done]. apply elem_of_app. by right.
      * exists entry. split; [|done]. apply elem_of_app. by left.
Qed.

Lemma bfs_loop_fuel_mono (fuel fuel' : nat) (queue : list (string * list string))
    (result : option (list string)) :
  bfs_loop fuel goal adjacency_list queue = Returned result → fuel ≤ fuel' →
  bfs_loop fuel' goal adjacency_list queue = Returned result.
Proof.
  revert fuel' queue. induction fuel as [|fuel IH]; intros fuel' queue; simpl;
    [discriminate|].
  intros Hrun Hle. destruct fuel' as [|fuel']; [lia|]. simpl.
  destruct (popleft queue) as [[[city path] rest]|]; [|done].
  destruct (decide (city = goal)); [done|]. apply IH; [done | lia].
Qed.

End BreadthFirst.

(** * A* search *)

Section AStar.

Context {num : Type} {N : Number num} {L : NumberLaws num}.
Variable haversine : coord num → coord num → option num.
Variable adjacency_list : gmap string (list string).
Variable cities : gmap string (coord num).
Variables start goal : string.

Local Abbreviation distance := (name_distance haversine cities).
Local Abbreviation defined := (distance_defined haversine cities).
Local Abbreviation child := (a_star_child haversine cities goal).
Local Abbreviation expansion := (a_star_expansion haversine cities goal).

Lemma defined_distance (u v : string) :
  defined u v →
  ∃ a b, cities !! u = Some a ∧ cities !! v = Some b ∧
         haversine a b = Some (distance u v).
Proof.
  intros (a & b & d & Hu & Hv & Hd). exists a, b.
  unfold name_distance. by rewrite Hu, Hv, Hd.
Qed.

Lemma defined_located (u v : string) :
  defined u v → is_Some (cities !! u) ∧ is_Some (cities !! v).
Proof. intros (a & b & d & Hu & Hv & Hd). eauto. Qed.

(** One pass through the body of the [for neighbor] loop. *)
Lemma a_star_visit_returned (city : string) (path : list string) (g : num)
    (pq pq' : list (num * string * list string * num))
    (visited visited' : gmap string num) (w : string) :
  a_star_visit haversine goal cities city path g (pq, visited) w
    = Returned (pq', visited') →
  defined city w ∧ defined w goal ∧
  ((pq' = pq ++ [child city path g w] ∧
    visited' = <[w := num_add g (distance city w)]> visited ∧
    ∀ best, visited !! w = Some best →
            num_lt (num_add g (distance city w)) best = true) ∨
   (pq' = pq ∧ visited' = visited ∧
    ∃ best, visited !! w = Some best ∧
            num_lt (num_add g (distance city w)) best = false)).
Proof.
  unfold a_star_visit, a_star_child, name_distance, call_haversine, getitem.
  destruct (cities !! city) as [c_city|] eqn:Hcity; simpl; [|discriminate].
  destruct (cities !! w) as [c|] eqn:Hc; simpl; [|discriminate].
  destruct (haversine c_city c) as [d|] eqn:Hd; simpl; [|discriminate].
  destruct (cities !! goal) as [c_goal|] eqn:Hgoal; simpl; [|discriminate].
  destruct (haversine c c_goal) as [h|] eqn:Hh; simpl; [|discriminate].
  intros Hrun.
  split; [by exists c_city, c, d|]. split; [by exists c, c_goal, h|].
  destruct (visited !! w) as [best|] eqn:Hw.
  - destruct (num_lt (num_add g d) best) eqn:Hlt; injection Hrun as <- <-.
    + left. repeat split. by intros best' [= <-].
    + right. repeat split. eauto.
  - injection Hrun as <- <-. left. repeat split. intros best' [=].
Qed.

(** The [for neighbor] loop does not run out of fuel: it has none. *)
Lemma a_star_visits_finish (city : string) (path : list string) (g : num)
    (neighbors : list string)
    (state : list (num * string * list string * num) * gmap string num) :
  for_each (a_star_visit haversine goal cities city path g) neighbors state ≠ OutOfFuel.
Proof.
  revert state. induction neighbors as [|w l IHl]; intros state; cbn [for_each];
    [discriminate|].
  destruct (a_star_visit haversine goal cities city path g state w) as [state'| |] eqn:Hw;
    [apply IHl | discriminate |].
  exfalso. revert Hw. destruct state as [pq0 visited0].
  unfold a_star_visit, call_haversine, getitem.
  destruct (cities !! city); simpl; [|discriminate].
  destruct (cities !! w); simpl; [|discriminate].
  destruct (haversine _ _); simpl; [|discriminate].
  destruct (cities !! goal); simpl; [|discriminate].
  destruct (haversine _ _); simpl; [|discriminate].
  by destruct (match visited0 !! w with Some best => _ | None => true end).
Qed.

Lemma a_star_visits_known (city : string) (path : list string) (g : num)
    (neighbors : list string)
    (state : list (num * string * list string * num) * gmap string num) :
  (∀ w, w ∈ neighbors → defined city w ∧ defined w goal) →
  ∃ state', for_each (a_star_visit haversine goal cities city path g) neighbors state
            = Returned state'.
Proof.
  revert state.
  induction neighbors as [|w neighbors IH]; intros state Hknown; cbn [for_each];
    [eauto|].
  destruct (Hknown w) as [Hcw Hwg]; [apply list_elem_of_here|].
  assert (Hvisit : ∃ state', a_star_visit haversine goal cities city path g state w
                             = Returned state').
  { destruct state as [pq visited]. unfold a_star_visit, call_haversine, getitem.
    destruct Hcw as (c_city & c & d & Hcity & Hc & Hd).
    destruct Hwg as (c' & c_goal & h & Hc' & Hgoal & Hh).
    assert (c' = c) as -> by congruence.
    rewrite Hcity, Hc. simpl. rewrite Hd. simpl. rewrite Hgoal. simpl.
    rewrite Hh. simpl.
    destruct (match visited !! w with Some best => _ | None => true end); eauto. }
  destruct Hvisit as [state' ->]. apply IH.
  intros w' Hw'. apply Hknown. by apply list_elem_of_further.
Qed.

Lemma sum_legs_cons (acc : num) (a b : string) (route : list string) :
  sum_legs haversine cities acc (a :: b :: route) =
    c_a ← getitem cities a;
    c_b ← getitem cities b;
    d ← call_haversine haversine c_a c_b;
    sum_legs haversine cities (num_add acc d) (b :: route).
Proof. reflexivity. Qed.

Lemma sum_legs_step (acc : num) (a b : string) (route : list string) :
  defined a b →
  sum_legs haversine cities acc (a :: b :: route)
  = sum_legs haversine cities (num_add acc (distance a b)) (b :: route).
Proof.
  intros (c_a & c_b & Ha & Hb & Hd)%defined_distance.
  rewrite sum_legs_cons. unfold getitem, call_haversine.
  by rewrite Ha, Hb; simpl; rewrite Hd.
Qed.

Lemma sum_legs_returned_step (acc total : num) (a b : string) (route : list string) :
  sum_legs haversine cities acc (a :: b :: route) = Returned total →
  defined a b ∧
  sum_legs haversine cities (num_add acc (distance a b)) (b :: route) = Returned total.
Proof.
  rewrite sum_legs_cons. unfold getitem, call_haversine, name_distance.
  destruct (cities !! a) as [c_a|] eqn:Ha; simpl; [|discriminate].
  destruct (cities !! b) as [c_b|] eqn:Hb; simpl; [|discriminate].
  destruct (haversine c_a c_b) as [d|] eqn:Hd; simpl; [|discriminate].
  intros Hrun. split; [by exists c_a, c_b, d | done].
Qed.

Lemma sum_legs_snoc (acc g : num) (path : list string) (u w : string) :
  last path = Some u → defined u w →
  sum_legs haversine cities acc path = Returned g →
  sum_legs haversine cities acc (path ++ [w]) = Returned (num_add g (distance u w)).
Proof.
  intros Hlast Hdef. revert acc.
  induction path as [|a [|b path] IH]; intros acc; [discriminate| |].
  - injection Hlast as ->. simpl (sum_legs _ _ _ [u]). intros [= <-].
    change ([u] ++ [w]) with [u; w]. by rewrite sum_legs_step.
  - change ((a :: b :: path) ++ [w]) with (a :: b :: (path ++ [w])).
    intros [Hab Hrun]%sum_legs_returned_step.
    rewrite sum_legs_step by done. apply IH; [|done].
    by rewrite last_cons_cons in Hlast.
Qed.

(** ** One iteration keeps the invariant *)

Hypothesis haversine_values : haversine_nonneg haversine cities.

Lemma distance_nonneg (u v : string) : num_zero ≼ distance u v.
Proof.
  unfold name_distance.
  destruct (cities !! u) as [a|] eqn:Hu, (cities !! v) as [b|] eqn:Hv;
    try apply num_zero_le.
  destruct (haversine a b) as [d|] eqn:Hd; simpl; [|apply num_zero_le].
  by apply (haversine_values u v a b).
Qed.

Lemma visited_le_refl (visited : gmap string num) :
  visited_valid visited → visited_le visited visited.
Proof.
  intros Hvalid v best Hv. exists best. split; [done|].
  eapply num_nonneg_refl, Hvalid, Hv.
Qed.

Lemma visited_le_trans (v1 v2 v3 : gmap string num) :
  visited_le v1 v2 → visited_le v2 v3 → visited_le v1 v3.
Proof.
  intros H12 H23 v best Hv.
  destruct (H12 _ _ Hv) as (best2 & Hv2 & Hle2).
  destruct (H23 _ _ Hv2) as (best3 & Hv3 & Hle3).
  exists best3. split; [done|]. by eapply num_le_trans.
Qed.

(** The whole [for neighbor] loop. *)
Lemma a_star_expand (city : string) (path : list string) (g : num)
    (neighbors : list string)
    (pq pq' : list (num * string * list string * num))
    (visited visited' : gmap string num) :
  num_zero ≼ g → visited_valid visited →
  for_each (a_star_visit haversine goal cities city path g) neighbors (pq, visited)
    = Returned (pq', visited') →
  expansion city path g neighbors pq visited pq' visited'.
Proof.
  intros Hg. revert pq visited.
  induction neighbors as [|w neighbors IH]; intros pq visited Hvalid; cbn [for_each].
  - intros [= <- <-]. exists []. rewrite app_nil_r.
    split; [done|]. split; [done|].
    split; [intros x Hx; by apply not_elem_of_nil in Hx|].
    split; [done|].
    split; [by apply visited_le_refl|].
    split; [intros x Hx; by apply not_elem_of_nil in Hx|].
    intros v best Hv. by left.
  - destruct (a_star_visit haversine goal cities city path g (pq, visited) w)
      as [[pq1 visited1]| |] eqn:Hvisit; try discriminate.
    intros Hrun.
    assert (Hnew_g : num_zero ≼ num_add g (distance city w))
      by (apply num_add_nonneg; [done | apply distance_nonneg]).
    apply a_star_visit_returned in Hvisit
      as (Hcw & Hwg & [(-> & -> & Hpush)|(-> & -> & best & Hbest & Hkeep)]).
    + assert (Hvalid1 : visited_valid (<[w := num_add g (distance city w)]> visited)).
      { intros v best Hv. destruct (decide (w = v)) as [->|Hne].
        - rewrite lookup_insert_eq in Hv. by injection Hv as <-.
        - rewrite lookup_insert_ne in Hv by done. by eapply Hvalid. }
      apply (IH _ _ Hvalid1) in Hrun
        as (ws & Hpq' & Hlen & Hws & Hvalid' & Hle & Hnb & Hnew).
      assert (Hle1 : visited_le visited (<[w := num_add g (distance city w)]> visited)).
      { intros v best Hv. destruct (decide (w = v)) as [->|Hne].
        - rewrite lookup_insert_eq. eexists. split; [done|].
          by apply num_lt_le, Hpush.
        - rewrite lookup_insert_ne by done. exists best. split; [done|].
          eapply num_nonneg_refl, Hvalid, Hv. }
      exists (w :: ws). split; [by rewrite Hpq', fmap_cons, <- app_assoc|].
      split; [simpl; lia|]. split; [|split; [done|split; [|split]]].
      * intros x Hx. apply elem_of_cons in Hx as [->|Hx].
        -- split; [apply list_elem_of_here | done].
        -- destruct (Hws _ Hx) as [Hin Hcond]. split; [by apply list_elem_of_further|].
           intros best Hv. destruct (decide (w = x)) as [->|Hne].
           ++ specialize (Hcond (num_add g (distance city x))).
              rewrite lookup_insert_eq in Hcond. specialize (Hcond eq_refl).
              exfalso. eapply num_lt_le_False; [exact Hcond|].
              by apply num_nonneg_refl.
           ++ apply Hcond. by rewrite lookup_insert_ne.
      * by eapply visited_le_trans.
      * intros x Hx. apply elem_of_cons in Hx as [->|Hx]; [|by apply Hnb].
        do 2 (split; [done|]).
        destruct (Hle w (num_add g (distance city w))) as (best' & Hbest' & Hle').
        { by rewrite lookup_insert_eq. }
        eauto.
      * intros v best Hv. destruct (Hnew _ _ Hv) as [Hold|[Hin ->]].
        -- destruct (decide (w = v)) as [->|Hne].
           ++ rewrite lookup_insert_eq in Hold. injection Hold as <-.
              right. split; [apply list_elem_of_here | done].
           ++ rewrite lookup_insert_ne in Hold by done. by left.
        -- right. split; [by apply list_elem_of_further | done].
    + apply (IH _ _ Hvalid) in Hrun
        as (ws & Hpq' & Hlen & Hws & Hvalid' & Hle & Hnb & Hnew).
      exists ws. split; [done|]. split; [simpl; lia|].
      split; [|split; [done|split; [done|split; [|done]]]].
      * intros x Hx. destruct (Hws _ Hx) as [Hin Hcond].
        split; [by apply list_elem_of_further | done].
      * intros x Hx. apply elem_of_cons in Hx as [->|Hx]; [|by apply Hnb].
        do 2 (split; [done|]).
        destruct (Hle _ _ Hbest) as (best' & Hbest' & Hle').
        exists best'. split; [done|].
        eapply num_le_trans; [exact Hle'|].
        apply num_not_lt_le; [|by apply num_nonneg_refl | done].
        eapply num_nonneg_refl, Hvalid, Hbest.
Qed.

Lemma child_ok (f : num) (city : string) (path : list string) (g : num) (w : string) :
  a_star_entry_ok haversine adjacency_list cities start (f, city, path, g) →
  w ∈ get_or_empty adjacency_list city →
  defined city w →
  a_star_entry_ok haversine adjacency_list cities start (child city path g w).
Proof.
  intros ((Hhead & Hlast & Hwalk) & Hsum & Hg & Hgf) Hw Hcw.
  pose proof (distance_nonneg city w). pose proof (distance_nonneg w goal).
  assert (num_zero ≼ num_add g (distance city w)) by (by apply num_add_nonneg).
  unfold a_star_child. repeat split.
  - destruct path; [discriminate | done].
  - apply last_snoc.
  - by apply (is_walk_snoc adjacency_list path city w).
  - by apply sum_legs_snoc.
  - done.
  - by apply num_add_le.
Qed.

Local Abbreviation entry_ok := (a_star_entry_ok haversine adjacency_list cities start).
Local Abbreviation entry_closed := (a_star_entry_closed start).
Local Abbreviation closed := (start_closed haversine adjacency_list cities start goal).

Lemma expansion_entries_ok (f : num) (city : string) (path : list string) (g : num)
    (rest pq' : list (num * string * list string * num))
    (visited visited' : gmap string num) :
  entry_ok (f, city, path, g) → Forall entry_ok rest →
  expansion city path g (get_or_empty adjacency_list city) rest visited pq' visited' →
  Forall entry_ok pq'.
Proof.
  intros Hentry Hrest (ws & -> & _ & Hws & _ & _ & Hnb & _).
  apply Forall_app. split; [done|].
  apply Forall_forall. intros e (w & -> & Hw)%list_elem_of_fmap.
  destruct (Hws _ Hw) as [Hin _]. destruct (Hnb _ Hin) as (Hcw & _).
  by eapply child_ok.
Qed.

(** Once [start] has been expanded, only a path that repeats no city
    is extended, and only by a city that is new to it or is [start]. *)
Lemma pushed_from_simple (f : num) (city : string) (path : list string) (g : num)
    (visited : gmap string num) (w : string) :
  closed visited → entry_ok (f, city, path, g) → entry_closed visited (f, city, path, g) →
  w ∈ get_or_empty adjacency_list city →
  (∀ best, visited !! w = Some best →
           num_lt (num_add g (distance city w)) best = true) →
  city ≠ start ∧ NoDup path ∧ (w ∈ path → w = start).
Proof.
  intros [_ Hstart] (_ & _ & Hg & _) ((pre & -> & Hnodup & Hback) & Hknown) Hw Hpush.
  pose proof (distance_nonneg city w) as Hd.
  assert (Hcity : city ≠ start).
  { intros ->. destruct (Hstart _ Hw) as (best & Hbest & Hle).
    specialize (Hpush _ Hbest). eapply num_lt_le_False; [exact Hpush|].
    eapply num_le_trans; [exact Hle|].
    apply num_add_mono; [apply num_zero_le | done | done]. }
  split; [done|]. split.
  - apply NoDup_app. repeat split; [done | | apply NoDup_singleton].
    intros x Hx ->%list_elem_of_singleton. by apply Hcity, Hback.
  - intros Hin. destruct (decide (w = start)) as [|Hne]; [done|].
    destruct (Hknown _ Hin Hne) as (best & Hbest & Hle).
    specialize (Hpush _ Hbest). exfalso. eapply num_lt_le_False; [exact Hpush|].
    eapply num_le_trans; [exact Hle|]. by apply num_add_le.
Qed.

Lemma entry_closed_le (visited visited' : gmap string num)
    (e : num * string * list string * num) :
  visited_le visited visited' → entry_closed visited e → entry_closed visited' e.
Proof.
  destruct e as [[[f city] path] g]. intros Hle [Hshape Hknown]. split; [done|].
  intros v Hv Hne. destruct (Hknown _ Hv Hne) as (best & Hbest & Hbg).
  destruct (Hle _ _ Hbest) as (best' & Hbest' & Hle').
  exists best'. split; [done|]. by eapply num_le_trans.
Qed.

Lemma expansion_closed (f : num) (city : string) (path : list string) (g : num)
    (rest pq' : list (num * string * list string * num))
    (visited visited' : gmap string num) :
  closed visited → entry_ok (f, city, path, g) →
  entry_closed visited (f, city, path, g) →
  Forall (entry_closed visited) rest →
  expansion city path g (get_or_empty adjacency_list city) rest visited pq' visited' →
  closed visited' ∧ Forall (entry_closed visited') pq'.
Proof.
  intros Hclosed Hok Hentry Hrest (ws & -> & _ & Hws & _ & Hle & Hnb & _). split.
  - destruct Hclosed as [Hne Hstart]. split; [done|]. intros w Hw.
    destruct (Hstart _ Hw) as (best & Hbest & Hbd).
    destruct (Hle _ _ Hbest) as (best' & Hbest' & Hle').
    exists best'. split; [done|]. by eapply num_le_trans.
  - apply Forall_app. split.
    + eapply Forall_impl; [exact Hrest|]. intros e. by apply entry_closed_le.
    + apply Forall_forall. intros e (w & -> & Hw)%list_elem_of_fmap.
      destruct (Hws _ Hw) as [Hin Hpush].
      destruct (pushed_from_simple f city path g visited w)
        as (Hcity & Hnodup & Hback); try done.
      pose proof (distance_nonneg city w) as Hd.
      destruct Hok as (_ & _ & Hg & _).
      unfold a_star_child. split.
      * exists path. by repeat split.
      * intros v Hv Hne. apply elem_of_app in Hv as [Hv|Hv].
        -- destruct Hentry as [_ Hknown].
           destruct (Hknown _ Hv Hne) as (best & Hbest & Hbg).
           destruct (Hle _ _ Hbest) as (best' & Hbest' & Hle').
           exists best'. split; [done|].
           eapply num_le_trans; [exact Hle'|].
           eapply num_le_trans; [exact Hbg|]. by apply num_add_le.
        -- apply list_elem_of_singleton in Hv. subst v.
           destruct (Hnb _ Hin) as (_ & _ & best & Hbest & Hbg). eauto.
Qed.

(** The first iteration, which expands [start]. *)
Lemma expansion_from_start (pq' : list (num * string * list string * num))
    (visited' : gmap string num) :
  start ≠ goal →
  expansion start [start] num_zero (get_or_empty adjacency_list start) [] ∅ pq' visited' →
  closed visited' ∧ Forall (entry_closed visited') pq'.
Proof.
  intros Hne (ws & -> & _ & Hws & _ & _ & Hnb & _). split.
  - split; [done|]. intros w Hw.
    destruct (Hnb _ Hw) as (_ & _ & best & Hbest & Hbg). eauto.
  - apply Forall_forall. intros e (w & -> & Hw)%list_elem_of_fmap.
    destruct (Hws _ Hw) as [Hin _]. unfold a_star_child. split.
    + exists [start]. repeat split; [apply NoDup_singleton|].
      by intros ->%list_elem_of_singleton.
    + intros v [->|Hv]%elem_of_cons Hne'; [done|].
      apply list_elem_of_singleton in Hv. subst v.
      destruct (Hnb _ Hin) as (_ & _ & best & Hbest & Hbg). eauto.
Qed.

Lemma pushed_weight (bound : nat) (f : num) (city : string) (path : list string) (g : num)
    (rest : list (num * string * list string * num)) (ws : list string) :
  (ws ≠ [] → length path < bound) → length ws ≤ bound →
  frontier_weight bound (a_star_entry <$> (rest ++ (child city path g <$> ws)))
  < frontier_weight bound (a_star_entry <$> ((f, city, path, g) :: rest)).
Proof.
  intros Hroom Hcount. rewrite fmap_app, frontier_weight_app, fmap_cons.
  cbn [frontier_weight a_star_entry fst snd].
  enough (frontier_weight bound (a_star_entry <$> (child city path g <$> ws))
          < weight bound path) by lia.
  destruct ws as [|w0 ws0]; [apply weight_pos|].
  assert (Hlt : length path < bound) by (by apply Hroom).
  set (ws := w0 :: ws0) in *. clearbody ws. clear Hroom w0 ws0.
  assert (Hsum : frontier_weight bound (a_star_entry <$> (child city path g <$> ws))
                 = length ws * S bound ^ (bound - S (length path))).
  { clear. induction ws as [|w ws IH]; [done|].
    rewrite !fmap_cons. cbn [frontier_weight a_star_entry a_star_child fst snd length
                               Nat.mul].
    rewrite IH. unfold weight. rewrite length_app. cbn [length].
    by replace (length path + 1) with (S (length path)) by lia. }
  rewrite Hsum. unfold weight.
  replace (bound - length path) with (S (bound - S (length path))) by lia.
  simpl. pose proof (weight_pos bound (start :: path)) as Hpos.
  unfold weight in Hpos. simpl in Hpos. nia.
Qed.

Local Abbreviation invariant :=
  (a_star_invariant haversine adjacency_list cities start goal).

(** One iteration of the [while] loop that does not return. *)
Lemma a_star_step (bound : nat) (f : num) (city : string) (path : list string) (g : num)
    (pq rest pq' : list (num * string * list string * num))
    (visited visited' : gmap string num) :
  length (universe adjacency_list start) < bound →
  invariant pq visited →
  pq ≡ₚ (f, city, path, g) :: rest → city ≠ goal →
  expansion city path g (get_or_empty adjacency_list city) rest visited pq' visited' →
  invariant pq' visited' ∧
  frontier_weight bound (a_star_entry <$> pq') < frontier_weight bound (a_star_entry <$> pq).
Proof.
  intros Hbound (Hok & Hvalid & Hphase) Hperm Hne Hexp.
  rewrite Hperm in Hok. apply Forall_cons_1 in Hok as [Hentry Hrest].
  rewrite (frontier_weight_Permutation bound (a_star_entry <$> pq)
             (a_star_entry <$> ((f, city, path, g) :: rest)))
    by (by rewrite Hperm).
  assert (Hcount : ∀ ws : list string,
             length ws ≤ length (get_or_empty adjacency_list city) →
                         length ws ≤ bound).
  { intros ws Hws. pose proof (neighbors_length adjacency_list city start). lia. }
  split; [split; [|split]|].
  - by eapply expansion_entries_ok.
  - by destruct Hexp as (ws & _ & _ & _ & Hvalid' & _).
  - right. destruct Hphase as [[-> ->]|[Hclosed Hall]].
    + apply Permutation_singleton_l in Hperm. injection Hperm as <- <- <- <- <-.
      by apply expansion_from_start.
    + rewrite Hperm in Hall. apply Forall_cons_1 in Hall as [Hclosed_entry Hall].
      by eapply expansion_closed.
  - destruct Hexp as (ws & -> & Hlen & Hws & _).
    apply pushed_weight; [|by apply Hcount].
    intros Hnil. destruct ws as [|w ws]; [done|].
    destruct (Hws w) as [Hin Hpush]; [apply list_elem_of_here|].
    destruct Hphase as [[-> ->]|[Hclosed Hall]].
    + apply Permutation_singleton_l in Hperm. injection Hperm as <- <- <- <- <-.
      unfold universe in Hbound. simpl in *. lia.
    + rewrite Hperm in Hall. apply Forall_cons_1 in Hall as [Hclosed_entry Hall].
      destruct (pushed_from_simple f city path g visited w)
        as (_ & Hnodup & _); try done.
      destruct Hentry as ((Hhead & _ & Hwalk) & _).
      assert (length path ≤ length (universe adjacency_list start)); [|lia].
      apply submseteq_length, NoDup_submseteq; [done|].
      intros x Hx. by apply (is_walk_elem adjacency_list path).
Qed.

Lemma a_star_initial : invariant [(num_zero, start, [start], num_zero)] ∅.
Proof.
  split; [|split].
  - apply Forall_singleton. repeat split; simpl; try done; apply num_zero_le.
  - intros v best Hv. by rewrite lookup_empty in Hv.
  - by left.
Qed.

(** The loop body on the entry popped, when it does not fail. *)
Lemma a_star_iteration (f : num) (city : string) (path : list string) (g : num)
    (pq rest pq' : list (num * string * list string * num))
    (visited visited' : gmap string num) :
  invariant pq visited →
  pq ≡ₚ (f, city, path, g) :: rest → city ≠ goal →
  for_each (a_star_visit haversine goal cities city path g)
    (get_or_empty adjacency_list city) (rest, visited) = Returned (pq', visited') →
  expansion city path g (get_or_empty adjacency_list city) rest visited pq' visited' ∧
  invariant pq' visited'.
Proof.
  intros Hinv Hperm Hne Hvisit.
  assert (Hexp : expansion city path g (get_or_empty adjacency_list city)
                   rest visited pq' visited').
  { destruct Hinv as (Hok & Hvalid & _). rewrite Hperm in Hok.
    apply Forall_cons_1 in Hok as [(_ & _ & Hg & _) _]. by apply a_star_expand. }
  split; [done|].
  by destruct (a_star_step (S (length (universe adjacency_list start))) f city path g
                 pq rest pq' visited visited') as [Hinv' _]; [lia|..].
Qed.

(** ** What the loop returns *)

Lemma popped_goal_sound (f : num) (path : list string) (g : num)
    (pq rest : list (num * string * list string * num)) (visited : gmap string num) :
  invariant pq visited → pq ≡ₚ (f, goal, path, g) :: rest →
  simple_route adjacency_list start goal path ∧
  total_distance haversine cities path = Returned g ∧ num_zero ≼ g.
Proof.
  intros (Hok & _ & Hphase) Hperm.
  rewrite Hperm in Hok. apply Forall_cons_1 in Hok as [(Hroute & Hsum & Hg & _) _].
  split; [|done]. split; [done|].
  destruct Hphase as [[-> ->]|[[Hne _] Hall]].
  - apply Permutation_singleton_l in Hperm. injection Hperm as <- <- <- <- <-.
    apply NoDup_singleton.
  - rewrite Hperm in Hall.
    apply Forall_cons_1 in Hall as [((pre & -> & Hnodup & Hback) & _) _].
    apply NoDup_app. repeat split; [done | | apply NoDup_singleton].
    intros x Hx ->%list_elem_of_singleton. apply Hne. symmetry. by apply Hback.
Qed.

Lemma a_star_loop_sound (fuel : nat) (pq : list (num * string * list string * num))
    (visited : gmap string num) (path : list string) :
  invariant pq visited →
  a_star_loop haversine fuel goal adjacency_list cities pq visited
    = Returned (Some path) →
  simple_route adjacency_list start goal path ∧
  ∃ g, total_distance haversine cities path = Returned g ∧ num_zero ≼ g.
Proof.
  revert pq visited.
  induction fuel as [|fuel IH]; intros pq visited Hinv; simpl; [discriminate|].
  destruct (heappop a_star_lt pq) as [[[[[f city] p] g] rest]|] eqn:Hpop;
    [|discriminate].
  apply heappop_Permutation in Hpop.
  destruct (decide (city = goal)) as [->|Hne].
  - intros [= <-].
    destruct (popped_goal_sound f p g pq rest visited Hinv Hpop) as [Hroute Hsum].
    eauto.
  - destruct (for_each (a_star_visit haversine goal cities city p g)
                (get_or_empty adjacency_list city) (rest, visited))
      as [[pq' visited']| |] eqn:Hvisit; simpl; try discriminate.
    apply IH. by eapply a_star_iteration.
Qed.

Lemma a_star_loop_finishes (bound fuel : nat)
    (pq : list (num * string * list string * num)) (visited : gmap string num) :
  length (universe adjacency_list start) < bound →
  invariant pq visited →
  frontier_weight bound (a_star_entry <$> pq) < fuel →
  a_star_loop haversine fuel goal adjacency_list cities pq visited ≠ OutOfFuel.
Proof.
  intros Hbound. revert pq visited.
  induction fuel as [|fuel IH]; intros pq visited Hinv Hfuel; simpl; [lia|].
  destruct (heappop a_star_lt pq) as [[[[[f city] p] g] rest]|] eqn:Hpop; [|done].
  apply heappop_Permutation in Hpop.
  destruct (decide (city = goal)) as [->|Hne]; [done|].
  destruct (for_each (a_star_visit haversine goal cities city p g)
              (get_or_empty adjacency_list city) (rest, visited))
    as [[pq' visited']| |] eqn:Hvisit; simpl; [|done|].
  - destruct (a_star_iteration f city p g pq rest pq' visited visited')
      as [Hexp Hinv']; try done.
    destruct (a_star_step bound f city p g pq rest pq' visited visited')
      as [_ Hlt]; try done.
    apply IH; [done | lia].
  - by apply a_star_visits_finish in Hvisit.
Qed.

Lemma a_star_loop_no_error (fuel : nat) (pq : list (num * string * list string * num))
    (visited : gmap string num) (e : exn) :
  (∀ city w, reachable adjacency_list start city →
             w ∈ get_or_empty adjacency_list city →
             defined city w ∧ defined w goal) →
  invariant pq visited →
  a_star_loop haversine fuel goal adjacency_list cities pq visited ≠ Raised e.
Proof.
  intros Hknown. revert pq visited.
  induction fuel as [|fuel IH]; intros pq visited Hinv; simpl; [done|].
  destruct (heappop a_star_lt pq) as [[[[[f city] p] g] rest]|] eqn:Hpop; [|done].
  apply heappop_Permutation in Hpop.
  destruct (decide (city = goal)) as [->|Hne]; [done|].
  destruct (a_star_visits_known city p g (get_or_empty adjacency_list city)
              (rest, visited)) as [[pq' visited'] Hvisit].
  - intros w Hw. apply Hknown; [|done].
    destruct Hinv as (Hok & _). rewrite Hpop in Hok.
    apply Forall_cons_1 in Hok as [(Hroute & _) _]. by exists p.
  - rewrite Hvisit. simpl. apply IH. by eapply a_star_iteration.
Qed.

End AStar.

(** * The route that A* search returns is a shortest one *)

Section TotalDistance.

Context {num : Type} {N : Number num}.
Variable haversine : coord num → coord num → option num.
Variable cities : gmap string (coord num).

Local Abbreviation distance := (name_distance haversine cities).
Local Abbreviation defined := (distance_defined haversine cities).
Local Abbreviation length_of := (route_length haversine cities).
Local Abbreviation legs := (legs_defined haversine cities).

Lemma route_length_cons (acc : num) (a b : string) (route : list string) :
  length_of acc (a :: b :: route) = length_of (num_add acc (distance a b)) (b :: route).
Proof. reflexivity. Qed.

Lemma route_length_snoc (acc : num) (p : list string) (u w : string) :
  last p = Some u →
  length_of acc (p ++ [w]) = num_add (length_of acc p) (distance u w).
Proof.
  revert acc. induction p as [|a [|b p] IH]; intros acc Hlast; [discriminate| |].
  - by injection Hlast as ->.
  - change ((a :: b :: p) ++ [w]) with (a :: b :: (p ++ [w])).
    rewrite !route_length_cons. apply (IH (num_add acc (distance a b))).
    by rewrite last_cons_cons in Hlast.
Qed.

Lemma legs_defined_cons (a b : string) (route : list string) :
  legs (a :: b :: route) ↔ defined a b ∧ legs (b :: route).
Proof. reflexivity. Qed.

Lemma legs_defined_link (p q : list string) (u v : string) :
  legs (p ++ u :: v :: q) → defined u v.
Proof.
  induction p as [|a p IH]; simpl app.
  - by intros [Huv _]%legs_defined_cons.
  - destruct p as [|b p]; simpl app in *.
    + intros [_ Hrest]%legs_defined_cons. by apply IH.
    + intros [_ Hrest]%legs_defined_cons. by apply IH.
Qed.

(** The sum of [main] returns exactly when [haversine] returns on every
    leg, and then it is the length of the route. *)
Lemma sum_legs_returned_iff (acc total : num) (route : list string) :
  sum_legs haversine cities acc route = Returned total ↔
  legs route ∧ total = length_of acc route.
Proof.
  revert acc. induction route as [|a [|b route] IH]; intros acc.
  - simpl. split; [by intros [= <-] | by intros [_ ->]].
  - simpl. split; [by intros [= <-] | by intros [_ ->]].
  - rewrite legs_defined_cons, route_length_cons. split.
    + intros [Hab Hrun]%sum_legs_returned_step. apply IH in Hrun as [Hlegs ->]. done.
    + intros [[Hab Hlegs] ->]. rewrite sum_legs_step by done. apply IH. done.
Qed.

(** The sum fails only on a city without coordinates, with [KeyError],
    or on a leg on which [haversine] raises [ValueError]. *)
Lemma sum_legs_raised (acc : num) (route : list string) (e : exn) :
  sum_legs haversine cities acc route = Raised e →
  (∃ key, e = KeyError key ∧ key ∈ route ∧ cities !! key = None) ∨
  (e = ValueError ∧
   ∃ l1 l2 u v c_u c_v, route = l1 ++ u :: v :: l2 ∧ cities !! u = Some c_u ∧
                        cities !! v = Some c_v ∧ haversine c_u c_v = None).
Proof.
  revert acc. induction route as [|a [|b route] IH]; intros acc; [discriminate..|].
  rewrite sum_legs_cons. unfold getitem at 1 2, call_haversine.
  destruct (cities !! a) as [c_a|] eqn:Ha; simpl.
  - destruct (cities !! b) as [c_b|] eqn:Hb; simpl.
    + destruct (haversine c_a c_b) as [d|] eqn:Hd; simpl.
      * intros [(key & ? & ? & ?)|(? & l1 & l2 & u & v & c_u & c_v & -> & ? & ? & ?)]%IH.
        -- left. exists key. repeat split; auto. by apply list_elem_of_further.
        -- right. split; [done|]. by exists (a :: l1), l2, u, v, c_u, c_v.
      * intros [= <-]. right. split; [done|]. by exists [], route, a, b, c_a, c_b.
    + intros [= <-]. left. exists b. repeat split; [|done].
      apply list_elem_of_further, list_elem_of_here.
  - intros [= <-]. left. exists a. repeat split; [apply list_elem_of_here | done].
Qed.

(** The legs of a route are its pairs of consecutive cities. *)
Lemma legs_defined_lookup (route : list string) :
  legs route ↔
  ∀ i a b, route !! i = Some a → route !! S i = Some b → defined a b.
Proof.
  induction route as [|a [|b route] IH].
  - split; [intros _ i a b; by rewrite lookup_nil | done].
  - split; [|done]. intros _ [|i] a' b; simpl; [done|]. by rewrite lookup_nil.
  - rewrite legs_defined_cons, IH. split.
    + intros [Hab Hrest] [|i] a' b'; simpl.
      * by intros [= <-] [= <-].
      * apply Hrest.
    + intros Hall. split; [by apply (Hall 0)|].
      intros i a' b'. apply (Hall (S i)).
Qed.

Lemma sum_legs_finishes (acc : num) (route : list string) :
  sum_legs haversine cities acc route ≠ OutOfFuel.
Proof.
  revert acc. induction route as [|a [|b route] IH]; intros acc; [discriminate..|].
  rewrite sum_legs_cons. unfold getitem at 1 2, call_haversine.
  destruct (cities !! a); simpl; [|discriminate].
  destruct (cities !! b); simpl; [|discriminate].
  destruct (haversine _ _); simpl; [apply IH | discriminate].
Qed.

(** The cities of a route with a leg have coordinates when its legs are
    defined. *)
Lemma legs_defined_located (route : list string) :
  legs route → 2 ≤ length route → ∀ v, v ∈ route → is_Some (cities !! v).
Proof.
  induction route as [|a [|b route] IH]; [simpl; lia..|].
  intros [Hab Hrest]%legs_defined_cons _ v Hv.
  destruct (defined_located haversine cities a b Hab) as [Ha Hb].
  apply elem_of_cons in Hv as [->|Hv]; [done|].
  destruct route as [|c route].
  - by apply list_elem_of_singleton in Hv as ->.
  - apply IH; [done | simpl; lia | done].
Qed.

End TotalDistance.

Section AStarShortest.

Context {num : Type} {N : Number num} {L : NumberLaws num}.
Variable haversine : coord num → coord num → option num.
Variable adjacency_list : gmap string (list string).
Variable cities : gmap string (coord num).
Variables start goal : string.

Hypothesis haversine_values : haversine_nonneg haversine cities.
Hypothesis consistent : heuristic_consistent haversine adjacency_list cities goal.

Local Abbreviation distance := (name_distance haversine cities).
Local Abbreviation defined := (distance_defined haversine cities).
Local Abbreviation child := (a_star_child haversine cities goal).
Local Abbreviation expansion := (a_star_expansion haversine cities goal).
Local Abbreviation length_of := (route_length haversine cities).
Local Abbreviation legs := (legs_defined haversine cities).
Local Abbreviation entry_ok := (a_star_entry_ok haversine adjacency_list cities start).
Local Abbreviation entry_bound := (a_star_entry_bound haversine cities goal).
Local Abbreviation nonneg_distance := (distance_nonneg haversine cities haversine_values).

Lemma route_length_nonneg (acc : num) (p : list string) :
  num_zero ≼ acc → num_zero ≼ length_of acc p.
Proof.
  revert acc. induction p as [|a [|b p] IH]; intros acc Hacc; [done..|].
  rewrite route_length_cons. apply IH, num_add_nonneg; [done | apply nonneg_distance].
Qed.

(** Along a route to the goal, [g + h] does not go down. *)
Lemma route_length_consistent (s p1 : list string) (u : string) :
  last p1 = Some u → last (p1 ++ s) = Some goal →
  is_walk adjacency_list (p1 ++ s) → legs (p1 ++ s) →
  (∀ v, v ∈ p1 ++ s → defined v goal) →
  num_add (length_of num_zero p1) (distance u goal)
  ≼ num_add (length_of num_zero (p1 ++ s)) (distance goal goal).
Proof.
  revert p1 u. induction s as [|w s IH]; intros p1 u Hu Ht Hwalk Hlegs Hdef.
  - rewrite app_nil_r in *. assert (u = goal) as -> by congruence.
    apply num_nonneg_refl, num_add_nonneg; [|apply nonneg_distance].
    apply route_length_nonneg, num_zero_le.
  - replace (p1 ++ w :: s) with ((p1 ++ [w]) ++ s) in * by (by rewrite <- app_assoc).
    specialize (IH (p1 ++ [w]) w (last_snoc _ _) Ht Hwalk Hlegs Hdef).
    rewrite (route_length_snoc _ _ _ _ u) in IH by done.
    eapply num_le_trans; [|exact IH].
    apply last_Some in Hu as [pre ->].
    rewrite <- !app_assoc in Hwalk, Hlegs. simpl in Hwalk, Hlegs.
    destruct consistent as [Hstep _]. apply Hstep.
    + by apply is_walk_link in Hwalk.
    + apply Hdef. set_solver.
    + by apply legs_defined_link in Hlegs.
    + apply Hdef. set_solver.
    + apply route_length_nonneg, num_zero_le.
Qed.

(** The order of the heap refines the order of the [f]. *)
Lemma a_star_lt_key (a b : num * string * list string * num) :
  a.1.1.1 ≼ a.1.1.1 → b.1.1.1 ≼ b.1.1.1 →
  if a_star_lt a b then a.1.1.1 ≼ b.1.1.1 else b.1.1.1 ≼ a.1.1.1.
Proof.
  destruct a as [[[f1 c1] p1] g1], b as [[[f2 c2] p2] g2]. simpl. intros H1 H2.
  destruct (num_eq f1 f2) eqn:Heq.
  - assert (f1 ≼ f2) by (by apply num_eq_le).
    assert (f2 ≼ f1) by (apply num_not_lt_le; [done | done | by apply num_eq_not_lt]).
    by destruct (match String.compare c1 c2 with Lt => _ | _ => _ end).
  - destruct (num_lt f1 f2) eqn:Hlt; [by apply num_lt_le | by apply num_not_lt_le].
Qed.

Lemma child_bound (city : string) (path : list string) (g : num) (w : string) :
  num_zero ≼ g → entry_bound (child city path g w).
Proof.
  intros Hg _. unfold a_star_child.
  apply num_nonneg_refl, num_add_nonneg; [|apply nonneg_distance].
  apply num_add_nonneg; [done | apply nonneg_distance].
Qed.

Lemma expansion_visited_closed (f : num) (city : string) (path : list string) (g : num)
    (pq rest pq' : list (num * string * list string * num))
    (visited visited' : gmap string num) :
  pq ≡ₚ (f, city, path, g) :: rest → city ≠ goal → num_zero ≼ g →
  visited_closed haversine adjacency_list cities goal pq visited →
  expansion city path g (get_or_empty adjacency_list city) rest visited pq' visited' →
  visited_closed haversine adjacency_list cities goal pq' visited'.
Proof.
  intros Hperm Hne Hg0 Hclosed (ws & -> & _ & Hws & _ & Hle & Hnb & Hnew) v best Hv.
  destruct (Hnew _ _ Hv) as [Hold|[Hin ->]].
  - destruct (Hclosed _ _ Hold) as [(e & He & Hcity & Hg)|[Hvg Hdone]].
    + rewrite Hperm in He. apply elem_of_cons in He as [->|He].
      * simpl in Hcity, Hg. subst v. right. split; [done|].
        intros w Hw. destruct (Hnb _ Hw) as (_ & _ & best_w & Hbw & Hle_w).
        exists best_w. split; [done|].
        eapply num_le_trans; [exact Hle_w|].
        apply num_add_mono; [done | done | apply nonneg_distance].
      * left. exists e. split; [|done]. apply elem_of_app. by left.
    + right. split; [done|]. intros w Hw.
      destruct (Hdone _ Hw) as (best_w & Hbw & Hle_w).
      destruct (Hle _ _ Hbw) as (best_w' & Hbw' & Hle_w').
      exists best_w'. split; [done|]. by eapply num_le_trans.
  - left. exists (child city path g v). split.
    + apply elem_of_app. right. by apply list_elem_of_fmap_2.
    + simpl. split; [done|].
      apply num_nonneg_refl, num_add_nonneg; [done | apply nonneg_distance].
Qed.

Local Abbreviation invariant :=
  (shortest_invariant haversine adjacency_list cities start goal).

Lemma shortest_initial : invariant [(num_zero, start, [start], num_zero)] ∅.
Proof.
  split; [by apply a_star_initial|]. split.
  - intros v best Hv. by rewrite lookup_empty in Hv.
  - apply Forall_singleton. intros _.
    apply num_add_le; [apply num_zero_le | apply nonneg_distance].
Qed.

(** The loop body on the entry popped, when it does not fail. *)
Lemma shortest_iteration (f : num) (city : string) (path : list string) (g : num)
    (pq rest pq' : list (num * string * list string * num))
    (visited visited' : gmap string num) :
  invariant pq visited →
  pq ≡ₚ (f, city, path, g) :: rest → city ≠ goal →
  for_each (a_star_visit haversine goal cities city path g)
    (get_or_empty adjacency_list city) (rest, visited) = Returned (pq', visited') →
  expansion city path g (get_or_empty adjacency_list city) rest visited pq' visited' ∧
  invariant pq' visited'.
Proof.
  intros (Hinv & Hclosed & Hbound) Hperm Hne Hvisit.
  destruct (a_star_iteration haversine adjacency_list cities start goal haversine_values
              f city path g pq rest pq' visited visited' Hinv Hperm Hne Hvisit)
    as [Hexp Hinv'].
  assert (Hg : num_zero ≼ g).
  { destruct Hinv as (Hok & _). rewrite Hperm in Hok.
    by apply Forall_cons_1 in Hok as [(_ & _ & Hg & _) _]. }
  split; [done|]. split; [done|]. split.
  - by eapply expansion_visited_closed.
  - destruct Hexp as (ws & -> & _). rewrite Hperm in Hbound.
    apply Forall_cons_1 in Hbound as [_ Hrest].
    apply Forall_app. split; [done|].
    apply Forall_forall. intros e (w & -> & Hw)%list_elem_of_fmap.
    by apply child_bound.
Qed.

Lemma route_on_heap_chase (p : list string) (pq : list (num * string * list string * num))
    (visited : gmap string num) (s p1 : list string) (u : string) (best : num) :
  visited_closed haversine adjacency_list cities goal pq visited →
  visited_valid visited →
  is_walk adjacency_list p → last p = Some goal →
  p = p1 ++ s → last p1 = Some u →
  visited !! u = Some best → best ≼ length_of num_zero p1 →
  route_on_heap haversine cities p pq.
Proof.
  intros Hclosed Hvalid Hwalk Hgoal. revert p1 u best.
  induction s as [|w s IH]; intros p1 u best Hp Hu Hbest Hle.
  - rewrite app_nil_r in Hp. subst p1.
    destruct (Hclosed _ _ Hbest) as [(e & He & Hcity & Hg)|[Hne _]]; [|congruence].
    exists p, e. repeat split; [done | done | by rewrite Hcity |].
    by eapply num_le_trans.
  - destruct (Hclosed _ _ Hbest) as [(e & He & Hcity & Hg)|[Hne Hnb]].
    + exists p1, e. repeat split; [by exists (w :: s) | done | by rewrite Hcity |].
      by eapply num_le_trans.
    + assert (Hw : w ∈ get_or_empty adjacency_list u).
      { apply last_Some in Hu as [pre ->]. rewrite Hp, <- app_assoc in Hwalk.
        by apply is_walk_link in Hwalk. }
      destruct (Hnb _ Hw) as (best_w & Hbw & Hlew).
      apply (IH (p1 ++ [w]) w best_w).
      * by rewrite <- app_assoc.
      * apply last_snoc.
      * done.
      * rewrite (route_length_snoc _ _ _ _ u) by done.
        eapply num_le_trans; [exact Hlew|].
        apply num_add_mono; [by eapply Hvalid | done | apply nonneg_distance].
Qed.

Lemma route_on_heap_step (p : list string) (f : num) (city : string) (path : list string)
    (g : num) (pq rest pq' : list (num * string * list string * num))
    (visited visited' : gmap string num) :
  route_from_to adjacency_list start goal p →
  pq ≡ₚ (f, city, path, g) :: rest → city ≠ goal → num_zero ≼ g →
  expansion city path g (get_or_empty adjacency_list city) rest visited pq' visited' →
  visited_closed haversine adjacency_list cities goal pq' visited' →
  route_on_heap haversine cities p pq → route_on_heap haversine cities p pq'.
Proof.
  intros (_ & Hgoal & Hwalk) Hperm Hne Hg Hexp Hclosed
    (p1 & e & Hprefix & He & Hlast & Hle).
  rewrite Hperm in He. apply elem_of_cons in He as [->|He].
  - simpl in Hlast, Hle. destruct Hprefix as [s Hp].
    destruct s as [|w s]; [rewrite app_nil_r in Hp; congruence|].
    assert (Hw : w ∈ get_or_empty adjacency_list city).
    { apply last_Some in Hlast as [pre ->]. rewrite Hp, <- app_assoc in Hwalk.
      by apply is_walk_link in Hwalk. }
    destruct Hexp as (ws & _ & _ & _ & Hvalid' & _ & Hnb & _).
    destruct (Hnb _ Hw) as (_ & _ & best & Hbest & Hbg).
    apply (route_on_heap_chase p pq' visited' s (p1 ++ [w]) w best); try done.
    + by rewrite <- app_assoc.
    + apply last_snoc.
    + rewrite (route_length_snoc _ _ _ _ city) by done.
      eapply num_le_trans; [exact Hbg|].
      apply num_add_mono; [done | done | apply nonneg_distance].
  - destruct Hexp as (ws & -> & _).
    exists p1, e. repeat split; try done. apply elem_of_app. by left.
Qed.

Lemma popped_goal_optimal (p : list string) (f : num) (path : list string) (g : num)
    (pq rest : list (num * string * list string * num)) (visited : gmap string num) :
  route_from_to adjacency_list start goal p → legs p →
  (∀ v, v ∈ p → defined v goal) →
  invariant pq visited →
  heappop a_star_lt pq = Some ((f, goal, path, g), rest) →
  route_on_heap haversine cities p pq →
  g ≼ length_of num_zero p.
Proof.
  intros (_ & Hgoal & Hwalk) Hlegs Hdef ((Hok & _) & _ & Hbound) Hpop
    (p1 & e & [s Hp] & He & Hlast & Hle).
  rewrite Forall_forall in Hok. rewrite Forall_forall in Hbound.
  assert (Hvalid : ∀ a, a ∈ pq → a.1.1.1 ≼ a.1.1.1).
  { intros [[[fa ca] pa] ga] Ha. destruct (Hok _ Ha) as (_ & _ & _ & Hgf).
    by apply num_le_refl_r in Hgf. }
  pose proof (heappop_least a_star_lt (λ e, e.1.1.1) (λ x y, x ≼ y) pq rest _
                num_le_trans (λ a b Ha Hb, a_star_lt_key a b (Hvalid a Ha) (Hvalid b Hb))
                Hpop) as Hleast.
  apply heappop_Permutation in Hpop.
  assert (Hpopped : (f, goal, path, g) ∈ pq) by (rewrite Hpop; apply list_elem_of_here).
  destruct (Hok _ Hpopped) as (_ & _ & _ & Hgf).
  assert (Hfe : f ≼ e.1.1.1).
  { rewrite Hpop in He. apply elem_of_cons in He as [->|He]; [|by apply (Hleast _ He)].
    by apply (Hvalid _ Hpopped). }
  pose proof (Hok _ He) as Hoke. pose proof (Hbound _ He) as Hbe.
  destruct e as [[[fe ce] pe] ge]. simpl in *.
  destruct Hoke as (_ & _ & Hge & _).
  assert (Hce : defined ce goal).
  { apply Hdef. subst p. apply last_Some in Hlast as [pre ->]. set_solver. }
  subst p.
  eapply num_le_trans; [exact Hgf|]. eapply num_le_trans; [exact Hfe|].
  eapply num_le_trans; [by apply Hbe|].
  eapply num_le_trans.
  { apply num_add_mono; [exact Hge | exact Hle | apply nonneg_distance]. }
  eapply num_le_trans; [by apply (route_length_consistent s p1 ce)|].
  destruct consistent as [_ Hend]. apply Hend.
  - apply Hdef. apply last_Some in Hgoal as [pre ->]. set_solver.
  - apply route_length_nonneg, num_zero_le.
Qed.

Lemma a_star_loop_optimal (p : list string) (fuel : nat)
    (pq : list (num * string * list string * num)) (visited : gmap string num)
    (path : list string) :
  route_from_to adjacency_list start goal p → legs p →
  (∀ v, v ∈ p → defined v goal) →
  invariant pq visited →
  route_on_heap haversine cities p pq →
  a_star_loop haversine fuel goal adjacency_list cities pq visited
    = Returned (Some path) →
  ∃ g, total_distance haversine cities path = Returned g ∧ g ≼ length_of num_zero p.
Proof.
  intros Hp Hlegs Hdef. revert pq visited.
  induction fuel as [|fuel IH]; intros pq visited Hinv Hheap; simpl; [discriminate|].
  destruct (heappop a_star_lt pq) as [[[[[f city] p0] g] rest]|] eqn:Hpop;
    [|discriminate].
  destruct (decide (city = goal)) as [->|Hne].
  - intros [= <-]. exists g. split.
    + apply heappop_Permutation in Hpop. destruct Hinv as [Hinv _].
      by destruct (popped_goal_sound haversine adjacency_list cities start goal
                     f p0 g pq rest visited Hinv Hpop) as (_ & ? & _).
    + by eapply popped_goal_optimal.
  - apply heappop_Permutation in Hpop.
    destruct (for_each (a_star_visit haversine goal cities city p0 g)
                (get_or_empty adjacency_list city) (rest, visited))
      as [[pq' visited']| |] eqn:Hvisit; simpl; try discriminate.
    destruct (shortest_iteration f city p0 g pq rest pq' visited visited')
      as [Hexp Hinv']; try done.
    apply IH; [done|]. eapply route_on_heap_step; try done.
    + destruct Hinv as ((Hok & _) & _). rewrite Hpop in Hok.
      by apply Forall_cons_1 in Hok as [(_ & _ & Hg & _) _].
    + by destruct Hinv' as (_ & ? & _).
Qed.

(** A route that [a_star_search] returns is no longer than any route
    from start to goal whose legs and whose distances to the goal
    [haversine] returns. *)
Lemma a_star_search_optimal (p : list string) (fuel : nat) (path : list string)
    (total : num) :
  route_from_to adjacency_list start goal p →
  total_distance haversine cities p = Returned total →
  (∀ v, v ∈ p → defined v goal) →
  a_star_search haversine fuel start goal adjacency_list cities = Returned (Some path) →
  ∃ g, total_distance haversine cities path = Returned g ∧ g ≼ total.
Proof.
  intros Hroute [Hlegs ->]%sum_legs_returned_iff Hdef Hrun.
  apply (a_star_loop_optimal p fuel [(num_zero, start, [start], num_zero)] ∅ path);
    try done; [apply shortest_initial|].
  exists [start], (num_zero, start, [start], num_zero). repeat split; simpl.
  - destruct Hroute as (Hhead & _). destruct p as [|a q]; [discriminate|].
    injection Hhead as ->. by exists q.
  - apply list_elem_of_here.
  - apply num_zero_le.
Qed.

End AStarShortest.

(** * The sample distance *)

Lemma taxicab_value_nonneg (a b : coord Q) : (0 <= taxicab_value a b)%Q.
Proof.
  unfold taxicab_value.
  pose proof (Qabs_nonneg (a.1 - b.1)). pose proof (Qabs_nonneg (a.2 - b.2)). lra.
Qed.

Lemma taxicab_value_self (a : coord Q) : (taxicab_value a a == 0)%Q.
Proof.
  unfold taxicab_value.
  assert (H1 : (a.1 - a.1 == 0)%Q) by lra. assert (H2 : (a.2 - a.2 == 0)%Q) by lra.
  rewrite H1, H2. reflexivity.
Qed.

Lemma taxicab_value_triangle (a b c : coord Q) :
  (taxicab_value a c <= taxicab_value a b + taxicab_value b c)%Q.
Proof.
  unfold taxicab_value.
  assert (H1 : (a.1 - c.1 == (a.1 - b.1) + (b.1 - c.1))%Q) by lra.
  assert (H2 : (a.2 - c.2 == (a.2 - b.2) + (b.2 - c.2))%Q) by lra.
  rewrite H1, H2.
  pose proof (Qabs_triangle (a.1 - b.1) (b.1 - c.1)).
  pose proof (Qabs_triangle (a.2 - b.2) (b.2 - c.2)). lra.
Qed.

Lemma taxicab_nonneg (cities : gmap string (coord Q)) : haversine_nonneg taxicab cities.
Proof.
  intros u v a b d _ _ [= <-]. apply Q_le_spec. apply taxicab_value_nonneg.
Qed.

Lemma taxicab_distance (cities : gmap string (coord Q)) (u v : string) :
  distance_defined taxicab cities u v →
  ∃ a b, cities !! u = Some a ∧ cities !! v = Some b ∧
         name_distance taxicab cities u v = taxicab_value a b.
Proof.
  intros (a & b & Hu & Hv & Hd)%defined_distance. exists a, b.
  injection Hd as <-. done.
Qed.

(** In exact arithmetic, the triangle inequality makes the distance to
    the goal consistent. *)
Lemma taxicab_consistent (adjacency_list : gmap string (list string))
    (cities : gmap string (coord Q)) (goal : string) :
  heuristic_consistent taxicab adjacency_list cities goal.
Proof.
  split.
  - intros u w g _ (a & c & Hu & Hgoal & ->)%taxicab_distance
      (a' & b & Hu' & Hw & ->)%taxicab_distance
      (b' & c' & Hw' & Hgoal' & ->)%taxicab_distance Hg.
    assert (a' = a) as -> by congruence. assert (b' = b) as -> by congruence.
    assert (c' = c) as -> by congruence.
    apply Q_le_spec. simpl. pose proof (taxicab_value_triangle a b c). lra.
  - intros g (c & c' & Hgoal & Hgoal' & ->)%taxicab_distance Hg.
    assert (c' = c) as -> by congruence.
    apply Q_le_spec. simpl. pose proof (taxicab_value_self c). lra.
Qed.

(** * Main results about the searches *)

Section Claims.

Context {num : Type} {N : Number num}.
Variable haversine : coord num → coord num → option num.

(** C7: [dfs] returns exactly what [brute_force_search] returns on the
    same start, goal and adjacency map, whatever the location map given
    to [brute_force_search]. *)
Theorem dfs_same_as_brute_force (fuel : nat) (start goal : string)
    (adjacency_list : gmap string (list string)) (cities : gmap string (coord num)) :
  dfs fuel start goal adjacency_list
  = brute_force_search fuel start goal adjacency_list cities.
Proof.
  unfold dfs, brute_force_search. apply dfs_loop_brute_force_loop.
Qed.

(** C4, amended: when start equals goal and the location map contains
    it, [brute_force_search], [bfs], [dfs] and [a_star_search] return the
    path [[start]], whatever the adjacency map; [best_first_search] first
    calls [haversine] on the coordinates of start: it returns [[start]]
    when that call returns and raises [ValueError] when that call
    does. *)
Theorem start_is_goal (choice : method) (fuel : nat) (start : string)
    (adjacency_list : gmap string (list string)) (cities : gmap string (coord num))
    (c : coord num) :
  cities !! start = Some c →
  search_methods haversine choice (S fuel) start start adjacency_list cities
  = match choice, haversine c c with
    | BestFirst, None => Raised ValueError
    | _, _ => Returned (Some [start])
    end.
Proof.
  intros Hc.
  destruct choice; simpl;
    unfold brute_force_search, bfs, dfs, best_first_search, a_star_search,
      call_haversine, getitem;
    rewrite ?Hc; simpl; try (by rewrite decide_True).
  destruct (haversine c c); simpl; [by rewrite decide_True | done].
Qed.

Lemma brute_force_search_simple (fuel : nat) (start goal : string)
    (adjacency_list : gmap string (list string)) (cities : gmap string (coord num))
    (path : list string) :
  brute_force_search fuel start goal adjacency_list cities = Returned (Some path) →
  simple_route adjacency_list start goal path.
Proof.
  unfold brute_force_search. intros Hrun.
  destruct (brute_force_loop_explores adjacency_list goal fuel [(start, [start])])
    as [Hout|(result & Hres & Hexp)]; [congruence|].
  rewrite Hrun in Hres. injection Hres as <-.
  eapply explores_sound; [exact Hexp | apply start_sound | done].
Qed.

Lemma bfs_simple (fuel : nat) (start goal : string)
    (adjacency_list : gmap string (list string)) (path : list string) :
  bfs fuel start goal adjacency_list = Returned (Some path) →
  simple_route adjacency_list start goal path.
Proof.
  unfold bfs. intros Hrun.
  destruct (bfs_loop_explores adjacency_list goal fuel [(start, [start])])
    as [Hout|(result & Hres & Hexp)]; [congruence|].
  rewrite Hrun in Hres. injection Hres as <-.
  eapply explores_sound; [exact Hexp | apply start_sound | done].
Qed.

(** What [best_first_search] does before its loop. *)
Lemma best_first_search_started (fuel : nat) (start goal : string)
    (adjacency_list : gmap string (list string)) (cities : gmap string (coord num)) :
  distance_defined haversine cities start goal →
  ∃ h, best_first_search haversine fuel start goal adjacency_list cities
       = best_first_loop haversine fuel goal adjacency_list cities [(h, start, [start])].
Proof.
  intros (c_start & c_goal & h & Hs & Hg & Hh). exists h.
  unfold best_first_search, call_haversine, getitem.
  by rewrite Hs, Hg; simpl; rewrite Hh.
Qed.

Lemma best_first_search_returned (fuel : nat) (start goal : string)
    (adjacency_list : gmap string (list string)) (cities : gmap string (coord num))
    (result : option (list string)) :
  best_first_search haversine fuel start goal adjacency_list cities = Returned result →
  distance_defined haversine cities start goal.
Proof.
  unfold best_first_search, call_haversine, getitem.
  destruct (cities !! start) as [c_start|] eqn:Hstart; simpl; [|discriminate].
  destruct (cities !! goal) as [c_goal|] eqn:Hgoal; simpl; [|discriminate].
  destruct (haversine c_start c_goal) as [h|] eqn:Hh; simpl; [|discriminate].
  intros _. by exists c_start, c_goal, h.
Qed.

Lemma best_first_search_simple (fuel : nat) (start goal : string)
    (adjacency_list : gmap string (list string)) (cities : gmap string (coord num))
    (path : list string) :
  best_first_search haversine fuel start goal adjacency_list cities
    = Returned (Some path) →
  simple_route adjacency_list start goal path ∧
  ∀ v, v ∈ path → distance_defined haversine cities v goal.
Proof.
  intros Hrun. pose proof (best_first_search_returned _ _ _ _ _ _ Hrun) as Hdef.
  destruct (best_first_search_started fuel start goal adjacency_list cities Hdef)
    as [h Hstart].
  rewrite Hstart in Hrun. split.
  - apply best_first_loop_explores in Hrun as Hexp.
    eapply explores_sound; [exact Hexp | apply start_sound | done].
  - eapply best_first_loop_located; [exact Hrun|].
    apply Forall_singleton. by intros v ->%list_elem_of_singleton.
Qed.

Context {L : NumberLaws num}.

Lemma search_methods_simple (choice : method) (fuel : nat)
    (start goal : string) (adjacency_list : gmap string (list string))
    (cities : gmap string (coord num)) (path : list string) :
  (choice = AStar → haversine_nonneg haversine cities) →
  search_methods haversine choice fuel start goal adjacency_list cities
    = Returned (Some path) →
  simple_route adjacency_list start goal path.
Proof.
  intros Hnonneg Hrun. destruct choice; simpl in Hrun.
  - exact (brute_force_search_simple fuel start goal adjacency_list cities path Hrun).
  - by eapply bfs_simple.
  - unfold dfs in Hrun. rewrite dfs_loop_brute_force_loop in Hrun.
    exact (brute_force_search_simple fuel start goal adjacency_list cities path Hrun).
  - by eapply best_first_search_simple.
  - eapply a_star_loop_sound; [by apply Hnonneg | by apply a_star_initial | exact Hrun].
Qed.


(** When the lookups and the calls of [haversine] succeed, so does what
    the searches do with them. *)
Lemma known_goal_defined (start goal city : string)
    (adjacency_list : gmap string (list string)) (cities : gmap string (coord num)) :
  coordinates_known adjacency_list cities start goal →
  goal_distances_known haversine adjacency_list cities start goal →
  reachable adjacency_list start city →
  distance_defined haversine cities city goal.
Proof.
  intros [[c_goal Hgoal] Hknown] Hdist Hreach.
  destruct (Hknown _ Hreach) as [c Hc].
  destruct (Hdist city c c_goal Hreach Hc Hgoal) as [d Hd].
  by exists c, c_goal, d.
Qed.

Lemma known_edge_defined (start goal city w : string)
    (adjacency_list : gmap string (list string)) (cities : gmap string (coord num)) :
  coordinates_known adjacency_list cities start goal →
  edge_distances_known haversine adjacency_list cities start →
  reachable adjacency_list start city →
  w ∈ get_or_empty adjacency_list city →
  distance_defined haversine cities city w.
Proof.
  intros [_ Hknown] Hdist Hreach Hw.
  assert (Hreach_w : reachable adjacency_list start w).
  { destruct Hreach as [p Hp]. by eapply reachable_step. }
  destruct (Hknown _ Hreach) as [c Hc]. destruct (Hknown _ Hreach_w) as [c_w Hc_w].
  destruct (Hdist city w c c_w Hreach Hw Hc Hc_w) as [d Hd].
  by exists c, c_w, d.
Qed.

Lemma search_ready_nonneg (choice : method) (start goal : string)
    (adjacency_list : gmap string (list string)) (cities : gmap string (coord num)) :
  search_ready haversine choice adjacency_list cities start goal →
  choice = AStar → haversine_nonneg haversine cities.
Proof. intros Hready ->. by destruct Hready as (_ & _ & _ & ?). Qed.

Lemma search_ready_known (choice : method) (start goal : string)
    (adjacency_list : gmap string (list string)) (cities : gmap string (coord num)) :
  search_ready haversine choice adjacency_list cities start goal →
  uses_coordinates choice = true →
  coordinates_known adjacency_list cities start goal ∧
  goal_distances_known haversine adjacency_list cities start goal.
Proof.
  destruct choice; simpl; try discriminate; [by intros [? ?] | by intros (? & ? & ?)].
Qed.

(** On enough fuel a search finishes. *)
Lemma search_methods_finishes (choice : method) (start goal : string)
    (adjacency_list : gmap string (list string)) (cities : gmap string (coord num))
    (fuel : nat) :
  (choice = AStar → haversine_nonneg haversine cities) →
  enough_fuel adjacency_list start ≤ fuel →
  search_methods haversine choice fuel start goal adjacency_list cities ≠ OutOfFuel.
Proof.
  intros Hnonneg Hfuel.
  pose proof (start_weight adjacency_list start fuel Hfuel) as Hweight.
  destruct choice; simpl.
  - by eapply brute_force_loop_finishes; [apply universe_bound | apply start_sound |].
  - by eapply bfs_loop_finishes; [apply universe_bound | apply start_sound |].
  - unfold dfs. rewrite dfs_loop_brute_force_loop.
    by eapply brute_force_loop_finishes; [apply universe_bound | apply start_sound |].
  - unfold best_first_search, call_haversine, getitem.
    destruct (cities !! start) as [c_start|]; simpl; [|discriminate].
    destruct (cities !! goal) as [c_goal|]; simpl; [|discriminate].
    destruct (haversine c_start c_goal) as [h|]; simpl; [|discriminate].
    by eapply best_first_loop_finishes; [apply universe_bound | apply start_sound |].
  - apply (a_star_loop_finishes haversine adjacency_list cities start goal
             (Hnonneg eq_refl) (S (length (universe adjacency_list start)))).
    + apply Nat.lt_succ_diag_r.
    + apply a_star_initial.
    + exact Hweight.
Qed.

(** With the coordinates and the distances known, a search raises no
    exception. *)
Lemma search_methods_no_error (choice : method) (start goal : string)
    (adjacency_list : gmap string (list string)) (cities : gmap string (coord num))
    (fuel : nat) (e : exn) :
  search_ready haversine choice adjacency_list cities start goal →
  search_methods haversine choice fuel start goal adjacency_list cities ≠ Raised e.
Proof.
  intros Hready. pose proof (search_ready_known _ _ _ _ _ Hready) as Hknown.
  pose proof (search_ready_nonneg _ _ _ _ _ Hready) as Hnonneg.
  destruct choice; simpl.
  - unfold brute_force_search.
    by destruct (brute_force_loop_explores adjacency_list goal fuel [(start, [start])])
      as [->|(result & -> & _)].
  - unfold bfs.
    by destruct (bfs_loop_explores adjacency_list goal fuel [(start, [start])])
      as [->|(result & -> & _)].
  - unfold dfs. rewrite dfs_loop_brute_force_loop.
    by destruct (brute_force_loop_explores adjacency_list goal fuel [(start, [start])])
      as [->|(result & -> & _)].
  - destruct (Hknown eq_refl) as [Hcoord Hdist].
    destruct (best_first_search_started fuel start goal adjacency_list cities)
      as [h ->].
    { eapply known_goal_defined; [done | done | apply reachable_refl]. }
    apply (best_first_loop_no_error haversine adjacency_list cities start);
      [|apply start_sound].
    intros city Hreach. by eapply known_goal_defined.
  - destruct Hready as (Hcoord & Hgoal & Hedge & _).
    apply (a_star_loop_no_error haversine adjacency_list cities start);
      [by apply Hnonneg | | apply a_star_initial].
    intros city w Hreach Hw. split; [by eapply known_edge_defined|].
    eapply known_goal_defined; [done | done |].
    destruct Hreach as [p Hp]. by eapply reachable_step.
Qed.

(** On enough fuel a search that is ready returns. *)
Lemma search_methods_returns (choice : method) (start goal : string)
    (adjacency_list : gmap string (list string)) (cities : gmap string (coord num))
    (fuel : nat) :
  search_ready haversine choice adjacency_list cities start goal →
  enough_fuel adjacency_list start ≤ fuel →
  ∃ result,
    search_methods haversine choice fuel start goal adjacency_list cities
    = Returned result.
Proof.
  intros Hready Hfuel.
  pose proof (search_methods_finishes choice start goal adjacency_list cities fuel
                (search_ready_nonneg _ _ _ _ _ Hready) Hfuel) as Hfin.
  pose proof (search_methods_no_error choice start goal adjacency_list cities fuel)
    as Herr.
  destruct (search_methods haversine choice fuel start goal adjacency_list cities)
    as [result|e|]; [eauto | by destruct (Herr e) | done].
Qed.


(** C2: when the goal can be reached, [bfs] returns a simple route with
    the fewest edges: no simple route from start to goal has fewer, and
    so neither has a path returned by [brute_force_search] or [dfs]. *)
Theorem bfs_finds_fewest_edges (start goal : string)
    (adjacency_list : gmap string (list string)) :
  reachable adjacency_list start goal →
  ∃ path,
    (∀ fuel, enough_fuel adjacency_list start ≤ fuel →
             bfs fuel start goal adjacency_list = Returned (Some path)) ∧
    simple_route adjacency_list start goal path ∧
    (∀ q, simple_route adjacency_list start goal q → edge_count path ≤ edge_count q) ∧
    (∀ fuel (cities : gmap string (coord num)) q,
        brute_force_search fuel start goal adjacency_list cities = Returned (Some q) →
        edge_count path ≤ edge_count q) ∧
    (∀ fuel q,
        dfs fuel start goal adjacency_list = Returned (Some q) →
        edge_count path ≤ edge_count q).
Proof.
  intros [q0 Hq0]%reachable_simple.
  set (fuel0 := enough_fuel adjacency_list start).
  assert (Hlevel : level_ordered 1 [(start, [start])]).
  { exists [(start, [start])], []. repeat split; by repeat constructor. }
  assert (Hshort : ∀ q result,
             simple_route adjacency_list start goal q →
             bfs fuel0 start goal adjacency_list = Returned result →
             ∃ path, result = Some path ∧ length path ≤ length q).
  { intros q result Hq Hrun.
    apply (bfs_loop_shortest adjacency_list start goal q fuel0 [(start, [start])] 1
             result Hq); [apply start_sound | exact Hlevel | | exact Hrun].
    exists (start, [start]). split; [apply list_elem_of_here|]. simpl.
    destruct Hq as [(Hhead & _) _]. destruct q as [|a q]; [discriminate|].
    injection Hhead as ->. by exists q. }
  destruct (bfs_loop_explores adjacency_list goal fuel0 [(start, [start])])
    as [Hout|(result & Hrun & Hexp)].
  { exfalso. eapply (bfs_loop_finishes adjacency_list start goal); [| |by apply
      (start_weight adjacency_list start fuel0)|exact Hout];
      [apply universe_bound | apply start_sound]. }
  destruct (Hshort q0 result Hq0 Hrun) as (path & -> & _).
  assert (Hmin : ∀ q, simple_route adjacency_list start goal q →
                      edge_count path ≤ edge_count q).
  { intros q Hq. destruct (Hshort q _ Hq Hrun) as (path' & [= <-] & Hle).
    unfold edge_count. lia. }
  exists path. split; [|split; [|split; [|split]]].
  - intros fuel Hfuel. by apply (bfs_loop_fuel_mono adjacency_list goal fuel0).
  - by eapply bfs_simple.
  - exact Hmin.
  - intros fuel cities q Hq.
    exact (Hmin q (brute_force_search_simple fuel start goal adjacency_list cities q Hq)).
  - intros fuel q Hq. unfold dfs in Hq. rewrite dfs_loop_brute_force_loop in Hq.
    exact (Hmin q (brute_force_search_simple fuel start goal adjacency_list
                     (∅ : gmap string (coord num)) q Hq)).
Qed.


End Claims.

(** * The results on sample data *)

Example split_fields :
  split (strip "  Z 	  X  
") = ["Z"; "X"] ∧ split (strip " 
") = [] ∧
  split (strip "A B C") = ["A"; "B"; "C"].
Proof. repeat split; reflexivity. Qed.

(** A blank line and a line with one name are skipped; "A A" makes A its
    own neighbour twice. *)
Example load_adjacency_skips :
  load_adjacency [""; "X"; "A A"] = Returned (<["A" := ["A"; "A"]]> ∅).
Proof. vm_compute. reflexivity. Qed.

(** A row with two fields is skipped. *)
Example load_cities_skips :
  load_cities sample_float [["X"; "1"; "2"]; ["Y"; "3"]]
  = Returned (<["X" := (1, 2)%Q]> ∅).
Proof. vm_compute. reflexivity. Qed.

Example sample_adjacency_loaded :
  load_adjacency ["X Y"; "Y Z"] = Returned sample_adjacency.
Proof. vm_compute. reflexivity. Qed.

Example triangle_adjacency_loaded :
  load_adjacency ["X Z"; "X Y"; "Y Z"] = Returned triangle_adjacency.
Proof. vm_compute. reflexivity. Qed.

Example equator_adjacency_loaded :
  load_adjacency ["S D"; "D G"; "S B"; "B E"; "E G"] = Returned equator_adjacency.
Proof. vm_compute. reflexivity. Qed.

Example antipodal_adjacency_loaded :
  load_adjacency ["P Q"] = Returned antipodal_adjacency.
Proof. vm_compute. reflexivity. Qed.

(** The example of the specification: every search returns X, Y, Z. *)
Example sample_routes (choice : method) :
  search_methods taxicab choice 10 "X" "Z" sample_adjacency sample_cities
  = Returned (Some ["X"; "Y"; "Z"]).
Proof. destruct choice; vm_compute; reflexivity. Qed.

(** On the triangle, [dfs] goes round and [bfs] goes straight. *)
Example triangle_routes :
  dfs 10 "X" "Z" triangle_adjacency = Returned (Some ["X"; "Y"; "Z"]) ∧
  bfs 10 "X" "Z" triangle_adjacency = Returned (Some ["X"; "Z"]).
Proof. split; vm_compute; reflexivity. Qed.

(** On the detour map, [best_first_search] is misled through A. *)
Example detour_routes :
  best_first_search taxicab 10 "S" "G" detour_adjacency detour_cities
  = Returned (Some ["S"; "A"; "G"]) ∧
  a_star_search taxicab 10 "S" "G" detour_adjacency detour_cities
  = Returned (Some ["S"; "B"; "G"]) ∧
  total_distance taxicab detour_cities ["S"; "A"; "G"] = Returned (20 # 1)%Q ∧
  total_distance taxicab detour_cities ["S"; "B"; "G"] = Returned (10 # 1)%Q.
Proof. repeat split; vm_compute; reflexivity. Qed.

(** In binary64 arithmetic the sum of the legs depends on the direction
    in which a route is travelled. *)
Example equator_there_and_back :
  total_distance (tabulated equator_distances) equator_cities ["S"; "D"; "B"; "E"; "G"]
  = Returned 0x1.d894148748deap+10%float ∧
  total_distance (tabulated equator_distances) equator_cities ["G"; "E"; "B"; "D"; "S"]
  = Returned 0x1.d894148748debp+10%float.
Proof. split; vm_compute; reflexivity. Qed.

Lemma sample_reachable : reachable sample_adjacency "X" "Z".
Proof.
  exists ["X"; "Y"; "Z"]. repeat split; vm_compute; repeat constructor.
Qed.

Lemma sample_closed :
  Forall (λ u, Forall (λ v, v ∈ ["X"; "Y"; "Z"]) (get_or_empty sample_adjacency u))
    ["X"; "Y"; "Z"].
Proof. vm_compute. repeat constructor. Qed.

Lemma sample_unreachable : ¬ reachable sample_adjacency "X" "W".
Proof.
  apply (closed_set_unreachable sample_adjacency ["X"; "Y"; "Z"]).
  - exact sample_closed.
  - apply list_elem_of_here.
  - intros Hin. repeat (apply elem_of_cons in Hin as [Heq|Hin]; [discriminate|]).
    by apply not_elem_of_nil in Hin.
Qed.

Lemma island_coordinates_known :
  coordinates_known sample_adjacency island_cities "X" "W".
Proof.
  split; [by eexists|]. intros city Hreach.
  destruct (decide (city ∈ ["X"; "Y"; "Z"])) as [Hin|Hout].
  - repeat (apply elem_of_cons in Hin as [->|Hin]; [by eexists|]).
    by apply not_elem_of_nil in Hin.
  - exfalso. revert Hreach.
    apply (closed_set_unreachable sample_adjacency ["X"; "Y"; "Z"]);
      [exact sample_closed | apply list_elem_of_here | done].
Qed.

(** The sample distance returns on every pair of coordinates. *)
Lemma taxicab_goal_distances_known (adjacency_list : gmap string (list string))
    (cities : gmap string (coord Q)) (start goal : string) :
  goal_distances_known taxicab adjacency_list cities start goal.
Proof. intros u c_u c_goal _ _ _. by eexists. Qed.

Lemma taxicab_edge_distances_known (adjacency_list : gmap string (list string))
    (cities : gmap string (coord Q)) (start : string) :
  edge_distances_known taxicab adjacency_list cities start.
Proof. intros u v c_u c_v _ _ _ _. by eexists. Qed.

Lemma taxicab_ready (choice : method) (adjacency_list : gmap string (list string))
    (cities : gmap string (coord Q)) (start goal : string) :
  coordinates_known adjacency_list cities start goal →
  search_ready taxicab choice adjacency_list cities start goal.
Proof.
  intros Hknown. destruct choice; simpl; auto.
  - split; [done | apply taxicab_goal_distances_known].
  - split; [done|]. split; [apply taxicab_goal_distances_known|].
    split; [apply taxicab_edge_distances_known | apply taxicab_nonneg].
Qed.

Lemma no_road_unreachable (start goal : string) :
  start ≠ goal → ¬ reachable (∅ : gmap string (list string)) start goal.
Proof.
  intros Hne. apply (closed_set_unreachable ∅ [start]).
  - apply Forall_singleton. unfold get_or_empty. rewrite lookup_empty. constructor.
  - apply list_elem_of_here.
  - by intros ->%list_elem_of_singleton.
Qed.

Lemma antipodal_unreachable : ¬ reachable antipodal_adjacency "P" "O".
Proof.
  apply (closed_set_unreachable antipodal_adjacency ["P"; "Q"]).
  - vm_compute. repeat constructor.
  - apply list_elem_of_here.
  - intros Hin. repeat (apply elem_of_cons in Hin as [Heq|Hin]; [discriminate|]).
    by apply not_elem_of_nil in Hin.
Qed.



(** C2 on the sample map. *)
Lemma bfs_finds_fewest_edges_witness :
  reachable sample_adjacency "X" "Z" ∧
  ∃ path,
    (∀ fuel, enough_fuel sample_adjacency "X" ≤ fuel →
             bfs fuel "X" "Z" sample_adjacency = Returned (Some path)) ∧
    simple_route sample_adjacency "X" "Z" path ∧
    (∀ q, simple_route sample_adjacency "X" "Z" q → edge_count path ≤ edge_count q) ∧
    (∀ fuel (cities : gmap string (coord Q)) q,
        brute_force_search fuel "X" "Z" sample_adjacency cities = Returned (Some q) →
        edge_count path ≤ edge_count q) ∧
    (∀ fuel q,
        dfs fuel "X" "Z" sample_adjacency = Returned (Some q) →
        edge_count path ≤ edge_count q).
Proof.
  split; [exact sample_reachable|].
  apply (bfs_finds_fewest_edges (num := Q) "X" "Z" sample_adjacency).
  exact sample_reachable.
Defined.



(** C4 as stated fails: the latitude of A is infinite, as read from the
    text "inf", [haversine] raises [ValueError] on it, and so does
    [best_first_search] from A to A; [a_star_search] returns the path. *)
Lemma start_is_goal_raises :
  infinite_cities !! "A" = Some (infinity, 0%float) ∧
  (∀ fuel, best_first_search (tabulated infinite_distances) fuel "A" "A" ∅
             infinite_cities = Raised ValueError) ∧
  a_star_search (tabulated infinite_distances) 1 "A" "A" ∅ infinite_cities
  = Returned (Some ["A"]).
Proof.
  split; [reflexivity|]. split; [|vm_compute; reflexivity].
  intros fuel. vm_compute. reflexivity.
Qed.

(** C4, amended, on the sample map, with no adjacency entry at all. *)
Lemma start_is_goal_witness :
  sample_cities !! "X" = Some (0, 0)%Q ∧
  search_methods taxicab BestFirst 1 "X" "X" ∅ sample_cities = Returned (Some ["X"]).
Proof.
  split; [reflexivity|].
  apply (start_is_goal taxicab BestFirst 0 "X" ∅ sample_cities (0, 0)%Q). reflexivity.
Defined.


(** C8 on the lines "X Y" and "Y Z". *)
Lemma load_adjacency_both_directions_witness :
  load_adjacency ["X Y"; "Y Z"] = Returned sample_adjacency ∧
  (∀ name, get_or_empty sample_adjacency name
           = neighbours_in_file_order name ["X Y"; "Y Z"]) ∧
  (∀ line city1 city2,
      line ∈ ["X Y"; "Y Z"] → split (strip line) = [city1; city2] →
      city2 ∈ get_or_empty sample_adjacency city1 ∧
      city1 ∈ get_or_empty sample_adjacency city2).
Proof.
  split; [vm_compute; reflexivity|].
  apply (load_adjacency_both_directions ["X Y"; "Y Z"] sample_adjacency).
  vm_compute. reflexivity.
Defined.

(** C10 on three rows: a second row for X, and a short row that is
    skipped. *)
Lemma load_cities_last_row_wins_witness :
  load_cities sample_float [["X"; "0"; "0"]; ["Y"; "0"]; ["X"; "3"; "4"]]
  = Returned (<["X" := (3, 4)%Q]> ∅) ∧
  (∀ name, (<["X" := (3, 4)%Q]> ∅ : gmap string (coord Q)) !! name
           = last_coordinates sample_float name
               [["X"; "0"; "0"]; ["Y"; "0"]; ["X"; "3"; "4"]]) ∧
  (∀ name, is_Some ((<["X" := (3, 4)%Q]> ∅ : gmap string (coord Q)) !! name) ↔
           ∃ row c, row ∈ [["X"; "0"; "0"]; ["Y"; "0"]; ["X"; "3"; "4"]] ∧
                    well_formed_row sample_float row = Some (name, c)).
Proof.
  split; [vm_compute; reflexivity|].
  apply (load_cities_last_row_wins sample_float
           [["X"; "0"; "0"]; ["Y"; "0"]; ["X"; "3"; "4"]] (<["X" := (3, 4)%Q]> ∅)).
  vm_compute. reflexivity.
Defined.

(** * Further properties of the loaders *)

Lemma for_each_app {A S : Type} (body : S → A → outcome S) (l1 l2 : list A) (s : S) :
  for_each body (l1 ++ l2) s = for_each body l1 s ≫= for_each body l2.
Proof.
  revert s. induction l1 as [|x l1 IH]; intros s; simpl; [done|].
  destruct (body s x); [apply IH | done..].
Qed.

Lemma load_adjacency_line_cases (adjacency_list : gmap string (list string))
    (line : string) :
  match split (strip line) with
  | [] | [_] => load_adjacency_line adjacency_list line = Returned adjacency_list
  | [city1; city2] =>
      load_adjacency_line adjacency_list line
      = Returned (setdefault_append city2 city1
                    (setdefault_append city1 city2 adjacency_list))
  | _ => load_adjacency_line adjacency_list line = Raised ValueError
  end.
Proof.
  unfold load_adjacency_line.
  by destruct (split (strip line)) as [|city1 [|city2 [|extra parts]]].
Qed.

Lemma load_adjacency_from_returns (lines : list string)
    (adjacency_list0 : gmap string (list string)) :
  Forall (λ line, length (split (strip line)) ≤ 2) lines →
  ∃ adjacency_list,
    for_each load_adjacency_line lines adjacency_list0 = Returned adjacency_list.
Proof.
  revert adjacency_list0. induction lines as [|line lines IH];
    intros adjacency_list0 Hall; simpl; [eauto|].
  apply Forall_cons_1 in Hall as [Hline Hall].
  pose proof (load_adjacency_line_cases adjacency_list0 line) as Hcase.
  destruct (split (strip line)) as [|city1 [|city2 [|extra parts]]];
    [rewrite Hcase; by apply IH..|simpl in Hline; lia].
Qed.

Lemma load_adjacency_from_raises (lines : list string)
    (adjacency_list0 : gmap string (list string)) :
  Exists (λ line, 2 < length (split (strip line))) lines →
  for_each load_adjacency_line lines adjacency_list0 = Raised ValueError.
Proof.
  revert adjacency_list0. induction lines as [|line lines IH];
    intros adjacency_list0 Hex; [by apply Exists_nil in Hex|]. simpl.
  pose proof (load_adjacency_line_cases adjacency_list0 line) as Hcase.
  destruct (split (strip line)) as [|city1 [|city2 [|extra parts]]] eqn:Hparts;
    rewrite Hcase; [| | |done];
    (apply Exists_cons in Hex as [Hline|Hex];
     [rewrite Hparts in Hline; simpl in Hline; lia | by apply IH]).
Qed.

(** X1: [load_adjacency] returns a map exactly when no line has more than
    two fields; otherwise it raises [ValueError]. *)
Theorem load_adjacency_returns_iff (lines : list string) :
  ((∃ adjacency_list, load_adjacency lines = Returned adjacency_list) ↔
   Forall (λ line, length (split (strip line)) ≤ 2) lines) ∧
  (load_adjacency lines = Raised ValueError ↔
   Exists (λ line, 2 < length (split (strip line))) lines).
Proof.
  assert (Hdec : Forall (λ line, length (split (strip line)) ≤ 2) lines ∨
                 Exists (λ line, 2 < length (split (strip line))) lines).
  { induction lines as [|line lines [IH|IH]].
    - left. constructor.
    - destruct (decide (length (split (strip line)) ≤ 2)).
      + left. by constructor.
      + right. apply Exists_cons_hd. lia.
    - right. by apply Exists_cons_tl. }
  split; split.
  - intros [adjacency_list Hrun]. destruct Hdec as [Hall|Hex]; [done|].
    apply (load_adjacency_from_raises lines ∅) in Hex.
    unfold load_adjacency in Hrun. congruence.
  - apply load_adjacency_from_returns.
  - intros Hrun. destruct Hdec as [Hall|Hex]; [|done].
    destruct (load_adjacency_from_returns lines ∅ Hall) as [adjacency_list Hret].
    unfold load_adjacency in Hrun. congruence.
  - apply load_adjacency_from_raises.
Qed.

Section MoreLoaderProperties.

Context {num : Type}.
Variable float : string → option num.

Local Abbreviation passable := (passable_row float).

Lemma passable_dec (row : list string) : passable row ∨ ¬ passable row.
Proof.
  unfold passable_row. destruct (decide (length row < 3)); [by left; left|].
  destruct (well_formed_row float row); [left; right; eauto|].
  right. intros [?|[? ?]]; [lia | discriminate].
Qed.

Lemma load_cities_row_cases (cities : gmap string (coord num)) (row : list string) :
  (passable row ∧ ∃ cities', load_cities_row float cities row = Returned cities') ∨
  (¬ passable row ∧ load_cities_row float cities row = Raised ValueError).
Proof.
  unfold passable_row, load_cities_row, well_formed_row, py_float.
  destruct row as [|name [|lat [|lon [|extra row]]]]; simpl.
  - left. split; [left; lia | eauto].
  - left. split; [left; lia | eauto].
  - left. split; [left; lia | eauto].
  - unfold mbind, outcome_mbind. simpl.
    destruct (float lat); simpl.
    + destruct (float lon); simpl.
      * left. split; [right; eauto | eauto].
      * right. split; [|done]. intros [?|[? ?]]; [lia | discriminate].
    + right. split; [|done]. intros [?|[? ?]]; [lia | discriminate].
  - right. split; [|done]. intros [?|[? ?]]; [lia | discriminate].
Qed.

Lemma load_cities_from_returns (rows : list (list string)) (cities0 : gmap string (coord num)) :
  Forall passable rows →
  ∃ cities, for_each (load_cities_row float) rows cities0 = Returned cities.
Proof.
  revert cities0. induction rows as [|row rows IH]; intros cities0 Hall; simpl; [eauto|].
  apply Forall_cons_1 in Hall as [Hrow Hall].
  destruct (load_cities_row_cases cities0 row) as [[_ [cities' ->]]|[Hbad _]]; [|done].
  by apply IH.
Qed.

Lemma load_cities_from_raises (rows : list (list string)) (cities0 : gmap string (coord num)) :
  Exists (λ row, ¬ passable row) rows →
  for_each (load_cities_row float) rows cities0 = Raised ValueError.
Proof.
  revert cities0. induction rows as [|row rows IH]; intros cities0 Hex;
    [by apply Exists_nil in Hex|]. simpl.
  destruct (load_cities_row_cases cities0 row) as [[Hok [cities' ->]]|[Hbad ->]]; [|done].
  apply Exists_cons in Hex as [Hrow|Hex]; [done | by apply IH].
Qed.

(** X2: [load_cities] returns a map exactly when every row either has
    fewer than three fields or has three fields of which the last two are
    numbers; otherwise it raises [ValueError]. *)
Theorem load_cities_returns_iff (rows : list (list string)) :
  ((∃ cities, load_cities float rows = Returned cities) ↔
   Forall (passable_row float) rows) ∧
  (load_cities float rows = Raised ValueError ↔
   Exists (λ row, ¬ passable_row float row) rows).
Proof.
  assert (Hdec : Forall passable rows ∨ Exists (λ row, ¬ passable row) rows).
  { induction rows as [|row rows [IH|IH]].
    - left. constructor.
    - destruct (passable_dec row).
      + left. by constructor.
      + right. by apply Exists_cons_hd.
    - right. by apply Exists_cons_tl. }
  split; split.
  - intros [cities Hrun]. destruct Hdec as [Hall|Hex]; [done|].
    apply (load_cities_from_raises rows ∅) in Hex.
    unfold load_cities in Hrun. congruence.
  - apply load_cities_from_returns.
  - intros Hrun. destruct Hdec as [Hall|Hex]; [|done].
    destruct (load_cities_from_returns rows ∅ Hall) as [cities Hret].
    unfold load_cities in Hrun. congruence.
  - apply load_cities_from_raises.
Qed.

End MoreLoaderProperties.

(** ** The names and the symmetry of the adjacency map *)

Lemma no_space_app (s1 s2 : string) :
  no_space (s1 +:+ s2) = no_space s1 && no_space s2.
Proof.
  induction s1 as [|c s1 IH]; simpl; [done|]. rewrite IH. by rewrite andb_assoc.
Qed.

Lemma append_not_empty (s : string) (c : Ascii.ascii) :
  s +:+ String c EmptyString ≠ EmptyString.
Proof. by destruct s. Qed.

Lemma split_from_fields (word s : string) :
  no_space word = true → Forall is_field (split_from word s).
Proof.
  revert word. induction s as [|c s IH]; intros word Hword; simpl.
  - destruct (decide (word = EmptyString)); [constructor|]. by repeat constructor.
  - destruct (isspace c) eqn:Hc.
    + destruct (decide (word = EmptyString)); [by apply IH|].
      constructor; [done | by apply IH].
    + apply IH. rewrite no_space_app, Hword. simpl. by rewrite Hc.
Qed.

Lemma well_formed_line_fields (line city1 city2 : string) :
  well_formed_line line = Some (city1, city2) → is_field city1 ∧ is_field city2.
Proof.
  unfold well_formed_line. pose proof (split_from_fields EmptyString (strip line) eq_refl) as H.
  fold (split (strip line)) in H.
  destruct (split (strip line)) as [|c1 [|c2 [|extra parts]]]; try discriminate.
  intros [= <- <-]. apply Forall_cons_1 in H as [H1 H]. by apply Forall_cons_1 in H as [H2 _].
Qed.

Lemma elem_of_neighbours_in_file_order (a b : string) (lines : list string) :
  b ∈ neighbours_in_file_order a lines ↔
  ∃ line, line ∈ lines ∧
          (well_formed_line line = Some (a, b) ∨ well_formed_line line = Some (b, a)).
Proof.
  induction lines as [|line lines IH]; simpl.
  - split; [by intros ?%not_elem_of_nil|]. by intros (line & ?%not_elem_of_nil & _).
  - rewrite elem_of_app, IH. split.
    + intros [Hhere|(line' & Hin & Hwf)].
      * exists line. split; [apply list_elem_of_here|].
        destruct (well_formed_line line) as [[city1 city2]|];
          [|by apply not_elem_of_nil in Hhere].
        apply elem_of_app in Hhere as [Hhere|Hhere].
        -- destruct (decide (city1 = a)) as [->|]; [|by apply not_elem_of_nil in Hhere].
           apply list_elem_of_singleton in Hhere as ->. by left.
        -- destruct (decide (city2 = a)) as [->|]; [|by apply not_elem_of_nil in Hhere].
           apply list_elem_of_singleton in Hhere as ->. by right.
      * exists line'. split; [by apply list_elem_of_further | done].
    + intros (line' & Hin & Hwf). apply elem_of_cons in Hin as [->|Hin].
      * left. destruct Hwf as [-> | ->]; apply elem_of_app.
        -- left. rewrite decide_True by done. apply list_elem_of_here.
        -- right. rewrite (decide_True (P := a = a)) by done. apply list_elem_of_here.
      * right. eauto.
Qed.

Lemma load_adjacency_get (lines : list string) (adjacency_list : gmap string (list string))
    (name : string) :
  load_adjacency lines = Returned adjacency_list →
  get_or_empty adjacency_list name = neighbours_in_file_order name lines.
Proof.
  intros Hrun. rewrite (load_adjacency_from _ _ _ name Hrun).
  unfold get_or_empty at 1. by rewrite lookup_empty.
Qed.

(** X3: the adjacency map that [load_adjacency] returns is symmetric: B
    is in the neighbour list of A exactly when A is in the neighbour list
    of B, which is when some line has the two fields A and B, in either
    order. *)
Theorem load_adjacency_symmetric (lines : list string)
    (adjacency_list : gmap string (list string)) (a b : string) :
  load_adjacency lines = Returned adjacency_list →
  (b ∈ get_or_empty adjacency_list a ↔ a ∈ get_or_empty adjacency_list b) ∧
  (b ∈ get_or_empty adjacency_list a ↔
   ∃ line, line ∈ lines ∧ (split (strip line) = [a; b] ∨ split (strip line) = [b; a])).
Proof.
  intros Hrun. rewrite !(load_adjacency_get lines adjacency_list) by done.
  rewrite !elem_of_neighbours_in_file_order. split.
  - split; intros (line & Hin & [Hwf|Hwf]); exists line; eauto.
  - assert (Hwf : ∀ line c1 c2,
               well_formed_line line = Some (c1, c2) ↔ split (strip line) = [c1; c2]).
    { intros line c1 c2. unfold well_formed_line.
      destruct (split (strip line)) as [|x [|y [|z parts]]]; split; try discriminate;
        by intros [= -> ->]. }
    split; intros (line & Hin & Hor); exists line; (split; [done|]);
      rewrite <- !Hwf in * || rewrite !Hwf in *; done.
Qed.

Lemma setdefault_append_nonempty (key value : string)
    (adjacency_list : gmap string (list string)) :
  (∀ k l, adjacency_list !! k = Some l → l ≠ []) →
  ∀ k l, setdefault_append key value adjacency_list !! k = Some l → l ≠ [].
Proof.
  intros Hall k l. unfold setdefault_append.
  destruct (decide (key = k)) as [->|Hne].
  - rewrite lookup_insert_eq. intros [= <-]. by destruct (get_or_empty adjacency_list k).
  - rewrite lookup_insert_ne by done. apply Hall.
Qed.

Lemma load_adjacency_from_nonempty (lines : list string)
    (adjacency_list0 adjacency_list : gmap string (list string)) :
  (∀ k l, adjacency_list0 !! k = Some l → l ≠ []) →
  for_each load_adjacency_line lines adjacency_list0 = Returned adjacency_list →
  ∀ k l, adjacency_list !! k = Some l → l ≠ [].
Proof.
  revert adjacency_list0. induction lines as [|line lines IH];
    intros adjacency_list0 Hall; simpl.
  - by intros [= <-].
  - destruct (load_adjacency_line adjacency_list0 line) as [adjacency_list1| |] eqn:Hline;
      try discriminate.
    apply IH. apply load_adjacency_line_returned in Hline.
    destruct (well_formed_line line) as [[city1 city2]|]; subst adjacency_list1; [|done].
    by do 2 apply setdefault_append_nonempty.
Qed.

(** X4: in the map that [load_adjacency] returns every key has at least
    one neighbour, and every key and every neighbour is a name that is not
    empty and has no whitespace in it. *)
Theorem load_adjacency_names (lines : list string)
    (adjacency_list : gmap string (list string)) (name : string)
    (neighbors : list string) :
  load_adjacency lines = Returned adjacency_list →
  adjacency_list !! name = Some neighbors →
  neighbors ≠ [] ∧ is_field name ∧ Forall is_field neighbors.
Proof.
  intros Hrun Hlookup.
  assert (Hne : neighbors ≠ []).
  { eapply (load_adjacency_from_nonempty lines ∅); [|exact Hrun|exact Hlookup].
    intros k l. by rewrite lookup_empty. }
  assert (Hget : get_or_empty adjacency_list name = neighbors).
  { unfold get_or_empty. by rewrite Hlookup. }
  assert (Hfields : ∀ b, b ∈ neighbors → is_field name ∧ is_field b).
  { intros b Hb. rewrite <- Hget, (load_adjacency_get lines adjacency_list) in Hb by done.
    apply elem_of_neighbours_in_file_order in Hb as (line & _ & [Hwf|Hwf]);
      apply well_formed_line_fields in Hwf; tauto. }
  split; [done|]. split.
  - destruct neighbors as [|b neighbors]; [done|].
    apply (Hfields b), list_elem_of_here.
  - apply Forall_forall. intros b Hb. by apply Hfields.
Qed.


(** * Further properties of the searches *)

Section MoreSearchProperties.

Context {num : Type} {N : Number num}.
Variable haversine : coord num → coord num → option num.
Variable adjacency_list : gmap string (list string).
Variable cities : gmap string (coord num).
Variables start goal : string.

(** ** More fuel does not change a result *)

Lemma brute_force_loop_fuel_mono (fuel fuel' : nat) (stack : list (string * list string))
    (result : option (list string)) :
  brute_force_loop fuel goal adjacency_list stack = Returned result → fuel ≤ fuel' →
  brute_force_loop fuel' goal adjacency_list stack = Returned result.
Proof.
  revert fuel' stack. induction fuel as [|fuel IH]; intros fuel' stack; simpl;
    [discriminate|].
  intros Hrun Hle. destruct fuel' as [|fuel']; [lia|]. simpl.
  destruct (list_pop stack) as [[[city path] rest]|]; [|done].
  destruct (decide (city = goal)); [done|]. apply IH; [done | lia].
Qed.

Lemma best_first_loop_fuel_mono (fuel fuel' : nat) (pq : list (num * string * list string))
    (result : option (list string)) :
  best_first_loop haversine fuel goal adjacency_list cities pq = Returned result →
  fuel ≤ fuel' →
  best_first_loop haversine fuel' goal adjacency_list cities pq = Returned result.
Proof.
  revert fuel' pq. induction fuel as [|fuel IH]; intros fuel' pq; simpl; [discriminate|].
  intros Hrun Hle. destruct fuel' as [|fuel']; [lia|]. simpl.
  destruct (heappop best_first_lt pq) as [[[[h city] path] rest]|]; [|done].
  destruct (decide (city = goal)); [done|].
  destruct (for_each (best_first_visit haversine goal cities path)
              (get_or_empty adjacency_list city) rest) as [pq'| |]; simpl in *;
    try discriminate.
  apply IH; [done | lia].
Qed.

Lemma a_star_loop_fuel_mono (fuel fuel' : nat)
    (pq : list (num * string * list string * num))
    (visited : gmap string num) (result : option (list string)) :
  a_star_loop haversine fuel goal adjacency_list cities pq visited = Returned result →
  fuel ≤ fuel' →
  a_star_loop haversine fuel' goal adjacency_list cities pq visited = Returned result.
Proof.
  revert fuel' pq visited.
  induction fuel as [|fuel IH]; intros fuel' pq visited; simpl; [discriminate|].
  intros Hrun Hle. destruct fuel' as [|fuel']; [lia|]. simpl.
  destruct (heappop a_star_lt pq) as [[[[[f city] path] g] rest]|]; [|done].
  destruct (decide (city = goal)); [done|].
  destruct (for_each (a_star_visit haversine goal cities city path g)
              (get_or_empty adjacency_list city) (rest, visited)) as [state| |];
    simpl in *; try discriminate.
  apply IH; [done | lia].
Qed.

Lemma search_methods_fuel_mono (choice : method) (fuel fuel' : nat)
    (result : option (list string)) :
  search_methods haversine choice fuel start goal adjacency_list cities = Returned result →
  fuel ≤ fuel' →
  search_methods haversine choice fuel' start goal adjacency_list cities = Returned result.
Proof.
  destruct choice; simpl.
  - apply brute_force_loop_fuel_mono.
  - apply bfs_loop_fuel_mono.
  - unfold dfs. rewrite !dfs_loop_brute_force_loop. apply brute_force_loop_fuel_mono.
  - unfold best_first_search.
    destruct (getitem cities start); simpl; try discriminate.
    destruct (getitem cities goal); simpl; try discriminate.
    destruct (call_haversine haversine _ _); simpl; try discriminate.
    apply best_first_loop_fuel_mono.
  - apply a_star_loop_fuel_mono.
Qed.

(** ** A route to the goal is found *)

(** As long as the frontier holds a beginning of a simple route to the
    goal, the exploration cannot end without a path. *)
Lemma explores_complete (q : list string) (frontier : list (string * list string))
    (result : option (list string)) :
  explores adjacency_list goal frontier result →
  simple_route adjacency_list start goal q →
  Forall (sound_entry adjacency_list start) frontier →
  (∃ entry, entry ∈ frontier ∧ entry.2 `prefix_of` q) →
  is_Some result.
Proof.
  intros Hexp Hq.
  induction Hexp as [|frontier path rest Hperm
                     |frontier city path rest result Hperm Hne Hexp IH];
    intros Hsound (entry & Hin & Hprefix).
  - by apply not_elem_of_nil in Hin.
  - eauto.
  - rewrite Hperm in Hsound, Hin. apply IH; [by apply step_sound|].
    apply elem_of_cons in Hin as [->|Hin].
    + apply Forall_cons_1 in Hsound as [((_ & Hlast & _) & _) _]. simpl in *.
      destruct (prefix_extends adjacency_list start goal q path city Hq Hprefix Hlast Hne)
        as (w & Hw & Hpre).
      exists (w, path ++ [w]). split; [|done]. apply elem_of_app. by right.
    + exists entry. split; [|done]. apply elem_of_app. by left.
Qed.

Lemma start_prefix (q : list string) :
  simple_route adjacency_list start goal q →
  ∃ entry, entry ∈ [(start, [start])] ∧ entry.2 `prefix_of` q.
Proof.
  intros [(Hhead & _) _]. exists (start, [start]). split; [apply list_elem_of_here|].
  destruct q as [|a q]; [discriminate|]. injection Hhead as ->. by exists q.
Qed.

Context {L : NumberLaws num}.
Hypothesis haversine_values : haversine_nonneg haversine cities.

Lemma a_star_loop_complete (p : list string) (fuel : nat)
    (pq : list (num * string * list string * num)) (visited : gmap string num)
    (result : option (list string)) :
  route_from_to adjacency_list start goal p →
  shortest_invariant haversine adjacency_list cities start goal pq visited →
  route_on_heap haversine cities p pq →
  a_star_loop haversine fuel goal adjacency_list cities pq visited = Returned result →
  is_Some result.
Proof.
  intros Hp. revert pq visited.
  induction fuel as [|fuel IH]; intros pq visited Hinv Hheap; simpl; [discriminate|].
  destruct (heappop a_star_lt pq) as [[[[[f city] p0] g] rest]|] eqn:Hpop.
  - apply heappop_Permutation in Hpop.
    destruct (decide (city = goal)) as [->|Hne]; [intros [= <-]; eauto|].
    destruct (for_each (a_star_visit haversine goal cities city p0 g)
                (get_or_empty adjacency_list city) (rest, visited))
      as [[pq' visited']| |] eqn:Hvisit; simpl; try discriminate.
    destruct (shortest_iteration haversine adjacency_list cities start goal
                haversine_values f city p0 g pq rest pq' visited visited')
      as [Hexp Hinv']; try done.
    apply IH; [done|].
    eapply route_on_heap_step; try done.
    + destruct Hinv as ((Hok & _) & _). rewrite Hpop in Hok.
      by apply Forall_cons_1 in Hok as [(_ & _ & Hg & _) _].
    + by destruct Hinv' as (_ & ? & _).
  - apply heappop_None in Hpop. subst pq.
    destruct Hheap as (p1 & e & _ & He & _). by apply not_elem_of_nil in He.
Qed.

Lemma start_on_heap (p : list string) :
  route_from_to adjacency_list start goal p →
  route_on_heap haversine cities p [(num_zero, start, [start], num_zero)].
Proof.
  intros (Hhead & _). exists [start], (num_zero, start, [start], num_zero).
  repeat split; simpl.
  - destruct p as [|a q]; [discriminate|]. injection Hhead as ->. by exists q.
  - apply list_elem_of_here.
  - apply num_zero_le.
Qed.

End MoreSearchProperties.

Section SearchResults.

Context {num : Type} {N : Number num} {L : NumberLaws num}.
Variable haversine : coord num → coord num → option num.
Variable adjacency_list : gmap string (list string).
Variable cities : gmap string (coord num).
Variables start goal : string.

(** A search that returns, returns a path when there is a route. *)
Lemma search_methods_complete (choice : method) (fuel : nat)
    (result : option (list string)) :
  (choice = AStar → haversine_nonneg haversine cities) →
  reachable adjacency_list start goal →
  search_methods haversine choice fuel start goal adjacency_list cities
  = Returned result →
  is_Some result.
Proof.
  intros Hnonneg Hreach Hrun. pose proof Hreach as [q Hq]%reachable_simple.
  pose proof (start_sound adjacency_list start) as Hsound.
  pose proof (start_prefix adjacency_list start goal q Hq) as Hprefix.
  destruct choice; simpl in Hrun.
  - unfold brute_force_search in Hrun.
    destruct (brute_force_loop_explores adjacency_list goal fuel [(start, [start])])
      as [Hout|(result' & Hrun' & Hexp)]; [congruence|].
    rewrite Hrun in Hrun'. injection Hrun' as <-.
    by eapply explores_complete.
  - unfold bfs in Hrun.
    destruct (bfs_loop_explores adjacency_list goal fuel [(start, [start])])
      as [Hout|(result' & Hrun' & Hexp)]; [congruence|].
    rewrite Hrun in Hrun'. injection Hrun' as <-.
    by eapply explores_complete.
  - unfold dfs in Hrun. rewrite dfs_loop_brute_force_loop in Hrun.
    destruct (brute_force_loop_explores adjacency_list goal fuel [(start, [start])])
      as [Hout|(result' & Hrun' & Hexp)]; [congruence|].
    rewrite Hrun in Hrun'. injection Hrun' as <-.
    by eapply explores_complete.
  - pose proof (best_first_search_returned haversine _ _ _ _ _ _ Hrun) as Hdef.
    destruct (best_first_search_started haversine fuel start goal adjacency_list cities
                Hdef) as [h Hstart].
    rewrite Hstart in Hrun. apply best_first_loop_explores in Hrun.
    by eapply explores_complete.
  - destruct Hreach as [p Hp].
    eapply (a_star_loop_complete haversine adjacency_list cities start goal
              (Hnonneg eq_refl) p);
      [done
      | exact (shortest_initial haversine adjacency_list cities start goal
                 (Hnonneg eq_refl))
      | | exact Hrun].
    exact (start_on_heap haversine adjacency_list cities start goal p Hp).
Qed.

End SearchResults.

(** ** Where an exception comes from *)

Section SearchErrors.

Context {num : Type} {N : Number num}.
Variable haversine : coord num → coord num → option num.
Variable adjacency_list : gmap string (list string).
Variable cities : gmap string (coord num).
Variables start goal : string.

Local Abbreviation failure := (search_failure haversine adjacency_list cities start goal).

(** What evaluating [haversine(cities[u], cities[v])] raises. *)
Lemma distance_call_raised {A : Type} (u v : string) (k : num → outcome A) (e : exn) :
  (c_u ← getitem cities u; c_v ← getitem cities v;
   d ← call_haversine haversine c_u c_v; k d) = Raised e →
  (e = KeyError u ∧ cities !! u = None) ∨
  (e = KeyError v ∧ cities !! v = None) ∨
  (e = ValueError ∧ ∃ c_u c_v, cities !! u = Some c_u ∧ cities !! v = Some c_v ∧
                               haversine c_u c_v = None) ∨
  (∃ d, distance_defined haversine cities u v ∧ k d = Raised e).
Proof.
  unfold getitem, call_haversine.
  destruct (cities !! u) as [c_u|] eqn:Hu; simpl; [|intros [= <-]; by left].
  destruct (cities !! v) as [c_v|] eqn:Hv; simpl; [|intros [= <-]; right; by left].
  destruct (haversine c_u c_v) as [d|] eqn:Hd; simpl.
  - intros Hk. right; right; right. exists d. split; [by exists c_u, c_v, d | done].
  - intros [= <-]. right; right; left. split; [done|]. by exists c_u, c_v.
Qed.

(** The exception of a call made for the city [u], which can be reached,
    and [v], the goal or a neighbour of [u]. *)
Lemma distance_call_failure {A : Type} (u v : string) (k : num → outcome A) (e : exn) :
  reachable adjacency_list start u →
  v = goal ∨ (v ∈ get_or_empty adjacency_list u) →
  (c_u ← getitem cities u; c_v ← getitem cities v;
   d ← call_haversine haversine c_u c_v; k d) = Raised e →
  failure e ∨ ∃ d, distance_defined haversine cities u v ∧ k d = Raised e.
Proof.
  intros Hu Hv [[-> Hnone]|[[-> Hnone]|[[-> Hcall]|Hk]]]%distance_call_raised.
  - left. left. exists u. auto.
  - left. left. exists v. repeat split; [done|].
    destruct Hv as [->|Hv]; [by left|]. right.
    destruct Hu as [p Hp]. by eapply reachable_step.
  - left. right. split; [done|]. destruct Hcall as (c_u & c_v & ? & ? & ?).
    by exists u, v, c_u, c_v.
  - by right.
Qed.

Lemma best_first_visits_raised (city : string) (path neighbors : list string)
    (pq : list (num * string * list string)) (e : exn) :
  (∀ w, w ∈ neighbors → reachable adjacency_list start w) →
  for_each (best_first_visit haversine goal cities path) neighbors pq = Raised e →
  failure e.
Proof.
  revert pq. induction neighbors as [|w neighbors IH]; intros pq Hreach; cbn [for_each];
    [discriminate|].
  destruct (best_first_visit haversine goal cities path pq w) as [pq'|e'|] eqn:Hvisit.
  - apply IH. intros w' Hw'. by apply Hreach, list_elem_of_further.
  - intros [= <-]. revert Hvisit. unfold best_first_visit.
    destruct (decide (w ∈ path)); [discriminate|].
    intros [Hfail|(d & _ & [=])]%distance_call_failure; [done| |by left].
    apply Hreach, list_elem_of_here.
  - discriminate.
Qed.

Lemma best_first_loop_raised (fuel : nat) (pq : list (num * string * list string))
    (e : exn) :
  Forall (sound_entry adjacency_list start) (best_first_entry <$> pq) →
  best_first_loop haversine fuel goal adjacency_list cities pq = Raised e →
  failure e.
Proof.
  revert pq. induction fuel as [|fuel IH]; intros pq Hsound; simpl; [discriminate|].
  destruct (heappop best_first_lt pq) as [[[[h city] path] rest]|] eqn:Hpop;
    [|discriminate].
  apply heappop_Permutation in Hpop.
  assert (Hperm : best_first_entry <$> pq ≡ₚ (city, path) :: (best_first_entry <$> rest))
    by (by rewrite Hpop).
  rewrite Hperm in Hsound.
  destruct (decide (city = goal)); [discriminate|].
  destruct (for_each (best_first_visit haversine goal cities path)
              (get_or_empty adjacency_list city) rest) as [pq'|e'|] eqn:Hvisit; simpl.
  - apply IH. rewrite (best_first_visits _ _ _ _ _ _ _ Hvisit). by apply step_sound.
  - intros [= <-]. apply (best_first_visits_raised city) in Hvisit; [done|].
    intros w Hw. apply Forall_cons_1 in Hsound as [[Hroute _] _].
    by apply (reachable_step adjacency_list start city w path).
  - discriminate.
Qed.

Lemma best_first_search_raised (fuel : nat) (e : exn) :
  best_first_search haversine fuel start goal adjacency_list cities = Raised e →
  failure e.
Proof.
  unfold best_first_search.
  intros [Hfail|(h & _ & Hloop)]%distance_call_failure;
    [done | | apply reachable_refl | by left].
  revert Hloop. apply best_first_loop_raised, start_sound.
Qed.

Local Abbreviation entry_route :=
  (a_star_entry_route haversine adjacency_list cities start).

(** The heap entries of [a_star_search] are routes from start, with the
    sum of their legs: no property of the numbers is needed for this. *)
Lemma a_star_visits_routes (city : string) (path : list string) (g : num)
    (neighbors : list string)
    (pq pq' : list (num * string * list string * num))
    (visited visited' : gmap string num) :
  entry_route (num_zero, city, path, g) →
  (∀ w, w ∈ neighbors → w ∈ get_or_empty adjacency_list city) →
  Forall entry_route pq →
  for_each (a_star_visit haversine goal cities city path g) neighbors (pq, visited)
    = Returned (pq', visited') →
  Forall entry_route pq'.
Proof.
  intros [(Hhead & Hlast & Hwalk) Hsum]. revert pq visited.
  induction neighbors as [|w neighbors IH]; intros pq visited Hnb Hall; cbn [for_each].
  - by intros [= <- <-].
  - destruct (a_star_visit haversine goal cities city path g (pq, visited) w)
      as [[pq1 visited1]| |] eqn:Hvisit; try discriminate.
    apply IH; [intros w' Hw'; by apply Hnb, list_elem_of_further|].
    apply a_star_visit_returned in Hvisit
      as (Hcw & _ & [(-> & _)|(-> & _)]); [|done].
    apply Forall_app. split; [done|]. apply Forall_singleton.
    unfold a_star_child. repeat split.
    + destruct path; [discriminate | done].
    + apply last_snoc.
    + apply (is_walk_snoc adjacency_list path city w); [done | done|].
      apply Hnb, list_elem_of_here.
    + by apply sum_legs_snoc.
Qed.

Lemma a_star_visits_raised (city : string) (path : list string) (g : num)
    (neighbors : list string)
    (state : list (num * string * list string * num) * gmap string num) (e : exn) :
  reachable adjacency_list start city →
  (∀ w, w ∈ neighbors → w ∈ get_or_empty adjacency_list city) →
  for_each (a_star_visit haversine goal cities city path g) neighbors state = Raised e →
  failure e.
Proof.
  intros Hcity. revert state.
  induction neighbors as [|w neighbors IH]; intros state Hnb; cbn [for_each];
    [discriminate|].
  destruct (a_star_visit haversine goal cities city path g state w) as [state'|e'|]
    eqn:Hvisit.
  - apply IH. intros w' Hw'. by apply Hnb, list_elem_of_further.
  - intros [= <-]. revert Hvisit. destruct state as [pq visited]. unfold a_star_visit.
    assert (Hw : w ∈ get_or_empty adjacency_list city) by apply Hnb, list_elem_of_here.
    intros [Hfail|(d & _ & Hrest)]%distance_call_failure; [done| |done|by right].
    revert Hrest.
    intros [Hfail|(h & _ & Hrest)]%distance_call_failure; [done| | |by left].
    + by destruct (match visited !! w with Some best => _ | None => true end).
    + destruct Hcity as [p Hp]. by eapply reachable_step.
  - discriminate.
Qed.

Lemma a_star_loop_routes (fuel : nat) (pq : list (num * string * list string * num))
    (visited : gmap string num) :
  Forall entry_route pq →
  match a_star_loop haversine fuel goal adjacency_list cities pq visited with
  | Returned (Some path) =>
      route_from_to adjacency_list start goal path ∧
      ∃ total, total_distance haversine cities path = Returned total
  | Raised e => failure e
  | _ => True
  end.
Proof.
  revert pq visited. induction fuel as [|fuel IH]; intros pq visited Hall; simpl; [done|].
  destruct (heappop a_star_lt pq) as [[[[[f city] path] g] rest]|] eqn:Hpop; [|done].
  apply heappop_Permutation in Hpop. rewrite Hpop in Hall.
  apply Forall_cons_1 in Hall as [[Hroute Hsum] Hrest].
  destruct (decide (city = goal)) as [->|Hne]; [split; [done | by exists g]|].
  destruct (for_each (a_star_visit haversine goal cities city path g)
              (get_or_empty adjacency_list city) (rest, visited))
    as [[pq' visited']|e'|] eqn:Hvisit; simpl; [| |done].
  - apply IH. by eapply a_star_visits_routes.
  - apply a_star_visits_raised in Hvisit; [done | by exists path | done].
Qed.

Lemma a_star_initial_route : Forall entry_route [(num_zero, start, [start], num_zero)].
Proof. by apply Forall_singleton. Qed.

(** A search raises only in [best_first_search] and [a_star_search], and
    only what a lookup or a call of [haversine] raises. *)
Lemma search_methods_raised (choice : method) (fuel : nat) (e : exn) :
  search_methods haversine choice fuel start goal adjacency_list cities = Raised e →
  uses_coordinates choice = true ∧ failure e.
Proof.
  destruct choice; simpl.
  - unfold brute_force_search.
    by destruct (brute_force_loop_explores adjacency_list goal fuel [(start, [start])])
      as [->|(result & -> & _)].
  - unfold bfs.
    by destruct (bfs_loop_explores adjacency_list goal fuel [(start, [start])])
      as [->|(result & -> & _)].
  - unfold dfs. rewrite dfs_loop_brute_force_loop.
    by destruct (brute_force_loop_explores adjacency_list goal fuel [(start, [start])])
      as [->|(result & -> & _)].
  - intros Hrun. split; [done|]. by eapply best_first_search_raised.
  - intros Hrun. split; [done|]. unfold a_star_search in Hrun.
    pose proof (a_star_loop_routes fuel _ ∅ a_star_initial_route) as Hloop.
    by rewrite Hrun in Hloop.
Qed.

(** A path that a search returns is a route from start to goal. *)
Lemma search_methods_route (choice : method) (fuel : nat) (path : list string) :
  search_methods haversine choice fuel start goal adjacency_list cities
  = Returned (Some path) →
  route_from_to adjacency_list start goal path.
Proof.
  destruct choice; simpl.
  - by intros [? _]%brute_force_search_simple.
  - by intros [? _]%bfs_simple.
  - unfold dfs. rewrite dfs_loop_brute_force_loop.
    intros Hrun. by apply (brute_force_search_simple fuel start goal adjacency_list cities).
  - by intros [[? _] _]%best_first_search_simple.
  - intros Hrun. unfold a_star_search in Hrun.
    pose proof (a_star_loop_routes fuel _ ∅ a_star_initial_route) as Hloop.
    rewrite Hrun in Hloop. by destruct Hloop.
Qed.

End SearchErrors.

(** * Routes in a symmetric adjacency map *)

Section SymmetricRoutes.

Variable adjacency_list : gmap string (list string).
Hypothesis adjacency_symmetric :
  ∀ a b, b ∈ get_or_empty adjacency_list a → a ∈ get_or_empty adjacency_list b.

Lemma is_walk_reverse (p : list string) :
  is_walk adjacency_list p → is_walk adjacency_list (reverse p).
Proof.
  induction p as [|a [|b p] IH]; [done..|].
  intros [Hab Hwalk]. rewrite (reverse_cons (b :: p) a).
  apply (is_walk_snoc adjacency_list _ b a); [by apply IH | by rewrite last_reverse|].
  by apply adjacency_symmetric.
Qed.

Lemma simple_route_reverse (start goal : string) (p : list string) :
  simple_route adjacency_list start goal p →
  simple_route adjacency_list goal start (reverse p).
Proof.
  intros ((Hhead & Hlast & Hwalk) & Hnodup). repeat split.
  - by rewrite head_reverse.
  - by rewrite last_reverse.
  - by apply is_walk_reverse.
  - by rewrite reverse_Permutation.
Qed.

End SymmetricRoutes.

Lemma route_cities_reachable (adjacency_list : gmap string (list string))
    (start goal v : string) (p : list string) :
  route_from_to adjacency_list start goal p → v ∈ p →
  reachable adjacency_list start v.
Proof.
  intros (Hhead & _ & Hwalk) (l1 & l2 & ->)%list_elem_of_split.
  exists (l1 ++ [v]). repeat split.
  - destruct l1; simpl in *; done.
  - apply last_snoc.
  - apply (is_walk_app_l adjacency_list (l1 ++ [v]) l2). by rewrite <- app_assoc.
Qed.

Lemma bfs_no_longer (adjacency_list : gmap string (list string)) (start goal : string)
    (fuel : nat) (q : list string) (result : option (list string)) :
  simple_route adjacency_list start goal q →
  bfs fuel start goal adjacency_list = Returned result →
  ∃ path, result = Some path ∧ length path ≤ length q.
Proof.
  intros Hq Hrun.
  apply (bfs_loop_shortest adjacency_list start goal q fuel [(start, [start])] 1
           result Hq);
    [apply start_sound | | exact (start_prefix adjacency_list start goal q Hq)
    | exact Hrun].
  exists [(start, [start])], []. repeat split; by repeat constructor.
Qed.

(** * Further results about the searches and [main] *)

Section FurtherResults.

Context {num : Type} {N : Number num}.
Variable haversine : coord num → coord num → option num.

(** X5: [brute_force_search], [bfs] and [dfs] never raise;
    [best_first_search] and [a_star_search] raise only what a lookup of
    coordinates or a call of [haversine] raises: [KeyError] for a name
    without coordinates that is the goal or a city that can be reached
    from the start, or [ValueError] from [haversine] on the coordinates of
    a city that can be reached, paired with the goal or with one of its
    neighbours. *)
Theorem search_raises_only_from_calls (choice : method) (fuel : nat)
    (start goal : string) (adjacency_list : gmap string (list string))
    (cities : gmap string (coord num)) (e : exn) :
  search_methods haversine choice fuel start goal adjacency_list cities = Raised e →
  uses_coordinates choice = true ∧
  search_failure haversine adjacency_list cities start goal e.
Proof.
  apply search_methods_raised.
Qed.

(** X6: [main]'s sum of the leg distances of a route returns exactly when
    [haversine] returns on every two consecutive cities of the route,
    both with coordinates; otherwise it raises [KeyError] for a city of
    the route without coordinates or [ValueError] from [haversine] on two
    consecutive cities. *)
Theorem total_distance_returns_iff (cities : gmap string (coord num))
    (route : list string) :
  ((∃ total, total_distance haversine cities route = Returned total) ↔
   ∀ i a b, route !! i = Some a → route !! S i = Some b →
            distance_defined haversine cities a b) ∧
  (∀ e, total_distance haversine cities route = Raised e →
        (∃ key, e = KeyError key ∧ key ∈ route ∧ cities !! key = None) ∨
        (e = ValueError ∧
         ∃ l1 l2 u v c_u c_v, route = l1 ++ u :: v :: l2 ∧ cities !! u = Some c_u ∧
                              cities !! v = Some c_v ∧ haversine c_u c_v = None)).
Proof.
  unfold total_distance. split; [|intros e; apply sum_legs_raised].
  rewrite <- legs_defined_lookup. split.
  - by intros [total [Hlegs _]%sum_legs_returned_iff].
  - intros Hlegs. eexists. by apply sum_legs_returned_iff.
Qed.

(** X15: a path that [a_star_search] returns is a route from start to
    goal of which [main] can compute the total distance: the search has
    itself looked up every city of the path and called [haversine] on
    every leg.  No property of the numbers is needed. *)
Theorem a_star_route_has_distance (fuel : nat) (start goal : string)
    (adjacency_list : gmap string (list string)) (cities : gmap string (coord num))
    (path : list string) :
  a_star_search haversine fuel start goal adjacency_list cities = Returned (Some path) →
  route_from_to adjacency_list start goal path ∧
  ∃ total, total_distance haversine cities path = Returned total.
Proof.
  intros Hrun. unfold a_star_search in Hrun.
  pose proof (a_star_loop_routes haversine adjacency_list cities start goal fuel _ ∅
                (a_star_initial_route haversine adjacency_list cities start)) as Hloop.
  by rewrite Hrun in Hloop.
Qed.

(** X10: when the route that a search returns passes through a city
    without coordinates, the request raises an exception, [KeyError] for
    such a city or [ValueError] from [haversine] on an earlier leg: the
    sum of the distances fails after the route has been found. *)
Theorem request_raises_on_unlocated_route (choice : method) (fuel : nat)
    (start goal : string) (adjacency_list : gmap string (list string))
    (cities : gmap string (coord num)) (route : list string) (v : string) :
  is_Some (cities !! start) → is_Some (cities !! goal) →
  search_methods haversine choice fuel start goal adjacency_list cities
  = Returned (Some route) →
  v ∈ route → cities !! v = None →
  ∃ e, request haversine choice fuel start goal adjacency_list cities = Raised e ∧
       ((∃ key, e = KeyError key ∧ key ∈ route ∧ cities !! key = None) ∨
        e = ValueError).
Proof.
  intros [c_start Hs] [c_goal Hg] Hrun Hv Hnone.
  pose proof (search_methods_route haversine adjacency_list cities start goal choice
                fuel route Hrun) as (Hhead & _).
  unfold request. rewrite decide_False by (intros [?|?]; congruence).
  rewrite Hrun. simpl.
  destruct route as [|city route']; [discriminate|]. injection Hhead as ->.
  destruct (total_distance haversine cities (start :: route')) as [total|e|] eqn:Htotal.
  - exfalso. unfold total_distance in Htotal.
    apply sum_legs_returned_iff in Htotal as [Hlegs _].
    assert (Hlen : 2 ≤ length (start :: route')).
    { destruct route' as [|b route']; [|simpl; lia].
      apply list_elem_of_singleton in Hv. congruence. }
    destruct (legs_defined_located haversine cities _ Hlegs Hlen v Hv). congruence.
  - simpl. exists e. split; [done|].
    apply sum_legs_raised in Htotal as [?|[? _]]; auto.
  - by apply sum_legs_finishes in Htotal.
Qed.

(** X14: a request of [main] raises only what a lookup of coordinates or
    a call of [haversine] raises, and never [KeyError] for the start or
    the goal: the key is a city without coordinates that can be reached
    from the start, and a [ValueError] comes from [haversine] on the
    coordinates of a city that can be reached, paired with the goal or
    with one of its neighbours. *)
Theorem request_raises_only_from_calls (choice : method) (fuel : nat)
    (start goal : string) (adjacency_list : gmap string (list string))
    (cities : gmap string (coord num)) (e : exn) :
  request haversine choice fuel start goal adjacency_list cities = Raised e →
  (∃ key, e = KeyError key ∧ key ≠ start ∧ key ≠ goal ∧ cities !! key = None ∧
          reachable adjacency_list start key) ∨
  (e = ValueError ∧
   ∃ u v c_u c_v,
     reachable adjacency_list start u ∧
     (v = goal ∨ v ∈ get_or_empty adjacency_list u) ∧
     cities !! u = Some c_u ∧ cities !! v = Some c_v ∧ haversine c_u c_v = None).
Proof.
  unfold request.
  destruct (decide (cities !! start = None ∨ cities !! goal = None)) as [|Hvalid];
    [discriminate|].
  assert (Hkey : ∀ key, cities !! key = None → key ≠ start ∧ key ≠ goal).
  { intros key Hnone. split; intros ->; apply Hvalid; auto. }
  destruct (search_methods haversine choice fuel start goal adjacency_list cities)
    as [[route|]|e'|] eqn:Hrun; simpl; try discriminate.
  - destruct route as [|city route']; [discriminate|].
    pose proof (search_methods_route haversine adjacency_list cities start goal choice
                  fuel _ Hrun) as Hroute.
    destruct (total_distance haversine cities (city :: route')) as [total|e'|] eqn:Htotal;
      simpl; try discriminate.
    intros [= <-].
    apply sum_legs_raised in Htotal
      as [(key & -> & Hin & Hnone)
         |(-> & l1 & l2 & u & v & c_u & c_v & Hsplit & Hu & Hv & Hcall)].
    + left. exists key. destruct (Hkey key Hnone). repeat split; auto.
      by apply (route_cities_reachable adjacency_list start goal key (city :: route')).
    + right. split; [done|]. exists u, v, c_u, c_v. repeat split; auto.
      * apply (route_cities_reachable adjacency_list start goal u (city :: route'));
          [done|]. rewrite Hsplit. apply elem_of_app. right. apply list_elem_of_here.
      * right. destruct Hroute as (_ & _ & Hwalk). rewrite Hsplit in Hwalk.
        by apply is_walk_link in Hwalk.
  - intros [= <-].
    apply search_methods_raised in Hrun as [_ [(key & -> & Hnone & Hor)|Hcall]].
    + left. exists key. destruct (Hkey key Hnone) as [? Hgoal]. repeat split; auto.
      by destruct Hor.
    + by right.
Qed.

Context {L : NumberLaws num}.

(** X7: on enough fuel a search that is ready returns, with the same
    result for any more fuel, and the result is a path exactly when the
    goal can be reached from the start.  [brute_force_search], [bfs] and
    [dfs] are always ready; [best_first_search] when the goal and the
    cities that can be reached have coordinates and [haversine] returns
    the distance to the goal of each of them; [a_star_search] when, in
    addition, [haversine] returns the distance between each of them and
    each of its neighbours, and the distances are not negative. *)
Theorem search_finds_route_iff_reachable (choice : method) (start goal : string)
    (adjacency_list : gmap string (list string)) (cities : gmap string (coord num)) :
  search_ready haversine choice adjacency_list cities start goal →
  ∃ result,
    (∀ fuel, enough_fuel adjacency_list start ≤ fuel →
             search_methods haversine choice fuel start goal adjacency_list cities
             = Returned result) ∧
    (is_Some result ↔ reachable adjacency_list start goal).
Proof.
  intros Hready.
  pose proof (search_ready_nonneg haversine _ _ _ _ _ Hready) as Hnonneg.
  destruct (search_methods_returns haversine choice start goal adjacency_list cities
              (enough_fuel adjacency_list start) Hready (le_n _))
    as [result Hrun].
  exists result. split; [|split].
  - intros fuel Hfuel. by eapply search_methods_fuel_mono.
  - intros [path ->]. exists path.
    by destruct (search_methods_simple haversine choice _ start goal
                   adjacency_list cities path Hnonneg Hrun) as [? _].
  - intros Hreach. by eapply search_methods_complete.
Qed.

(** X8: when there is exactly one simple route from start to goal, each
    of the five searches returns it, once it is ready. *)
Theorem unique_route_found (choice : method) (start goal : string)
    (adjacency_list : gmap string (list string)) (cities : gmap string (coord num))
    (q : list string) (fuel : nat) :
  simple_route adjacency_list start goal q →
  (∀ q', simple_route adjacency_list start goal q' → q' = q) →
  search_ready haversine choice adjacency_list cities start goal →
  enough_fuel adjacency_list start ≤ fuel →
  search_methods haversine choice fuel start goal adjacency_list cities
  = Returned (Some q).
Proof.
  intros Hq Hunique Hready Hfuel.
  pose proof (search_ready_nonneg haversine _ _ _ _ _ Hready) as Hnonneg.
  destruct (search_methods_returns haversine choice start goal adjacency_list cities
              fuel Hready Hfuel) as [result Hrun].
  rewrite Hrun. do 2 f_equal.
  destruct (search_methods_complete haversine adjacency_list cities
              start goal choice fuel result Hnonneg) as [path ->]; [|done|].
  { exists q. by destruct Hq. }
  f_equal. apply Hunique.
  exact (search_methods_simple haversine choice fuel start goal
           adjacency_list cities path Hnonneg Hrun).
Qed.

(** X9: when the goal and every city that can be reached from the start
    have coordinates, [haversine] returns on every such city paired with
    each of its neighbours, and the search chosen is ready, a request of
    [main] is answered for each of the five searches: with a simple route
    and its total distance when the goal can be reached, and with "No
    route found" when it cannot. *)
Theorem request_answered (choice : method) (start goal : string)
    (adjacency_list : gmap string (list string)) (cities : gmap string (coord num)) :
  coordinates_known adjacency_list cities start goal →
  edge_distances_known haversine adjacency_list cities start →
  search_ready haversine choice adjacency_list cities start goal →
  ∃ answer,
    (∀ fuel, enough_fuel adjacency_list start ≤ fuel →
             request haversine choice fuel start goal adjacency_list cities
             = Returned answer) ∧
    match answer with
    | RouteFound route total =>
        simple_route adjacency_list start goal route ∧
        total_distance haversine cities route = Returned total
    | NoRouteFound => ¬ reachable adjacency_list start goal
    | InvalidCityNames => False
    end.
Proof.
  intros Hknown Hdist Hready. pose proof Hknown as [[c_goal Hg] Hloc].
  destruct (Hloc start (reachable_refl adjacency_list start)) as [c_start Hs].
  pose proof (search_ready_nonneg haversine _ _ _ _ _ Hready) as Hnonneg.
  destruct (search_methods_returns haversine choice start goal adjacency_list cities
              (enough_fuel adjacency_list start) Hready (le_n _))
    as [result Hrun].
  assert (Hvalid : ¬ (cities !! start = None ∨ cities !! goal = None))
    by (intros [?|?]; congruence).
  destruct result as [route|].
  - pose proof (search_methods_simple haversine choice _ start goal
                  adjacency_list cities route Hnonneg Hrun) as [Hroute Hnodup].
    assert (Htotal : total_distance haversine cities route
                     = Returned (route_length haversine cities num_zero route)).
    { apply sum_legs_returned_iff. split; [|done].
      apply legs_defined_lookup. intros i a b Ha Hb.
      destruct Hroute as (Hhead & Hlast & Hwalk).
      assert (Hsplit : ∃ l1 l2, route = l1 ++ a :: b :: l2).
      { apply list_elem_of_split_length in Ha as (l1 & l2 & -> & ->).
        rewrite lookup_app_r in Hb by lia.
        replace (S (length l1) - length l1) with 1 in Hb by lia.
        destruct l2 as [|b' l2]; [discriminate|]. injection Hb as ->. eauto. }
      destruct Hsplit as (l1 & l2 & ->).
      eapply (known_edge_defined haversine start goal a b); try done.
      - apply (route_cities_reachable adjacency_list start goal a
                 (l1 ++ a :: b :: l2)); [done | set_solver].
      - by apply is_walk_link in Hwalk. }
    exists (RouteFound route (route_length haversine cities num_zero route)).
    split; [|done]. intros fuel Hfuel. unfold request. rewrite decide_False by done.
    rewrite (search_methods_fuel_mono haversine adjacency_list cities start goal choice
               _ fuel _ Hrun Hfuel). simpl.
    destruct route as [|city route']; [by destruct Hroute|]. by rewrite Htotal.
  - exists NoRouteFound. split.
    + intros fuel Hfuel. unfold request. rewrite decide_False by done.
      by rewrite (search_methods_fuel_mono haversine adjacency_list cities start goal
                    choice _ fuel _ Hrun Hfuel).
    + intros Hreach.
      by destruct (search_methods_complete haversine adjacency_list
                     cities start goal choice _ None Hnonneg Hreach Hrun).
Qed.


End FurtherResults.

(** X13: on a map that [load_adjacency] returns, the goal can be reached
    from the start exactly when the start can be reached from the goal, and
    the paths that [bfs] returns in the two directions have the same number
    of edges. *)
Theorem bfs_both_directions (lines : list string)
    (adjacency_list : gmap string (list string)) (a b : string) :
  load_adjacency lines = Returned adjacency_list →
  (reachable adjacency_list a b ↔ reachable adjacency_list b a) ∧
  ∀ fuel fuel' p p',
    bfs fuel a b adjacency_list = Returned (Some p) →
    bfs fuel' b a adjacency_list = Returned (Some p') →
    edge_count p = edge_count p'.
Proof.
  intros Hload.
  assert (Hsym : ∀ u v, v ∈ get_or_empty adjacency_list u →
                        u ∈ get_or_empty adjacency_list v).
  { intros u v. rewrite !(load_adjacency_get lines adjacency_list) by done.
    rewrite !elem_of_neighbours_in_file_order.
    intros (line & Hin & [Hwf|Hwf]); exists line; eauto. }
  assert (Hback : ∀ u v, reachable adjacency_list u v → reachable adjacency_list v u).
  { intros u v [q Hq]%reachable_simple.
    destruct (simple_route_reverse adjacency_list Hsym u v q Hq) as [Hr _]. by exists (reverse q). }
  split; [split; apply Hback|].
  assert (Hle : ∀ u v fuel fuel' p p',
             bfs fuel u v adjacency_list = Returned (Some p) →
             bfs fuel' v u adjacency_list = Returned (Some p') →
             length p' ≤ length p).
  { intros u v fuel fuel' p p' Hp Hp'.
    pose proof (simple_route_reverse adjacency_list Hsym u v p
                  (bfs_simple fuel u v adjacency_list p Hp)) as Hrev.
    destruct (bfs_no_longer adjacency_list v u fuel' (reverse p) _ Hrev Hp')
      as (path & [= <-] & Hlen).
    by rewrite length_reverse in Hlen. }
  intros fuel fuel' p p' Hp Hp'. unfold edge_count.
  pose proof (Hle a b fuel fuel' p p' Hp Hp').
  pose proof (Hle b a fuel' fuel p' p Hp' Hp). lia.
Qed.


(** X16: for a line "A B" of the adjacency file with two different
    names, [bfs] returns the direct path from A to B and the direct path
    from B to A. *)
Theorem bfs_direct_edge (lines : list string)
    (adjacency_list : gmap string (list string)) (line a b : string) :
  load_adjacency lines = Returned adjacency_list →
  line ∈ lines → split (strip line) = [a; b] → a ≠ b →
  (∀ fuel, enough_fuel adjacency_list a ≤ fuel →
           bfs fuel a b adjacency_list = Returned (Some [a; b])) ∧
  (∀ fuel, enough_fuel adjacency_list b ≤ fuel →
           bfs fuel b a adjacency_list = Returned (Some [b; a])).
Proof.
  intros Hload Hin Hparts Hne.
  assert (Hwf : well_formed_line line = Some (a, b)).
  { unfold well_formed_line. by rewrite Hparts. }
  assert (Hdirect : ∀ u v, u ≠ v → v ∈ get_or_empty adjacency_list u →
             ∀ fuel, enough_fuel adjacency_list u ≤ fuel →
                     bfs fuel u v adjacency_list = Returned (Some [u; v])).
  { intros u v Huv Hedge fuel Hfuel.
    assert (Hq : simple_route adjacency_list u v [u; v]).
    { repeat split; simpl; try done.
      apply NoDup_cons. split; [|apply NoDup_singleton].
      by intros ->%list_elem_of_singleton. }
    destruct (bfs_loop_explores adjacency_list v fuel [(u, [u])])
      as [Hout|(result & Hrun & _)].
    { exfalso. revert Hout.
      apply (bfs_loop_finishes adjacency_list u v (S (length (universe adjacency_list u))));
        [apply universe_bound | apply start_sound | by apply start_weight]. }
    fold (bfs fuel u v adjacency_list) in Hrun.
    destruct (bfs_no_longer adjacency_list u v fuel [u; v] result Hq Hrun)
      as (path & -> & Hlen).
    rewrite Hrun. do 2 f_equal.
    destruct (bfs_simple fuel u v adjacency_list path Hrun) as [(Hhead & Hlast & _) _].
    destruct path as [|x [|y [|z path]]]; simpl in *; try lia; congruence. }
  split; apply Hdirect; try done; try congruence;
    rewrite (load_adjacency_get lines adjacency_list) by done;
    apply elem_of_neighbours_in_file_order; exists line; auto.
Qed.

(** * The further results on sample data *)

Lemma sample_coordinates_known :
  coordinates_known sample_adjacency sample_cities "X" "Z".
Proof.
  split; [by eexists|]. intros city Hreach.
  destruct (decide (city ∈ ["X"; "Y"; "Z"])) as [Hin|Hout].
  - repeat (apply elem_of_cons in Hin as [->|Hin]; [by eexists|]).
    by apply not_elem_of_nil in Hin.
  - exfalso. revert Hreach.
    apply (closed_set_unreachable sample_adjacency ["X"; "Y"; "Z"]);
      [exact sample_closed | apply list_elem_of_here | done].
Qed.

Lemma sample_ready (choice : method) :
  search_ready taxicab choice sample_adjacency sample_cities "X" "Z".
Proof. apply taxicab_ready, sample_coordinates_known. Qed.

Lemma sample_simple_route : simple_route sample_adjacency "X" "Z" ["X"; "Y"; "Z"].
Proof.
  split.
  - repeat split; vm_compute; repeat constructor.
  - apply (bool_decide_unpack (NoDup ["X"; "Y"; "Z"])). vm_compute. exact I.
Qed.

Lemma sample_unique_route (q : list string) :
  simple_route sample_adjacency "X" "Z" q → q = ["X"; "Y"; "Z"].
Proof.
  intros ((Hhead & Hlast & Hwalk) & Hnodup).
  destruct q as [|a q]; [discriminate|]. injection Hhead as ->.
  destruct q as [|b q]; [discriminate|]. destruct Hwalk as [Hb Hwalk].
  change (get_or_empty sample_adjacency "X") with ["Y"] in Hb.
  apply list_elem_of_singleton in Hb as ->.
  destruct q as [|c q]; [discriminate|]. destruct Hwalk as [Hc Hwalk].
  change (get_or_empty sample_adjacency "Y") with ["X"; "Z"] in Hc.
  apply elem_of_cons in Hc as [->|Hc].
  { exfalso. apply NoDup_cons in Hnodup as [Hnotin _]. apply Hnotin.
    apply list_elem_of_further, list_elem_of_here. }
  apply list_elem_of_singleton in Hc as ->.
  destruct q as [|d q]; [done|]. destruct Hwalk as [Hd Hwalk].
  change (get_or_empty sample_adjacency "Z") with ["Y"] in Hd.
  apply list_elem_of_singleton in Hd as ->.
  exfalso. apply NoDup_cons in Hnodup as [_ Hnodup].
  apply NoDup_cons in Hnodup as [Hnotin _]. apply Hnotin.
  apply list_elem_of_further, list_elem_of_here.
Qed.

(** X3 on the lines "X Y" and "Y Z". *)
Lemma load_adjacency_symmetric_witness :
  load_adjacency ["X Y"; "Y Z"] = Returned sample_adjacency ∧
  ("Y" ∈ get_or_empty sample_adjacency "X" ↔ "X" ∈ get_or_empty sample_adjacency "Y") ∧
  ("Y" ∈ get_or_empty sample_adjacency "X" ↔
   ∃ line, line ∈ ["X Y"; "Y Z"] ∧
           (split (strip line) = ["X"; "Y"] ∨ split (strip line) = ["Y"; "X"])).
Proof.
  split; [vm_compute; reflexivity|].
  apply (load_adjacency_symmetric ["X Y"; "Y Z"] sample_adjacency "X" "Y").
  vm_compute. reflexivity.
Defined.

(** X4 on the lines "X Y" and "Y Z", for the key Y. *)
Lemma load_adjacency_names_witness :
  load_adjacency ["X Y"; "Y Z"] = Returned sample_adjacency ∧
  sample_adjacency !! "Y" = Some ["X"; "Z"] ∧
  ["X"; "Z"] ≠ [] ∧ is_field "Y" ∧ Forall is_field ["X"; "Z"].
Proof.
  split; [vm_compute; reflexivity|]. split; [vm_compute; reflexivity|].
  apply (load_adjacency_names ["X Y"; "Y Z"] sample_adjacency "Y" ["X"; "Z"]);
    vm_compute; reflexivity.
Defined.

(** X5 in binary64 arithmetic, on the road between P and Q, which lie
    opposite each other: [a_star_search] raises the [ValueError] of
    [haversine]. *)
Lemma search_raises_only_from_calls_witness :
  search_methods (tabulated antipodal_distances) AStar 1 "P" "O" antipodal_adjacency
    antipodal_cities = Raised ValueError ∧
  uses_coordinates AStar = true ∧
  search_failure (tabulated antipodal_distances) antipodal_adjacency antipodal_cities
    "P" "O" ValueError.
Proof.
  split; [vm_compute; reflexivity|].
  apply (search_raises_only_from_calls (tabulated antipodal_distances) AStar 1 "P" "O"
           antipodal_adjacency antipodal_cities ValueError).
  vm_compute. reflexivity.
Defined.

(** X7 on the sample map. *)
Lemma search_finds_route_iff_reachable_witness :
  search_ready taxicab AStar sample_adjacency sample_cities "X" "Z" ∧
  ∃ result,
    (∀ fuel, enough_fuel sample_adjacency "X" ≤ fuel →
             search_methods taxicab AStar fuel "X" "Z" sample_adjacency sample_cities
             = Returned result) ∧
    (is_Some result ↔ reachable sample_adjacency "X" "Z").
Proof.
  split; [exact (sample_ready AStar)|].
  apply (search_finds_route_iff_reachable taxicab AStar "X" "Z"
           sample_adjacency sample_cities).
  exact (sample_ready AStar).
Defined.

(** X8 on the sample map, where X, Y, Z is the only simple route. *)
Lemma unique_route_found_witness :
  simple_route sample_adjacency "X" "Z" ["X"; "Y"; "Z"] ∧
  search_methods taxicab BestFirst (enough_fuel sample_adjacency "X") "X" "Z"
    sample_adjacency sample_cities = Returned (Some ["X"; "Y"; "Z"]).
Proof.
  split; [exact sample_simple_route|].
  apply (unique_route_found taxicab BestFirst "X" "Z" sample_adjacency
           sample_cities ["X"; "Y"; "Z"] (enough_fuel sample_adjacency "X")).
  - exact sample_simple_route.
  - exact sample_unique_route.
  - exact (sample_ready BestFirst).
  - apply le_n.
Defined.

(** X9 on the sample map. *)
Lemma request_answered_witness :
  coordinates_known sample_adjacency sample_cities "X" "Z" ∧
  ∃ answer,
    (∀ fuel, enough_fuel sample_adjacency "X" ≤ fuel →
             request taxicab DepthFirst fuel "X" "Z" sample_adjacency sample_cities
             = Returned answer) ∧
    match answer with
    | RouteFound route total =>
        simple_route sample_adjacency "X" "Z" route ∧
        total_distance taxicab sample_cities route = Returned total
    | NoRouteFound => ¬ reachable sample_adjacency "X" "Z"
    | InvalidCityNames => False
    end.
Proof.
  split; [exact sample_coordinates_known|].
  apply (request_answered taxicab DepthFirst "X" "Z" sample_adjacency sample_cities).
  - exact sample_coordinates_known.
  - apply taxicab_edge_distances_known.
  - exact I.
Defined.

(** X10 on the sample map without the location of Y: [bfs] finds X, Y, Z
    and the sum of the distances raises [KeyError] for Y. *)
Lemma request_raises_on_unlocated_route_witness :
  bfs 10 "X" "Z" sample_adjacency = Returned (Some ["X"; "Y"; "Z"]) ∧
  endpoint_cities !! "Y" = None ∧
  request taxicab BreadthFirst 10 "X" "Z" sample_adjacency endpoint_cities
  = Raised (KeyError "Y") ∧
  ∃ e, request taxicab BreadthFirst 10 "X" "Z" sample_adjacency endpoint_cities
       = Raised e ∧
       ((∃ key, e = KeyError key ∧ key ∈ ["X"; "Y"; "Z"] ∧ endpoint_cities !! key = None) ∨
        e = ValueError).
Proof.
  split; [vm_compute; reflexivity|]. split; [vm_compute; reflexivity|].
  split; [vm_compute; reflexivity|].
  apply (request_raises_on_unlocated_route taxicab BreadthFirst 10
           "X" "Z" sample_adjacency endpoint_cities ["X"; "Y"; "Z"] "Y").
  - by eexists.
  - by eexists.
  - vm_compute. reflexivity.
  - apply list_elem_of_further, list_elem_of_here.
  - vm_compute. reflexivity.
Defined.


(** X13 on the triangle map. *)
Lemma bfs_both_directions_witness :
  load_adjacency ["X Z"; "X Y"; "Y Z"] = Returned triangle_adjacency ∧
  (reachable triangle_adjacency "X" "Y" ↔ reachable triangle_adjacency "Y" "X") ∧
  ∀ fuel fuel' p p',
    bfs fuel "X" "Y" triangle_adjacency = Returned (Some p) →
    bfs fuel' "Y" "X" triangle_adjacency = Returned (Some p') →
    edge_count p = edge_count p'.
Proof.
  split; [vm_compute; reflexivity|].
  apply (bfs_both_directions ["X Z"; "X Y"; "Y Z"] triangle_adjacency "X" "Y").
  vm_compute. reflexivity.
Defined.

(** X14 in binary64 arithmetic: [bfs] finds the road from P to Q, which
    lie opposite each other, and the sum of the distances raises the
    [ValueError] of [haversine]. *)
Lemma request_raises_only_from_calls_witness :
  bfs 10 "P" "Q" antipodal_adjacency = Returned (Some ["P"; "Q"]) ∧
  request (tabulated antipodal_distances) BreadthFirst 10 "P" "Q" antipodal_adjacency
    antipodal_cities = Raised ValueError ∧
  ((∃ key, ValueError = KeyError key ∧ key ≠ "P" ∧ key ≠ "Q" ∧
           antipodal_cities !! key = None ∧ reachable antipodal_adjacency "P" key) ∨
   (ValueError = ValueError ∧
    ∃ u v c_u c_v,
      reachable antipodal_adjacency "P" u ∧
      (v = "Q" ∨ v ∈ get_or_empty antipodal_adjacency u) ∧
      antipodal_cities !! u = Some c_u ∧ antipodal_cities !! v = Some c_v ∧
      tabulated antipodal_distances c_u c_v = None)).
Proof.
  split; [vm_compute; reflexivity|]. split; [vm_compute; reflexivity|].
  apply (request_raises_only_from_calls (tabulated antipodal_distances) BreadthFirst 10
           "P" "Q" antipodal_adjacency antipodal_cities ValueError).
  vm_compute. reflexivity.
Defined.

(** X15 in binary64 arithmetic, on the equator. *)
Lemma a_star_route_has_distance_witness :
  a_star_search (tabulated equator_distances) 20 "S" "G" equator_adjacency equator_cities
  = Returned (Some ["S"; "D"; "G"]) ∧
  route_from_to equator_adjacency "S" "G" ["S"; "D"; "G"] ∧
  ∃ total, total_distance (tabulated equator_distances) equator_cities ["S"; "D"; "G"]
           = Returned total.
Proof.
  split; [vm_compute; reflexivity|].
  apply (a_star_route_has_distance (tabulated equator_distances) 20 "S" "G"
           equator_adjacency equator_cities ["S"; "D"; "G"]).
  vm_compute. reflexivity.
Defined.

(** X16 on the line "X Y" of the sample file. *)
Lemma bfs_direct_edge_witness :
  load_adjacency ["X Y"; "Y Z"] = Returned sample_adjacency ∧
  (∀ fuel, enough_fuel sample_adjacency "X" ≤ fuel →
           bfs fuel "X" "Y" sample_adjacency = Returned (Some ["X"; "Y"])) ∧
  (∀ fuel, enough_fuel sample_adjacency "Y" ≤ fuel →
           bfs fuel "Y" "X" sample_adjacency = Returned (Some ["Y"; "X"])).
Proof.
  split; [vm_compute; reflexivity|].
  apply (bfs_direct_edge ["X Y"; "Y Z"] sample_adjacency "X Y" "X" "Y").
  - vm_compute. reflexivity.
  - apply list_elem_of_here.
  - vm_compute. reflexivity.
  - discriminate.
Defined.
